(** * FlappyBirb: the pure state-transition core

    A shallow embedding of [src/state.ts] (reducers and CSV parsing),
    the random number generator of [src/util.ts], the constants and
    types of [src/types.ts] and the [flapR] reducer of
    [src/observable.ts].

    Numbers.  Every TypeScript [number] that carries a position, a
    velocity or the generator's seed is an IEEE 754 binary64 value and
    is modelled as such, with the operations of the Standard Library's
    [SpecFloat] at precision 53 and maximal exponent 1024.

    Counters.  [lives], [score], [tickCount] and [invulnUntil] are
    numbers as well.  They are modelled twice.  The reducers of module
    [Js] are the source with these four fields in binary64, for every
    value the fields can hold.  The reducers outside [Js] carry them
    in [Z]; they are what the source computes while the counters are
    whole numbers below 2^53, which part "The counters as numbers"
    proves ([checkPipes_embed], [tick_embed], [ticks_embed]), hence on
    every state a game reaches before its tick count gets near 2^53
    ([reachable_embed]).  Statements about lives, score and the window
    of invulnerability of an arbitrary state are made over [Js]. *)

From Stdlib Require Import ZArith List Sorted String Ascii Bool Lia.
From Stdlib Require Import SpecFloat.
Import ListNotations.

Local Open Scope Z_scope.

(** ** JavaScript numbers *)

Definition number : Type := spec_float.

Module Num.

Definition prec : Z := 53.
Definition emax : Z := 1024.

Definition NaN : number := S754_nan.
Definition zero : number := S754_zero false.

(** Arithmetic operators [+], [-], [*], [/]. *)
Definition add : number -> number -> number := SFadd prec emax.
Definition sub : number -> number -> number := SFsub prec emax.
Definition mul : number -> number -> number := SFmul prec emax.
Definition div : number -> number -> number := SFdiv prec emax.

(** The remainder operator [%]: the result takes the sign of the
    dividend and is computed without rounding error. *)
Definition rem (n d : number) : number :=
  match n, d with
  | S754_nan, _ | _, S754_nan => S754_nan
  | S754_infinity _, _ => S754_nan
  | _, S754_zero _ => S754_nan
  | _, S754_infinity _ => n
  | S754_zero _, _ => n
  | S754_finite sn mn en, S754_finite _ md ed =>
      let ez := Z.min en ed in
      let zn := Zpos (fst (shl_align mn en ez)) in
      let zd := Zpos (fst (shl_align md ed ez)) in
      match zn mod zd with
      | Zpos r => binary_round prec emax sn r ez
      | _ => S754_zero sn
      end
  end.

(** Relational operators; every comparison with NaN is false. *)
Definition ltb (a b : number) : bool := SFltb a b.
Definition leb (a b : number) : bool := SFleb a b.
Definition gtb (a b : number) : bool := SFltb b a.
Definition geb (a b : number) : bool := SFleb b a.
(** Strict equality [===] on numbers. *)
Definition eqb (a b : number) : bool := SFeqb a b.

(** [Number.isFinite]. *)
Definition isFinite (a : number) : bool :=
  match a with
  | S754_zero _ | S754_finite _ _ _ => true
  | S754_infinity _ | S754_nan => false
  end.

(** An integer literal. *)
Definition ofZ (z : Z) : number := binary_normalize prec emax z 0 false.

(** The decimal literal [p * 10^k] with sign [s], rounded to nearest,
    ties to even. *)
Definition ofDecPos (s : bool) (p : positive) (k : Z) : number :=
  match k with
  | Zneg q =>
      SFdiv prec emax (S754_finite s p 0) (S754_finite false (Pos.pow 10 q) 0)
  | Z0 => binary_round prec emax s p 0
  | Zpos q => binary_round prec emax s (p * Pos.pow 10 q) 0
  end.

Definition ofDec (m k : Z) : number :=
  match m with
  | Z0 => S754_zero false
  | Zpos p => ofDecPos false p k
  | Zneg p => ofDecPos true p k
  end.

(** A value is a binary64 number when its mantissa and exponent are in
    the format's canonical range. *)
Definition valid (a : number) : bool := valid_binary prec emax a.

End Num.

Declare Scope num_scope.
Delimit Scope num_scope with num.
Infix "+" := Num.add : num_scope.
Infix "-" := Num.sub : num_scope.
Infix "*" := Num.mul : num_scope.
Infix "/" := Num.div : num_scope.
Infix "mod" := Num.rem : num_scope.
Infix "<?" := Num.ltb : num_scope.
Infix "<=?" := Num.leb : num_scope.
Infix ">?" := Num.gtb : num_scope.
Infix ">=?" := Num.geb : num_scope.
Infix "=?" := Num.eqb : num_scope.

(** ** Constants ([src/types.ts]) *)

Module Viewport.
Definition CANVAS_WIDTH : number := Num.ofZ 600.
Definition CANVAS_HEIGHT : number := Num.ofZ 400.
End Viewport.

Module Birb.
Definition WIDTH : number := Num.ofZ 42.
Definition HEIGHT : number := Num.ofZ 30.
End Birb.

Module Constants.
Definition PIPE_WIDTH : number := Num.ofZ 50.
Definition TICK_RATE_MS : number := Num.ofZ 20.
End Constants.

Module Physics.
Definition GRAVITY : number := Num.ofDec 5 (-1).
Definition FLAP_FORCE : number := Num.ofDec (-55) (-1).
Definition MAX_VELOCITY : number := Num.ofZ 10.
Definition PIPE_SPEED : number := Num.ofZ 5.
End Physics.

(** ** Core game types ([src/types.ts]) *)

Module Pipe.
Record t : Type := mk {
  x : number;
  gapY : number;
  gapHeight : number;
  passed : bool
}.
End Pipe.

Module Ghost.
Record t : Type := mk {
  id : Z;
  y : option number;
  active : bool
}.
End Ghost.

Module State.
Record t : Type := mk {
  birdY : number;
  birdVY : number;
  pipes : list Pipe.t;
  lives : Z;
  score : Z;
  gameEnd : bool;
  paused : bool;
  rngSeed : number;
  tickCount : Z;
  invulnUntil : Z;
  ghosts : list Ghost.t
}.
End State.

(** ** The random number generator ([src/util.ts]) *)

Module RNG.
Definition m : number := Num.ofZ 2147483648.
Definition a : number := Num.ofZ 1103515245.
Definition c : number := Num.ofZ 12345.

Definition hash (seed : number) : number :=
  ((a * seed + c) mod m)%num.

Definition scale (hash : number) : number :=
  ((Num.ofZ 2 * hash) / (m - Num.ofZ 1) - Num.ofZ 1)%num.
End RNG.

Module Rand.
Record t : Type := mk { value : number; seed : number }.
End Rand.

Module RandBetween.
Record t : Type := mk { v : number; seed : number }.
End RandBetween.

Definition rand (seed : number) : Rand.t :=
  let next := RNG.hash seed in
  let value01 := ((RNG.scale next + Num.ofZ 1) / Num.ofZ 2)%num in
  {| Rand.value := value01; Rand.seed := next |}.

Definition randBetween (seed min max : number) : RandBetween.t :=
  let r := rand seed in
  {| RandBetween.v := (min + (max - min) * Rand.value r)%num;
     RandBetween.seed := Rand.seed r |}.

(** ** Reducers ([src/state.ts]) *)

Definition INVULN_TICKS : Z := 15.

Definition initialState : State.t :=
  {| State.birdY := (Viewport.CANVAS_HEIGHT / Num.ofZ 2)%num;
     State.birdVY := Num.ofZ 0;
     State.pipes := [];
     State.lives := 3;
     State.score := 0;
     State.gameEnd := false;
     State.paused := false;
     State.rngSeed := Num.ofZ 123456789;
     State.tickCount := 0;
     State.invulnUntil := 0;
     State.ghosts := [] |}.

(** Gravity integration and boundary clamping. *)
Definition moveBird (s : State.t) : State.t :=
  if State.gameEnd s then s
  else
    let vyNext :=
      if (State.birdVY s + Physics.GRAVITY >? Physics.MAX_VELOCITY)%num
      then Physics.MAX_VELOCITY
      else (State.birdVY s + Physics.GRAVITY)%num in
    let yNext := (State.birdY s + vyNext)%num in
    let minY := Num.ofZ 0 in
    let maxY := (Viewport.CANVAS_HEIGHT - Birb.HEIGHT / Num.ofZ 2)%num in
    let birdY :=
      if (minY >? yNext)%num then minY
      else if (maxY <? yNext)%num then maxY else yNext in
    let birdVY :=
      if ((birdY =? minY) || (birdY =? maxY))%num then Num.ofZ 0 else vyNext in
    {| State.birdY := birdY;
       State.birdVY := birdVY;
       State.pipes := State.pipes s;
       State.lives := State.lives s;
       State.score := State.score s;
       State.gameEnd := State.gameEnd s;
       State.paused := State.paused s;
       State.rngSeed := State.rngSeed s;
       State.tickCount := State.tickCount s;
       State.invulnUntil := State.invulnUntil s;
       State.ghosts := State.ghosts s |}.

(** Scroll pipes left and cull the ones that left the screen. *)
Definition movePipes (s : State.t) : State.t :=
  {| State.birdY := State.birdY s;
     State.birdVY := State.birdVY s;
     State.pipes :=
       filter (fun p => (Pipe.x p + Constants.PIPE_WIDTH >? Num.ofZ 0)%num)
         (map (fun p =>
                 {| Pipe.x := (Pipe.x p - Physics.PIPE_SPEED)%num;
                    Pipe.gapY := Pipe.gapY p;
                    Pipe.gapHeight := Pipe.gapHeight p;
                    Pipe.passed := Pipe.passed p |})
            (State.pipes s));
     State.lives := State.lives s;
     State.score := State.score s;
     State.gameEnd := State.gameEnd s;
     State.paused := State.paused s;
     State.rngSeed := State.rngSeed s;
     State.tickCount := State.tickCount s;
     State.invulnUntil := State.invulnUntil s;
     State.ghosts := State.ghosts s |}.

(** *** Collisions, scoring and life updates *)

(** Bird geometry; the horizontal centre is fixed. *)
Definition birdX : number := (Viewport.CANVAS_WIDTH * Num.ofDec 3 (-1))%num.
Definition birdRight : number := (birdX + Birb.WIDTH / Num.ofZ 2)%num.
Definition birdLeft : number := (birdX - Birb.WIDTH / Num.ofZ 2)%num.
Definition birdBottom (s : State.t) : number :=
  (State.birdY s + Birb.HEIGHT / Num.ofZ 2)%num.
Definition birdTop (s : State.t) : number :=
  (State.birdY s - Birb.HEIGHT / Num.ofZ 2)%num.

(** Pipe geometry. *)
Definition pipeLeft (p : Pipe.t) : number := Pipe.x p.
Definition pipeRight (p : Pipe.t) : number :=
  (Pipe.x p + Constants.PIPE_WIDTH)%num.
Definition gapTop (p : Pipe.t) : number :=
  (Pipe.gapY p - Pipe.gapHeight p / Num.ofZ 2)%num.
Definition gapBottom (p : Pipe.t) : number :=
  (Pipe.gapY p + Pipe.gapHeight p / Num.ofZ 2)%num.

Definition overlapsX (p : Pipe.t) : bool :=
  ((birdRight >=? pipeLeft p) && (birdLeft <? pipeRight p))%num.
Definition hitTopHalf (s : State.t) (p : Pipe.t) : bool :=
  (birdTop s <? gapTop p)%num.
Definition outsideGap (s : State.t) (p : Pipe.t) : bool :=
  ((birdTop s <? gapTop p) || (birdBottom s >? gapBottom p))%num.
Definition collided (s : State.t) (p : Pipe.t) : bool :=
  overlapsX p && outsideGap s p.
(** The bird's left edge has cleared the pipe and the bird is in the gap. *)
Definition passedNow (s : State.t) (p : Pipe.t) : bool :=
  (birdLeft >? pipeRight p)%num && negb (outsideGap s p).

(** The accumulator of the [reduce] over the pipes. *)
Module Acc.
Record t : Type := mk {
  score : Z;
  lives : Z;
  vy : number;
  rngSeed : number;
  invulnUntilTick : Z;
  gameEnd : bool;
  lostLifeThisTick : bool;
  pipes : list Pipe.t
}.
End Acc.

Definition start (s : State.t) : Acc.t :=
  {| Acc.score := State.score s;
     Acc.lives := State.lives s;
     Acc.vy := State.birdVY s;
     Acc.rngSeed := State.rngSeed s;
     Acc.invulnUntilTick := State.invulnUntil s;
     Acc.gameEnd := false;
     Acc.lostLifeThisTick := false;
     Acc.pipes := [] |}.

Definition markPassed (p : Pipe.t) : Pipe.t :=
  {| Pipe.x := Pipe.x p;
     Pipe.gapY := Pipe.gapY p;
     Pipe.gapHeight := Pipe.gapHeight p;
     Pipe.passed := true |}.

(** The callback of [s.pipes.reduce]. *)
Definition pipeStep (s : State.t) (acc : Acc.t) (p : Pipe.t) : Acc.t :=
  if Pipe.passed p then
    {| Acc.score := Acc.score acc;
       Acc.lives := Acc.lives acc;
       Acc.vy := Acc.vy acc;
       Acc.rngSeed := Acc.rngSeed acc;
       Acc.invulnUntilTick := Acc.invulnUntilTick acc;
       Acc.gameEnd := Acc.gameEnd acc;
       Acc.lostLifeThisTick := Acc.lostLifeThisTick acc;
       Acc.pipes := Acc.pipes acc ++ [p] |}
  else
    let fixedBounceV := if hitTopHalf s p then Num.ofZ 6 else Num.ofZ (-6) in
    let shouldLoseLife := collided s p && negb (Acc.lostLifeThisTick acc) in
    let accLife :=
      if shouldLoseLife then
        {| Acc.score := Acc.score acc;
           Acc.lives := Acc.lives acc - 1;
           Acc.vy := Acc.vy acc;
           Acc.rngSeed := Acc.rngSeed acc;
           Acc.invulnUntilTick := Acc.invulnUntilTick acc;
           Acc.gameEnd := Acc.lives acc - 1 <=? 0;
           Acc.lostLifeThisTick := true;
           Acc.pipes := Acc.pipes acc |}
      else acc in
    let rr :=
      if shouldLoseLife then
        randBetween (Acc.rngSeed accLife)
          (if hitTopHalf s p then Num.ofZ 4 else Num.ofZ (-8))
          (if hitTopHalf s p then Num.ofZ 8 else Num.ofZ (-4))
      else
        {| RandBetween.v := Acc.vy accLife;
           RandBetween.seed := Acc.rngSeed accLife |} in
    let accBounce :=
      if collided s p then
        {| Acc.score := Acc.score accLife;
           Acc.lives := Acc.lives accLife;
           Acc.vy := if shouldLoseLife then RandBetween.v rr else fixedBounceV;
           Acc.rngSeed := RandBetween.seed rr;
           Acc.invulnUntilTick := Acc.invulnUntilTick accLife;
           Acc.gameEnd := Acc.gameEnd accLife;
           Acc.lostLifeThisTick := Acc.lostLifeThisTick accLife;
           Acc.pipes := Acc.pipes accLife |}
      else accLife in
    let passed := passedNow s p in
    let pipes := Acc.pipes accBounce ++ [if passed then markPassed p else p] in
    let score := Acc.score accBounce + (if passed then 1 else 0) in
    {| Acc.score := score;
       Acc.lives := Acc.lives accBounce;
       Acc.vy := Acc.vy accBounce;
       Acc.rngSeed := Acc.rngSeed accBounce;
       Acc.invulnUntilTick := Acc.invulnUntilTick accBounce;
       Acc.gameEnd := Acc.gameEnd accBounce;
       Acc.lostLifeThisTick := Acc.lostLifeThisTick accBounce;
       Acc.pipes := pipes |}.

Definition afterPipes (s : State.t) : Acc.t :=
  fold_left (pipeStep s) (State.pipes s) (start s).

(** The life may only be taken by the world bounds once the
    invulnerability window is over and no pipe took one this tick. *)
Definition canLoseLife (s : State.t) (acc : Acc.t) : bool :=
  (Acc.invulnUntilTick acc <=? State.tickCount s)
  && negb (Acc.lostLifeThisTick acc).

(** What both world-bound branches return, up to the bounce range. *)
Definition worldHit (s : State.t) (acc : Acc.t) (min max : number) : Acc.t :=
  let lives := if canLoseLife s acc then Acc.lives acc - 1 else Acc.lives acc in
  let gameEnd :=
    if canLoseLife s acc && (lives <=? 0) then true else Acc.gameEnd acc in
  let invulnUntilTick :=
    if canLoseLife s acc then State.tickCount s + INVULN_TICKS
    else Acc.invulnUntilTick acc in
  let rr := randBetween (Acc.rngSeed acc) min max in
  {| Acc.score := Acc.score acc;
     Acc.lives := lives;
     Acc.vy := RandBetween.v rr;
     Acc.rngSeed := RandBetween.seed rr;
     Acc.invulnUntilTick := invulnUntilTick;
     Acc.gameEnd := gameEnd;
     Acc.lostLifeThisTick := Acc.lostLifeThisTick acc;
     Acc.pipes := Acc.pipes acc |}.

Definition touchesTop (s : State.t) : bool :=
  (birdTop s <=? Num.ofZ 0)%num.
Definition touchesBottom (s : State.t) : bool :=
  (birdBottom s >=? Viewport.CANVAS_HEIGHT)%num.

(** World bounds: life loss with cooldown, and bounce. *)
Definition world (s : State.t) (acc : Acc.t) : Acc.t :=
  if Acc.gameEnd acc then acc
  else if touchesTop s then worldHit s acc (Num.ofZ 4) (Num.ofZ 8)
  else if touchesBottom s then worldHit s acc (Num.ofZ (-8)) (Num.ofZ (-4))
  else acc.

Definition checkPipes (s : State.t) : State.t :=
  match State.pipes s with
  | [] =>
      {| State.birdY := State.birdY s;
         State.birdVY := State.birdVY s;
         State.pipes := State.pipes s;
         State.lives := State.lives s;
         State.score := State.score s;
         State.gameEnd := true;
         State.paused := State.paused s;
         State.rngSeed := State.rngSeed s;
         State.tickCount := State.tickCount s;
         State.invulnUntil := State.invulnUntil s;
         State.ghosts := State.ghosts s |}
  | _ :: _ =>
      let w := world s (afterPipes s) in
      {| State.birdY := State.birdY s;
         State.birdVY := Acc.vy w;
         State.pipes := Acc.pipes w;
         State.lives := Acc.lives w;
         State.score := Acc.score w;
         State.gameEnd := Acc.gameEnd w;
         State.paused := State.paused s;
         State.rngSeed := Acc.rngSeed w;
         State.tickCount := State.tickCount s;
         State.invulnUntil := Acc.invulnUntilTick w;
         State.ghosts := State.ghosts s |}
  end.

(** Reset to the initial state while reusing the same pipe set. *)
Definition restartGame (s : State.t) (pipes : list Pipe.t) : State.t :=
  {| State.birdY := State.birdY initialState;
     State.birdVY := State.birdVY initialState;
     State.pipes := pipes;
     State.lives := State.lives initialState;
     State.score := State.score initialState;
     State.gameEnd := State.gameEnd initialState;
     State.paused := State.paused initialState;
     State.rngSeed := State.rngSeed initialState;
     State.tickCount := State.tickCount initialState;
     State.invulnUntil := State.invulnUntil initialState;
     State.ghosts := State.ghosts initialState |}.

Definition setBirdVY (s : State.t) (vy : number) : State.t :=
  {| State.birdY := State.birdY s;
     State.birdVY := vy;
     State.pipes := State.pipes s;
     State.lives := State.lives s;
     State.score := State.score s;
     State.gameEnd := State.gameEnd s;
     State.paused := State.paused s;
     State.rngSeed := State.rngSeed s;
     State.tickCount := State.tickCount s;
     State.invulnUntil := State.invulnUntil s;
     State.ghosts := State.ghosts s |}.

(** Apply an instantaneous upward velocity. *)
Definition birdFlap (s : State.t) : State.t := setBirdVY s Physics.FLAP_FORCE.

Definition setTickCount (s : State.t) (n : Z) : State.t :=
  {| State.birdY := State.birdY s;
     State.birdVY := State.birdVY s;
     State.pipes := State.pipes s;
     State.lives := State.lives s;
     State.score := State.score s;
     State.gameEnd := State.gameEnd s;
     State.paused := State.paused s;
     State.rngSeed := State.rngSeed s;
     State.tickCount := n;
     State.invulnUntil := State.invulnUntil s;
     State.ghosts := State.ghosts s |}.

(** One discrete time step composed of the sub-reducers. *)
Definition tick (s : State.t) : State.t :=
  if State.gameEnd s || State.paused s then s
  else
    let advanced := movePipes (moveBird s) in
    let afterCollisions := checkPipes advanced in
    setTickCount afterCollisions (State.tickCount s + 1).

(** ** Input reducers ([src/observable.ts]) *)

(** Apply an upward impulse only during play. *)
Definition flapR (s : State.t) : State.t :=
  if State.gameEnd s then s else birdFlap s.

Definition togglePauseR (s : State.t) : State.t :=
  {| State.birdY := State.birdY s;
     State.birdVY := State.birdVY s;
     State.pipes := State.pipes s;
     State.lives := State.lives s;
     State.score := State.score s;
     State.gameEnd := State.gameEnd s;
     State.paused := negb (State.paused s);
     State.rngSeed := State.rngSeed s;
     State.tickCount := State.tickCount s;
     State.invulnUntil := State.invulnUntil s;
     State.ghosts := State.ghosts s |}.

(** ** Parsing the pipe schedule ([parsePipeCSV], [src/state.ts])

    A string is a sequence of code units below 256 (the Latin-1
    range); texts with other characters are outside the model.
    [trim], [split] and [Number] are the JavaScript built-ins the
    parser calls. *)

Definition LF : ascii := "010"%char.
Definition CR : ascii := "013"%char.

(** White space and line terminators, as [String.prototype.trim] and
    [Number] strip them: of the code units below 256 these are tab,
    line feed, vertical tab, form feed, carriage return, space and
    the no-break space U+00A0. *)
Definition isWhiteSpace (c : ascii) : bool :=
  let n := N_of_ascii c in
  ((9 <=? n) && (n <=? 13) || (n =? 32) || (n =? 160))%N.

Fixpoint trimStart (s : string) : string :=
  match s with
  | String c r => if isWhiteSpace c then trimStart r else s
  | EmptyString => EmptyString
  end.

Fixpoint trimEnd (s : string) : string :=
  match s with
  | String c r =>
      match trimEnd r with
      | EmptyString => if isWhiteSpace c then EmptyString else String c EmptyString
      | r' => String c r'
      end
  | EmptyString => EmptyString
  end.

Definition trim (s : string) : string := trimEnd (trimStart s).

Definition consHead (c : ascii) (l : list string) : list string :=
  match l with
  | h :: t => String c h :: t
  | [] => [String c EmptyString]
  end.

(** [s.split(sep)] for a one-character separator. *)
Fixpoint split (sep : ascii) (s : string) : list string :=
  match s with
  | String c r =>
      if Ascii.eqb c sep then EmptyString :: split sep r
      else consHead c (split sep r)
  | EmptyString => [EmptyString]
  end.

Definition startsWithLF (s : string) : bool :=
  match s with
  | String c _ => Ascii.eqb c LF
  | EmptyString => false
  end.

(** [s.split(/\r?\n/)]. *)
Fixpoint splitLines (s : string) : list string :=
  match s with
  | String c r =>
      if Ascii.eqb c LF then EmptyString :: splitLines r
      else if Ascii.eqb c CR && startsWithLF r then splitLines r
      else consHead c (splitLines r)
  | EmptyString => [EmptyString]
  end.

(** *** [Number] applied to a string *)

Definition digitVal (base : Z) (c : ascii) : option Z :=
  let n := Z.of_N (N_of_ascii c) in
  let d :=
    if (48 <=? n) && (n <=? 57) then n - 48
    else if (97 <=? n) && (n <=? 102) then n - 87
    else if (65 <=? n) && (n <=? 70) then n - 55
    else base in
  if d <? base then Some d else None.

(** Reads the longest run of digits: the value accumulated onto [acc],
    the number of digits read added to [n], and the rest. *)
Fixpoint readDigits (base acc n : Z) (s : string) : Z * Z * string :=
  match s with
  | String c r =>
      match digitVal base c with
      | Some d => readDigits base (acc * base + d) (n + 1) r
      | None => (acc, n, s)
      end
  | EmptyString => (acc, n, s)
  end.

Definition isEmpty (s : string) : bool :=
  match s with EmptyString => true | _ => false end.

(** The optional exponent part, which must end the literal. *)
Definition parseExponent (s : string) : option Z :=
  match s with
  | EmptyString => Some 0
  | String c r =>
      if Ascii.eqb c "e"%char || Ascii.eqb c "E"%char then
        let '(sg, r1) :=
          match r with
          | String c1 r' =>
              if Ascii.eqb c1 "+"%char then (1, r')
              else if Ascii.eqb c1 "-"%char then (-1, r')
              else (1, r)
          | EmptyString => (1, r)
          end in
        let '(e, n, rest) := readDigits 10 0 0 r1 in
        if (0 <? n) && isEmpty rest then Some (sg * e) else None
      else None
  end.

Definition signedDec (neg : bool) (m k : Z) : number :=
  match m with
  | Zpos p => Num.ofDecPos neg p k
  | _ => S754_zero neg
  end.

(** An unsigned decimal literal: [Infinity], or digits with an optional
    fraction and exponent. *)
Definition parseUnsignedDecimal (neg : bool) (s : string) : number :=
  if String.eqb s "Infinity"%string then S754_infinity neg
  else
    let '(i, ni, r1) := readDigits 10 0 0 s in
    let '(m, nf, r2) :=
      match r1 with
      | String c r => if Ascii.eqb c "."%char then readDigits 10 i 0 r else (i, 0, r1)
      | EmptyString => (i, 0, r1)
      end in
    if ni + nf =? 0 then Num.NaN
    else
      match parseExponent r2 with
      | Some e => signedDec neg m (e - nf)
      | None => Num.NaN
      end.

(** A binary, octal or hexadecimal integer literal, after its prefix. *)
Definition parseNonDecimal (base : Z) (s : string) : number :=
  let '(v, n, rest) := readDigits base 0 0 s in
  if (0 <? n) && isEmpty rest then Num.ofZ v else Num.NaN.

Definition Number (s : string) : number :=
  match trim s with
  | EmptyString => Num.zero
  | String c r as t =>
      if Ascii.eqb c "+"%char then parseUnsignedDecimal false r
      else if Ascii.eqb c "-"%char then parseUnsignedDecimal true r
      else
        match r with
        | String c1 r1 =>
            if Ascii.eqb c "0"%char && (Ascii.eqb c1 "x"%char || Ascii.eqb c1 "X"%char)
            then parseNonDecimal 16 r1
            else if Ascii.eqb c "0"%char && (Ascii.eqb c1 "o"%char || Ascii.eqb c1 "O"%char)
            then parseNonDecimal 8 r1
            else if Ascii.eqb c "0"%char && (Ascii.eqb c1 "b"%char || Ascii.eqb c1 "B"%char)
            then parseNonDecimal 2 r1
            else parseUnsignedDecimal false t
        | EmptyString => parseUnsignedDecimal false t
        end
  end.

(** The pipe a valid row describes; a missing column reads as
    [undefined], which arithmetic turns into NaN. *)
Definition pipeOfRow (cols : list number) : Pipe.t :=
  let gapYFrac := nth 0 cols Num.NaN in
  let gapHeightFrac := nth 1 cols Num.NaN in
  let appearTimeSec := nth 2 cols Num.NaN in
  {| Pipe.x :=
       (Viewport.CANVAS_WIDTH
        + appearTimeSec * (Num.ofZ 1000 / Constants.TICK_RATE_MS)
          * Physics.PIPE_SPEED)%num;
     Pipe.gapY := (gapYFrac * Viewport.CANVAS_HEIGHT)%num;
     Pipe.gapHeight := (gapHeightFrac * Viewport.CANVAS_HEIGHT)%num;
     Pipe.passed := false |}.

Definition parsePipeCSV (csv : string) : list Pipe.t :=
  map pipeOfRow
    (filter (fun cols => (List.length cols =? 3)%nat && forallb Num.isFinite cols)
       (map (fun line => map Number (split ","%char line))
          (tl (splitLines (trim csv))))).

Definition csvHeader : string := "gap_y,gap_height,time"%string.

(** ** Vocabulary of the statements *)

(** What the [reduce] callback appends for pipe [p]. *)
Definition stepPipe (s : State.t) (p : Pipe.t) : Pipe.t :=
  if Pipe.passed p then p
  else if passedNow s p then markPassed p else p.

(** A pipe that still counts and that the bird hits. *)
Definition hits (s : State.t) (p : Pipe.t) : bool :=
  negb (Pipe.passed p) && collided s p.

Definition colliding (s : State.t) : list Pipe.t :=
  filter (hits s) (State.pipes s).

Definition noCollision (s : State.t) : bool :=
  forallb (fun p => negb (hits s p)) (State.pipes s).

Definition touchesWorld (s : State.t) : bool :=
  touchesTop s || touchesBottom s.

(** The world-bounds branch of [checkPipes] is reached and takes a life. *)
Definition worldDeductsLife (s : State.t) : bool :=
  match State.pipes s with
  | [] => false
  | _ :: _ =>
      negb (Acc.gameEnd (afterPipes s))
      && touchesWorld s
      && canLoseLife s (afterPipes s)
  end.

(** The number of positions at which [passed] is false before and true
    after. *)
Definition newlyPassed (before after : list Pipe.t) : Z :=
  Z.of_nat
    (List.length
       (filter (fun pq => negb (Pipe.passed (fst pq)) && Pipe.passed (snd pq))
          (combine before after))).

(** [q] is [p] at the same place, with [passed] unchanged or raised. *)
Definition pipeKept (p q : Pipe.t) : Prop :=
  Pipe.x q = Pipe.x p
  /\ Pipe.gapY q = Pipe.gapY p
  /\ Pipe.gapHeight q = Pipe.gapHeight p
  /\ (Pipe.passed q = Pipe.passed p
      \/ (Pipe.passed p = false /\ Pipe.passed q = true)).

(** ** Sample states, after the repository's tests *)

(** [mkPipe()] of the tests: a pipe to the right of the viewport. *)
Definition mkPipe : Pipe.t :=
  {| Pipe.x := (Viewport.CANVAS_WIDTH + Num.ofZ 100)%num;
     Pipe.gapY := (Viewport.CANVAS_HEIGHT / Num.ofZ 2)%num;
     Pipe.gapHeight := Num.ofZ 100;
     Pipe.passed := false |}.

(** A pipe that the bird's column overlaps, with a gap centred at [gy]. *)
Definition pipeAtBird (gy : Z) : Pipe.t :=
  {| Pipe.x := (birdX - Constants.PIPE_WIDTH / Num.ofZ 2)%num;
     Pipe.gapY := Num.ofZ gy;
     Pipe.gapHeight := Num.ofZ 100;
     Pipe.passed := false |}.

Definition sampleState (y vy : number) (ps : list Pipe.t) (tc : Z) : State.t :=
  {| State.birdY := y;
     State.birdVY := vy;
     State.pipes := ps;
     State.lives := 3;
     State.score := 0;
     State.gameEnd := false;
     State.paused := false;
     State.rngSeed := Num.ofZ 1;
     State.tickCount := tc;
     State.invulnUntil := 0;
     State.ghosts := [] |}.

(** The bird touches the top of the world, above the gap of two
    overlapping pipes. *)
Definition crowdedState : State.t :=
  sampleState (Num.ofZ 10) (Num.ofZ 0) [pipeAtBird 200; pipeAtBird 240] 0.

(** The bird is below the bottom of the world at tick 10. *)
Definition sunkState : State.t :=
  sampleState (Num.ofZ 500) (Num.ofZ 10) [mkPipe] 10.

(** A paused game in progress. *)
Definition pausedState : State.t :=
  togglePauseR (sampleState (Num.ofZ 200) (Num.ofZ 0) [mkPipe] 5).

(** A pipe behind the bird, and a state in which the bird flies in the
    gap of two such pipes, the first of them already passed. *)
Definition pipeBehind : Pipe.t :=
  {| Pipe.x := (birdX - Num.ofZ 100)%num;
     Pipe.gapY := Num.ofZ 200;
     Pipe.gapHeight := Num.ofZ 100;
     Pipe.passed := false |}.

Definition passingState : State.t :=
  sampleState (Num.ofZ 200) (Num.ofZ 0) [markPassed pipeBehind; pipeBehind] 0.

(** The birds of the [moveBird] tests: at the top moving up, and at the
    bottom falling. *)
Definition risingState : State.t :=
  sampleState (Num.ofZ 0) (Num.ofZ (-5)) [] 0.

Definition fallingState : State.t :=
  sampleState Viewport.CANVAS_HEIGHT (Num.ofZ 20) [] 0.

(** A bird at the top that moves up by less than gravity pulls down. *)
Definition hoverState : State.t :=
  sampleState (Num.ofZ 0) (Num.ofDec (-25) (-2)) [] 0.

(** A falling bird at the bottom of a game that has ended. *)
Definition endedState : State.t :=
  {| State.birdY := Viewport.CANVAS_HEIGHT;
     State.birdVY := Num.ofZ 20;
     State.pipes := [];
     State.lives := 0;
     State.score := 0;
     State.gameEnd := true;
     State.paused := false;
     State.rngSeed := Num.ofZ 1;
     State.tickCount := 7;
     State.invulnUntil := 0;
     State.ghosts := [] |}.

(** The bird is just above the gap of a pipe it overlaps. *)
Definition bumpState : State.t :=
  sampleState (Num.ofZ 145) (Num.ofZ 0) [pipeAtBird 200] 0.

(** ** Schedule texts *)

Definition line (s : string) : string := String LF s.

(** The schedule of the robustness test: a bad row and a blank line
    between the two rows. *)
Definition csvWithBadRows : string :=
  (csvHeader ++ line "0.5,0.25,2" ++ line "bad,line,ignored"
   ++ line EmptyString
   ++ line "0.25,0.5,1")%string.

(** The schedule of the tests: a header and two rows. *)
Definition csvTwoRows : string :=
  (csvHeader ++ line "0.5,0.25,2" ++ line "0.25,0.5,1")%string.

(** A header line holds no line feed and starts with a character that
    [trim] keeps. *)
Definition noLF (s : string) : bool :=
  forallb (fun c => negb (Ascii.eqb c LF)) (list_ascii_of_string s).

Definition startsWithText (s : string) : bool :=
  match s with
  | String c _ => negb (isWhiteSpace c)
  | EmptyString => false
  end.

Definition pipeOfZ (x gapY gapHeight : Z) : Pipe.t :=
  {| Pipe.x := Num.ofZ x;
     Pipe.gapY := Num.ofZ gapY;
     Pipe.gapHeight := Num.ofZ gapHeight;
     Pipe.passed := false |}.

(** ** Binary64 vocabulary *)

Abbreviation fexp := (SpecFloat.fexp Num.prec Num.emax).

(** The binary64 representation of a positive integer below [2^53]. *)
Definition canonZ (s : bool) (v : Z) : spec_float :=
  S754_finite s (Z.to_pos (v * 2 ^ (52 - Z.log2 v))) (Z.log2 v - 52).

(** The shapes [binary_round_aux] returns for a positive mantissa. *)
Inductive rounded (s : bool) : spec_float -> Prop :=
| rounded_zero : rounded s (S754_zero s)
| rounded_inf : rounded s (S754_infinity s)
| rounded_fin m e : Zpos m < 2 ^ 53 -> e <= 971 -> rounded s (S754_finite s m e).

(** ** Ghost and restart reducers ([src/observable.ts]) *)

Definition setGhosts (s : State.t) (gs : list Ghost.t) : State.t :=
  {| State.birdY := State.birdY s;
     State.birdVY := State.birdVY s;
     State.pipes := State.pipes s;
     State.lives := State.lives s;
     State.score := State.score s;
     State.gameEnd := State.gameEnd s;
     State.paused := State.paused s;
     State.rngSeed := State.rngSeed s;
     State.tickCount := State.tickCount s;
     State.invulnUntil := State.invulnUntil s;
     State.ghosts := gs |}.

(** Reset to the initial state while reusing the parsed pipe set. *)
Definition restartR (pipes : list Pipe.t) (s : State.t) : State.t :=
  restartGame s pipes.

(** Clear all ghost actors. *)
Definition resetGhostsR (s : State.t) : State.t := setGhosts s [].

(** Ensure a ghost exists and mark it active, with [y] unset. *)
Definition activateGhostR (id : Z) (s : State.t) : State.t :=
  setGhosts s
    (if existsb (fun g => Ghost.id g =? id) (State.ghosts s)
     then
       map (fun g =>
              if Ghost.id g =? id
              then {| Ghost.id := Ghost.id g; Ghost.y := None;
                      Ghost.active := true |}
              else g)
         (State.ghosts s)
     else
       State.ghosts s
       ++ [{| Ghost.id := id; Ghost.y := None; Ghost.active := true |}]).

(** Set the current frame [y] for a particular ghost. *)
Definition ghostFrameR (id : Z) (y : option number) (s : State.t) : State.t :=
  setGhosts s
    (map (fun g =>
            if Ghost.id g =? id
            then {| Ghost.id := Ghost.id g; Ghost.y := y;
                    Ghost.active := true |}
            else g)
       (State.ghosts s)).

(** Mark a ghost inactive at the end of its replay. *)
Definition deactivateGhostR (id : Z) (s : State.t) : State.t :=
  setGhosts s
    (map (fun g =>
            if Ghost.id g =? id
            then {| Ghost.id := Ghost.id g; Ghost.y := Ghost.y g;
                    Ghost.active := false |}
            else g)
       (State.ghosts s)).

(** The replay of one archived run: activate, one frame per recorded
    height, deactivate. *)
Definition replayGhost (id : Z) (ys : list number) (s : State.t) : State.t :=
  deactivateGhostR id
    (fold_left (fun st y => ghostFrameR id (Some y) st) ys
       (activateGhostR id s)).

(** ** The run recorder (the [scan] callback of [runsAcc$],
    [src/observable.ts])

    A [ReplaySubject] is observed here through what was sent to it and
    whether it was completed; [next] after [complete] is ignored. *)

Module Subject.
Record t : Type := mk { buffer : list number; completed : bool }.
End Subject.

Definition newSubject : Subject.t :=
  {| Subject.buffer := []; Subject.completed := false |}.

Definition subjectNext (c : Subject.t) (v : number) : Subject.t :=
  if Subject.completed c then c
  else {| Subject.buffer := Subject.buffer c ++ [v];
          Subject.completed := false |}.

Definition subjectComplete (c : Subject.t) : Subject.t :=
  {| Subject.buffer := Subject.buffer c; Subject.completed := true |}.

Module RunRec.
Record t : Type := mk { id : Z; subj : Subject.t }.
End RunRec.

Module RecAcc.
Record t : Type := mk {
  runs : list RunRec.t;
  current : option Subject.t;
  nextId : Z;
  prevEnded : bool
}.
End RecAcc.

Definition recSeed : RecAcc.t :=
  {| RecAcc.runs := [];
     RecAcc.current := None;
     RecAcc.nextId := 1;
     RecAcc.prevEnded := false |}.

(** One unpaused tick seen by the recorder, with the latest state. *)
Definition recordStep (acc : RecAcc.t) (s : State.t) : RecAcc.t :=
  let endedThisTick := State.gameEnd s && negb (RecAcc.prevEnded acc) in
  let runningThisTick := negb (State.gameEnd s) in
  let current :=
    if runningThisTick then
      Some (subjectNext
              (match RecAcc.current acc with
               | Some c => c
               | None => newSubject
               end)
              (State.birdY s))
    else RecAcc.current acc in
  let runs :=
    match RecAcc.current acc with
    | Some c =>
        if endedThisTick
        then RecAcc.runs acc
             ++ [{| RunRec.id := RecAcc.nextId acc;
                    RunRec.subj := subjectComplete c |}]
        else RecAcc.runs acc
    | None => RecAcc.runs acc
    end in
  {| RecAcc.runs := runs;
     RecAcc.current := if endedThisTick then None else current;
     RecAcc.nextId :=
       if endedThisTick then RecAcc.nextId acc + 1 else RecAcc.nextId acc;
     RecAcc.prevEnded := State.gameEnd s |}.

Definition record (states : list State.t) : RecAcc.t :=
  fold_left recordStep states recSeed.

(** ** States the reducers can reach

    The state stream folds reducers over [restartGame] of the parsed
    layout; each reducer is a tick, a key reducer, or a step of the
    restart and ghost replay. *)

Inductive reachable (layout : list Pipe.t) : State.t -> Prop :=
| reach_base (s0 : State.t) : reachable layout (restartGame s0 layout)
| reach_tick s : reachable layout s -> reachable layout (tick s)
| reach_flap s : reachable layout s -> reachable layout (flapR s)
| reach_pause s : reachable layout s -> reachable layout (togglePauseR s)
| reach_restart s : reachable layout s -> reachable layout (restartR layout s)
| reach_reset s : reachable layout s -> reachable layout (resetGhostsR s)
| reach_activate id s :
    reachable layout s -> reachable layout (activateGhostR id s)
| reach_frame id y s :
    reachable layout s -> reachable layout (ghostFrameR id y s)
| reach_deactivate id s :
    reachable layout s -> reachable layout (deactivateGhostR id s).

(** The pipes that still count. *)
Definition unpassed (ps : list Pipe.t) : list Pipe.t :=
  filter (fun p => negb (Pipe.passed p)) ps.

(** A state in which some reducer still advances the game. *)
Definition running (s : State.t) : bool :=
  negb (State.gameEnd s || State.paused s).

Definition ghostIds (s : State.t) : list Z := map Ghost.id (State.ghosts s).

Definition setGameEnd (s : State.t) (b : bool) : State.t :=
  {| State.birdY := State.birdY s;
     State.birdVY := State.birdVY s;
     State.pipes := State.pipes s;
     State.lives := State.lives s;
     State.score := State.score s;
     State.gameEnd := b;
     State.paused := State.paused s;
     State.rngSeed := State.rngSeed s;
     State.tickCount := State.tickCount s;
     State.invulnUntil := State.invulnUntil s;
     State.ghosts := State.ghosts s |}.

Definition setPipes (s : State.t) (ps : list Pipe.t) : State.t :=
  {| State.birdY := State.birdY s;
     State.birdVY := State.birdVY s;
     State.pipes := ps;
     State.lives := State.lives s;
     State.score := State.score s;
     State.gameEnd := State.gameEnd s;
     State.paused := State.paused s;
     State.rngSeed := State.rngSeed s;
     State.tickCount := State.tickCount s;
     State.invulnUntil := State.invulnUntil s;
     State.ghosts := State.ghosts s |}.

(** Some pipe that still counts is hit. *)
Definition pipeHit (s : State.t) : bool := existsb (hits s) (State.pipes s).

(** The world-bounds branch of [checkPipes] bounces the bird: there are
    pipes, the pipes did not end the game, and a bound is touched. *)
Definition worldBounce (s : State.t) : bool :=
  match State.pipes s with
  | [] => false
  | _ :: _ => negb (Acc.gameEnd (afterPipes s)) && touchesWorld s
  end.

(** The number of draws [checkPipes] makes from the generator. *)
Definition draws (s : State.t) : nat :=
  ((if pipeHit s then 1 else 0) + (if worldBounce s then 1 else 0))%nat.

(** What the ghost reducers map over the ghosts: [upd] where the id
    matches. *)
Definition rewriteGhost (id : Z) (upd : Ghost.t -> Ghost.t) (g : Ghost.t)
  : Ghost.t :=
  if Ghost.id g =? id then upd g else g.

Definition activated (g : Ghost.t) : Ghost.t :=
  {| Ghost.id := Ghost.id g; Ghost.y := None; Ghost.active := true |}.

Definition framed (y : option number) (g : Ghost.t) : Ghost.t :=
  {| Ghost.id := Ghost.id g; Ghost.y := y; Ghost.active := true |}.

Definition deactivated (g : Ghost.t) : Ghost.t :=
  {| Ghost.id := Ghost.id g; Ghost.y := Ghost.y g; Ghost.active := false |}.

(** The last frame of a recording, if any. *)
Definition lastFrame (ys : list number) : option number :=
  last (map Some ys) None.

(** The reducers the stream merges: those of the game, and those of the
    ghost replay. *)
Inductive playAction : Type :=
| Tick
| Flap
| Pause.

Inductive ghostAction : Type :=
| Reset
| Activate (id : Z)
| Frame (id : Z) (y : option number)
| Deactivate (id : Z).

Definition applyPlay (a : playAction) (s : State.t) : State.t :=
  match a with
  | Tick => tick s
  | Flap => flapR s
  | Pause => togglePauseR s
  end.

Definition applyGhost (a : ghostAction) (s : State.t) : State.t :=
  match a with
  | Reset => resetGhostsR s
  | Activate id => activateGhostR id s
  | Frame id y => ghostFrameR id y s
  | Deactivate id => deactivateGhostR id s
  end.

(** The ghost an action is about, and whether the action only rewrites
    ghosts that exist. *)
Definition ghostActionId (a : ghostAction) : option Z :=
  match a with
  | Reset => None
  | Activate id | Frame id _ | Deactivate id => Some id
  end.

Definition rewritesOnly (a : ghostAction) : bool :=
  match a with
  | Frame _ _ | Deactivate _ => true
  | Reset | Activate _ => false
  end.

(** Every ghost with the id is active and shows [y0]. *)
Definition ghostShows (id : Z) (y0 : option number) (gs : list Ghost.t)
  : Prop :=
  forall g, In g gs -> Ghost.id g = id ->
            g = {| Ghost.id := id; Ghost.y := y0; Ghost.active := true |}.

(** What holds of every state the reducers reach from a layout. *)
Definition gameInv (layout : list Pipe.t) (s : State.t) : Prop :=
  0 <= State.lives s <= 3
  /\ (State.lives s <= 0 -> State.gameEnd s = true)
  /\ (State.gameEnd s = true -> State.pipes s = [] \/ State.lives s <= 0)
  /\ 0 <= State.score s
  /\ State.score s + Z.of_nat (List.length (unpassed (State.pipes s)))
     <= Z.of_nat (List.length layout)
  /\ 0 <= State.tickCount s
  /\ State.invulnUntil s <= State.tickCount s + INVULN_TICKS
  /\ 0 <= State.invulnUntil s.

(** What holds of the recorder after any sequence of states. *)
Definition sealedRun (bound : Z) (r : RunRec.t) : Prop :=
  1 <= RunRec.id r < bound
  /\ Subject.completed (RunRec.subj r) = true
  /\ Subject.buffer (RunRec.subj r) <> [].

Definition recInv (acc : RecAcc.t) : Prop :=
  1 <= RecAcc.nextId acc
  /\ Forall (sealedRun (RecAcc.nextId acc)) (RecAcc.runs acc)
  /\ StronglySorted Z.lt (map RunRec.id (RecAcc.runs acc))
  /\ (forall c, RecAcc.current acc = Some c ->
                Subject.completed c = false /\ Subject.buffer c <> [])
  /\ (RecAcc.prevEnded acc = true -> RecAcc.current acc = None).

(** ** Whole-number positions and seeds *)

(** A game with a pipe far to the right and one about to leave the
    screen on the left. *)
Definition scrollState : State.t :=
  sampleState (Num.ofZ 200) (Num.ofZ 0)
    [pipeOfZ 700 200 200; pipeOfZ (-47) 200 200] 0.

(** A row of the schedule whose time is a whole number of seconds, and
    the pipes [parsePipeCSV] makes of such rows. *)
Definition timedRow (r : number * number * Z) : list number :=
  [fst (fst r); snd (fst r); Num.ofZ (snd r)].

Definition timedLayout (rows : list (number * number * Z)) : list Pipe.t :=
  map (fun r => pipeOfRow (timedRow r)) rows.

Definition oneSecondRow : number * number * Z :=
  (Num.ofDec 5 (-1), Num.ofDec 5 (-1), 1).

(** A seed is in range when it is a whole number from 0 to [2^31 - 1]. *)
Definition seedInRange (x : number) : Prop :=
  exists r : Z, 0 <= r < 2 ^ 31 /\ x = Num.ofZ r.

(** ** Ranges *)

(** A normal binary64 number of sign [s] whose magnitude is at most
    [2^j], with an exponent of at least [lo]. *)
Definition normalUpTo (s : bool) (lo j : Z) (x : number) : Prop :=
  exists (m : positive) (e : Z),
    x = S754_finite s m e
    /\ 2 ^ 52 <= Zpos m < 2 ^ 53
    /\ lo <= e
    /\ (e < j - 52 \/ (e = j - 52 /\ Zpos m = 2 ^ 52)).

(** [lo <= v && v <= hi]. *)
Definition between (lo hi v : number) : bool :=
  ((lo <=? v) && (v <=? hi))%num.

(** The velocities a bounce can leave: from 4 to 8 downwards or from 4
    to 8 upwards. *)
Definition bounced (v : number) : bool :=
  between (Num.ofZ 4) (Num.ofZ 8) v || between (Num.ofZ (-8)) (Num.ofZ (-4)) v.

(** What the [reduce] over the pipes keeps: a seed in range, and a
    bounce velocity once a life is lost. *)
Definition bounceInv (acc : Acc.t) : Prop :=
  seedInRange (Acc.rngSeed acc)
  /\ (Acc.lostLifeThisTick acc = true -> bounced (Acc.vy acc) = true).

(** A layout whose pipe the bird hits on the first tick. *)
Definition collisionLayout : list Pipe.t := [pipeAtBird 350].

(** ** The reducers with the counters as numbers

    In the source [lives], [score], [tickCount] and [invulnUntil] are
    numbers like every other field.  Module [Js] is [src/state.ts]
    with these four fields as binary64 values and their arithmetic
    and comparisons in binary64.  On whole-number counters below
    [2^53] it computes what the reducers above compute with the
    counters in [Z] (part "The counters as numbers" below); above
    that bound its subtractions and additions round. *)

Module Js.

Module State.
Record t : Type := mk {
  birdY : number;
  birdVY : number;
  pipes : list Pipe.t;
  lives : number;
  score : number;
  gameEnd : bool;
  paused : bool;
  rngSeed : number;
  tickCount : number;
  invulnUntil : number;
  ghosts : list Ghost.t
}.
End State.

Definition INVULN_TICKS : number := Num.ofZ 15.

Definition initialState : State.t :=
  {| State.birdY := (Viewport.CANVAS_HEIGHT / Num.ofZ 2)%num;
     State.birdVY := Num.ofZ 0;
     State.pipes := [];
     State.lives := Num.ofZ 3;
     State.score := Num.ofZ 0;
     State.gameEnd := false;
     State.paused := false;
     State.rngSeed := Num.ofZ 123456789;
     State.tickCount := Num.ofZ 0;
     State.invulnUntil := Num.ofZ 0;
     State.ghosts := [] |}.

Definition moveBird (s : State.t) : State.t :=
  if State.gameEnd s then s
  else
    let vyNext :=
      if (State.birdVY s + Physics.GRAVITY >? Physics.MAX_VELOCITY)%num
      then Physics.MAX_VELOCITY
      else (State.birdVY s + Physics.GRAVITY)%num in
    let yNext := (State.birdY s + vyNext)%num in
    let minY := Num.ofZ 0 in
    let maxY := (Viewport.CANVAS_HEIGHT - Birb.HEIGHT / Num.ofZ 2)%num in
    let birdY :=
      if (minY >? yNext)%num then minY
      else if (maxY <? yNext)%num then maxY else yNext in
    let birdVY :=
      if ((birdY =? minY) || (birdY =? maxY))%num then Num.ofZ 0 else vyNext in
    {| State.birdY := birdY;
       State.birdVY := birdVY;
       State.pipes := State.pipes s;
       State.lives := State.lives s;
       State.score := State.score s;
       State.gameEnd := State.gameEnd s;
       State.paused := State.paused s;
       State.rngSeed := State.rngSeed s;
       State.tickCount := State.tickCount s;
       State.invulnUntil := State.invulnUntil s;
       State.ghosts := State.ghosts s |}.

Definition movePipes (s : State.t) : State.t :=
  {| State.birdY := State.birdY s;
     State.birdVY := State.birdVY s;
     State.pipes :=
       filter (fun p => (Pipe.x p + Constants.PIPE_WIDTH >? Num.ofZ 0)%num)
         (map (fun p =>
                 {| Pipe.x := (Pipe.x p - Physics.PIPE_SPEED)%num;
                    Pipe.gapY := Pipe.gapY p;
                    Pipe.gapHeight := Pipe.gapHeight p;
                    Pipe.passed := Pipe.passed p |})
            (State.pipes s));
     State.lives := State.lives s;
     State.score := State.score s;
     State.gameEnd := State.gameEnd s;
     State.paused := State.paused s;
     State.rngSeed := State.rngSeed s;
     State.tickCount := State.tickCount s;
     State.invulnUntil := State.invulnUntil s;
     State.ghosts := State.ghosts s |}.

Definition birdBottom (s : State.t) : number :=
  (State.birdY s + Birb.HEIGHT / Num.ofZ 2)%num.
Definition birdTop (s : State.t) : number :=
  (State.birdY s - Birb.HEIGHT / Num.ofZ 2)%num.

Definition hitTopHalf (s : State.t) (p : Pipe.t) : bool :=
  (birdTop s <? gapTop p)%num.
Definition outsideGap (s : State.t) (p : Pipe.t) : bool :=
  ((birdTop s <? gapTop p) || (birdBottom s >? gapBottom p))%num.
Definition collided (s : State.t) (p : Pipe.t) : bool :=
  overlapsX p && outsideGap s p.
Definition passedNow (s : State.t) (p : Pipe.t) : bool :=
  (birdLeft >? pipeRight p)%num && negb (outsideGap s p).

Module Acc.
Record t : Type := mk {
  score : number;
  lives : number;
  vy : number;
  rngSeed : number;
  invulnUntilTick : number;
  gameEnd : bool;
  lostLifeThisTick : bool;
  pipes : list Pipe.t
}.
End Acc.

Definition start (s : State.t) : Acc.t :=
  {| Acc.score := State.score s;
     Acc.lives := State.lives s;
     Acc.vy := State.birdVY s;
     Acc.rngSeed := State.rngSeed s;
     Acc.invulnUntilTick := State.invulnUntil s;
     Acc.gameEnd := false;
     Acc.lostLifeThisTick := false;
     Acc.pipes := [] |}.

(** The callback of [s.pipes.reduce]. *)
Definition pipeStep (s : State.t) (acc : Acc.t) (p : Pipe.t) : Acc.t :=
  if Pipe.passed p then
    {| Acc.score := Acc.score acc;
       Acc.lives := Acc.lives acc;
       Acc.vy := Acc.vy acc;
       Acc.rngSeed := Acc.rngSeed acc;
       Acc.invulnUntilTick := Acc.invulnUntilTick acc;
       Acc.gameEnd := Acc.gameEnd acc;
       Acc.lostLifeThisTick := Acc.lostLifeThisTick acc;
       Acc.pipes := Acc.pipes acc ++ [p] |}
  else
    let fixedBounceV := if hitTopHalf s p then Num.ofZ 6 else Num.ofZ (-6) in
    let shouldLoseLife := collided s p && negb (Acc.lostLifeThisTick acc) in
    let accLife :=
      if shouldLoseLife then
        {| Acc.score := Acc.score acc;
           Acc.lives := (Acc.lives acc - Num.ofZ 1)%num;
           Acc.vy := Acc.vy acc;
           Acc.rngSeed := Acc.rngSeed acc;
           Acc.invulnUntilTick := Acc.invulnUntilTick acc;
           Acc.gameEnd := (Acc.lives acc - Num.ofZ 1 <=? Num.ofZ 0)%num;
           Acc.lostLifeThisTick := true;
           Acc.pipes := Acc.pipes acc |}
      else acc in
    let rr :=
      if shouldLoseLife then
        randBetween (Acc.rngSeed accLife)
          (if hitTopHalf s p then Num.ofZ 4 else Num.ofZ (-8))
          (if hitTopHalf s p then Num.ofZ 8 else Num.ofZ (-4))
      else
        {| RandBetween.v := Acc.vy accLife;
           RandBetween.seed := Acc.rngSeed accLife |} in
    let accBounce :=
      if collided s p then
        {| Acc.score := Acc.score accLife;
           Acc.lives := Acc.lives accLife;
           Acc.vy := if shouldLoseLife then RandBetween.v rr else fixedBounceV;
           Acc.rngSeed := RandBetween.seed rr;
           Acc.invulnUntilTick := Acc.invulnUntilTick accLife;
           Acc.gameEnd := Acc.gameEnd accLife;
           Acc.lostLifeThisTick := Acc.lostLifeThisTick accLife;
           Acc.pipes := Acc.pipes accLife |}
      else accLife in
    let passed := passedNow s p in
    let pipes := Acc.pipes accBounce ++ [if passed then markPassed p else p] in
    let score :=
      (Acc.score accBounce + (if passed then Num.ofZ 1 else Num.ofZ 0))%num in
    {| Acc.score := score;
       Acc.lives := Acc.lives accBounce;
       Acc.vy := Acc.vy accBounce;
       Acc.rngSeed := Acc.rngSeed accBounce;
       Acc.invulnUntilTick := Acc.invulnUntilTick accBounce;
       Acc.gameEnd := Acc.gameEnd accBounce;
       Acc.lostLifeThisTick := Acc.lostLifeThisTick accBounce;
       Acc.pipes := pipes |}.

Definition afterPipes (s : State.t) : Acc.t :=
  fold_left (pipeStep s) (State.pipes s) (start s).

Definition canLoseLife (s : State.t) (acc : Acc.t) : bool :=
  (State.tickCount s >=? Acc.invulnUntilTick acc)%num
  && negb (Acc.lostLifeThisTick acc).

(** What both world-bound branches return, up to the bounce range. *)
Definition worldHit (s : State.t) (acc : Acc.t) (min max : number) : Acc.t :=
  let lives :=
    if canLoseLife s acc then (Acc.lives acc - Num.ofZ 1)%num
    else Acc.lives acc in
  let gameEnd :=
    if canLoseLife s acc && (lives <=? Num.ofZ 0)%num then true
    else Acc.gameEnd acc in
  let invulnUntilTick :=
    if canLoseLife s acc then (State.tickCount s + INVULN_TICKS)%num
    else Acc.invulnUntilTick acc in
  let rr := randBetween (Acc.rngSeed acc) min max in
  {| Acc.score := Acc.score acc;
     Acc.lives := lives;
     Acc.vy := RandBetween.v rr;
     Acc.rngSeed := RandBetween.seed rr;
     Acc.invulnUntilTick := invulnUntilTick;
     Acc.gameEnd := gameEnd;
     Acc.lostLifeThisTick := Acc.lostLifeThisTick acc;
     Acc.pipes := Acc.pipes acc |}.

Definition touchesTop (s : State.t) : bool :=
  (birdTop s <=? Num.ofZ 0)%num.
Definition touchesBottom (s : State.t) : bool :=
  (birdBottom s >=? Viewport.CANVAS_HEIGHT)%num.

Definition world (s : State.t) (acc : Acc.t) : Acc.t :=
  if Acc.gameEnd acc then acc
  else if touchesTop s then worldHit s acc (Num.ofZ 4) (Num.ofZ 8)
  else if touchesBottom s then worldHit s acc (Num.ofZ (-8)) (Num.ofZ (-4))
  else acc.

Definition checkPipes (s : State.t) : State.t :=
  match State.pipes s with
  | [] =>
      {| State.birdY := State.birdY s;
         State.birdVY := State.birdVY s;
         State.pipes := State.pipes s;
         State.lives := State.lives s;
         State.score := State.score s;
         State.gameEnd := true;
         State.paused := State.paused s;
         State.rngSeed := State.rngSeed s;
         State.tickCount := State.tickCount s;
         State.invulnUntil := State.invulnUntil s;
         State.ghosts := State.ghosts s |}
  | _ :: _ =>
      let w := world s (afterPipes s) in
      {| State.birdY := State.birdY s;
         State.birdVY := Acc.vy w;
         State.pipes := Acc.pipes w;
         State.lives := Acc.lives w;
         State.score := Acc.score w;
         State.gameEnd := Acc.gameEnd w;
         State.paused := State.paused s;
         State.rngSeed := Acc.rngSeed w;
         State.tickCount := State.tickCount s;
         State.invulnUntil := Acc.invulnUntilTick w;
         State.ghosts := State.ghosts s |}
  end.

Definition restartGame (s : State.t) (pipes : list Pipe.t) : State.t :=
  {| State.birdY := State.birdY initialState;
     State.birdVY := State.birdVY initialState;
     State.pipes := pipes;
     State.lives := State.lives initialState;
     State.score := State.score initialState;
     State.gameEnd := State.gameEnd initialState;
     State.paused := State.paused initialState;
     State.rngSeed := State.rngSeed initialState;
     State.tickCount := State.tickCount initialState;
     State.invulnUntil := State.invulnUntil initialState;
     State.ghosts := State.ghosts initialState |}.

Definition tick (s : State.t) : State.t :=
  if State.gameEnd s || State.paused s then s
  else
    let advanced := movePipes (moveBird s) in
    let afterCollisions := checkPipes advanced in
    {| State.birdY := State.birdY afterCollisions;
       State.birdVY := State.birdVY afterCollisions;
       State.pipes := State.pipes afterCollisions;
       State.lives := State.lives afterCollisions;
       State.score := State.score afterCollisions;
       State.gameEnd := State.gameEnd afterCollisions;
       State.paused := State.paused afterCollisions;
       State.rngSeed := State.rngSeed afterCollisions;
       State.tickCount := (State.tickCount s + Num.ofZ 1)%num;
       State.invulnUntil := State.invulnUntil afterCollisions;
       State.ghosts := State.ghosts afterCollisions |}.

(** *** Vocabulary of the statements *)

(** What the [reduce] callback appends for pipe [p]. *)
Definition stepPipe (s : State.t) (p : Pipe.t) : Pipe.t :=
  if Pipe.passed p then p
  else if passedNow s p then markPassed p else p.

Definition hits (s : State.t) (p : Pipe.t) : bool :=
  negb (Pipe.passed p) && collided s p.

Definition colliding (s : State.t) : list Pipe.t :=
  filter (hits s) (State.pipes s).

Definition noCollision (s : State.t) : bool :=
  forallb (fun p => negb (hits s p)) (State.pipes s).

Definition touchesWorld (s : State.t) : bool :=
  touchesTop s || touchesBottom s.

(** The world-bounds branch of [checkPipes] is reached and takes a life. *)
Definition worldDeductsLife (s : State.t) : bool :=
  match State.pipes s with
  | [] => false
  | _ :: _ =>
      negb (Acc.gameEnd (afterPipes s))
      && touchesWorld s
      && canLoseLife s (afterPipes s)
  end.

Definition running (s : State.t) : bool :=
  negb (State.gameEnd s || State.paused s).

(** The counters of [s] are the whole numbers [L], [S], [T] and [I],
    and these are small enough for the arithmetic of one tick to be
    exact: [L], [T + 15] and [I] are below [2^53], and so is [S] plus
    the number of pipes that can still be scored. *)
Definition wholeCounters (s : State.t) (L S T I : Z) : Prop :=
  State.lives s = Num.ofZ L
  /\ State.score s = Num.ofZ S
  /\ State.tickCount s = Num.ofZ T
  /\ State.invulnUntil s = Num.ofZ I
  /\ 0 <= L < 2 ^ 53
  /\ 0 <= S
  /\ S + Z.of_nat (List.length (unpassed (State.pipes s))) < 2 ^ 53
  /\ 0 <= T
  /\ T + 15 < 2 ^ 53
  /\ 0 <= I < 2 ^ 53.

End Js.

(** The state of [Js] that has the counters of [s] as numbers. *)
Definition embed (s : State.t) : Js.State.t :=
  {| Js.State.birdY := State.birdY s;
     Js.State.birdVY := State.birdVY s;
     Js.State.pipes := State.pipes s;
     Js.State.lives := Num.ofZ (State.lives s);
     Js.State.score := Num.ofZ (State.score s);
     Js.State.gameEnd := State.gameEnd s;
     Js.State.paused := State.paused s;
     Js.State.rngSeed := State.rngSeed s;
     Js.State.tickCount := Num.ofZ (State.tickCount s);
     Js.State.invulnUntil := Num.ofZ (State.invulnUntil s);
     Js.State.ghosts := State.ghosts s |}.

Definition embedAcc (acc : Acc.t) : Js.Acc.t :=
  {| Js.Acc.score := Num.ofZ (Acc.score acc);
     Js.Acc.lives := Num.ofZ (Acc.lives acc);
     Js.Acc.vy := Acc.vy acc;
     Js.Acc.rngSeed := Acc.rngSeed acc;
     Js.Acc.invulnUntilTick := Num.ofZ (Acc.invulnUntilTick acc);
     Js.Acc.gameEnd := Acc.gameEnd acc;
     Js.Acc.lostLifeThisTick := Acc.lostLifeThisTick acc;
     Js.Acc.pipes := Acc.pipes acc |}.

(** The state with the fields of [js] and the counters [L], [S], [T],
    [I] in [Z]. *)
Definition wholeView (js : Js.State.t) (L S T I : Z) : State.t :=
  {| State.birdY := Js.State.birdY js;
     State.birdVY := Js.State.birdVY js;
     State.pipes := Js.State.pipes js;
     State.lives := L;
     State.score := S;
     State.gameEnd := Js.State.gameEnd js;
     State.paused := Js.State.paused js;
     State.rngSeed := Js.State.rngSeed js;
     State.tickCount := T;
     State.invulnUntil := I;
     State.ghosts := Js.State.ghosts js |}.

(** The counters of a state in [Z] are in the range where one tick is
    exact. *)
Definition exactCounters (s : State.t) : Prop :=
  0 <= State.lives s < 2 ^ 53
  /\ 0 <= State.score s
  /\ State.score s + Z.of_nat (List.length (unpassed (State.pipes s))) < 2 ^ 53
  /\ 0 <= State.tickCount s
  /\ State.tickCount s + 15 < 2 ^ 53
  /\ 0 <= State.invulnUntil s < 2 ^ 53.

(** *** Sample states with large counters *)

Definition jsState (y vy : number) (ps : list Pipe.t)
    (lives score tickCount invulnUntil : number) : Js.State.t :=
  {| Js.State.birdY := y;
     Js.State.birdVY := vy;
     Js.State.pipes := ps;
     Js.State.lives := lives;
     Js.State.score := score;
     Js.State.gameEnd := false;
     Js.State.paused := false;
     Js.State.rngSeed := Num.ofZ 1;
     Js.State.tickCount := tickCount;
     Js.State.invulnUntil := invulnUntil;
     Js.State.ghosts := [] |}.

(** [crowdedState] with [2^53 + 2] lives. *)
Definition hugeLivesState : Js.State.t :=
  jsState (Num.ofZ 10) (Num.ofZ 0) [pipeAtBird 200; pipeAtBird 240]
    (Num.ofZ 9007199254740994) (Num.ofZ 0) (Num.ofZ 0) (Num.ofZ 0).

(** The bird touches the top of the world at tick [2^53 - 14]. *)
Definition lateTickState : Js.State.t :=
  jsState (Num.ofZ 10) (Num.ofZ 0) [mkPipe]
    (Num.ofZ 3) (Num.ofZ 0) (Num.ofZ 9007199254740978) (Num.ofZ 0).

(** Fourteen ticks later the bird touches the top again; [invulnUntil]
    is what [checkPipes] returned for [lateTickState]. *)
Definition lateNextState : Js.State.t :=
  jsState (Num.ofZ 10) (Num.ofZ 0) [mkPipe]
    (Num.ofZ 2) (Num.ofZ 0) (Num.ofZ 9007199254740992)
    (Js.State.invulnUntil (Js.checkPipes lateTickState)).

(** The bird flies through the gap of a pipe behind it, with a score of
    [2^53]. *)
Definition fullScoreState : Js.State.t :=
  jsState (Num.ofZ 200) (Num.ofZ 0) [pipeBehind]
    (Num.ofZ 3) (Num.ofZ 9007199254740992) (Num.ofZ 0) (Num.ofZ 0).

(** *** [movePipes], pipe by pipe *)

(** The callback of [map] in [movePipes], and its [filter] seen from
    the pipe before the move. *)
Definition shiftPipe (p : Pipe.t) : Pipe.t :=
  {| Pipe.x := (Pipe.x p - Physics.PIPE_SPEED)%num;
     Pipe.gapY := Pipe.gapY p;
     Pipe.gapHeight := Pipe.gapHeight p;
     Pipe.passed := Pipe.passed p |}.

Definition staysOnScreen (p : Pipe.t) : bool :=
  (Pipe.x (shiftPipe p) + Constants.PIPE_WIDTH >? Num.ofZ 0)%num.

(** ** Games with input

    [played layout n s]: the reducer fold of the state stream reaches
    [s] from the layout, by ticks, key presses and ghost replay in any
    order, and [n] ticks have advanced the game since the last
    restart.  A tick on a paused or ended game does not count. *)

Inductive played (layout : list Pipe.t) : nat -> State.t -> Prop :=
| played_base s0 : played layout 0 (restartGame s0 layout)
| played_restart n s : played layout n s -> played layout 0 (restartR layout s)
| played_tick n s :
    played layout n s ->
    played layout (if running s then S n else n) (tick s)
| played_flap n s : played layout n s -> played layout n (flapR s)
| played_pause n s : played layout n s -> played layout n (togglePauseR s)
| played_reset n s : played layout n s -> played layout n (resetGhostsR s)
| played_activate id n s :
    played layout n s -> played layout n (activateGhostR id s)
| played_frame id y n s :
    played layout n s -> played layout n (ghostFrameR id y s)
| played_deactivate id n s :
    played layout n s -> played layout n (deactivateGhostR id s).

Definition twoSecondRow : number * number * Z :=
  (Num.ofDec 5 (-1), Num.ofDec 5 (-1), 2).


(** * Properties *)

(** ** Binary64 arithmetic

    Facts about the rounding functions of [SpecFloat]: what a shift
    keeps, when rounding is exact, and which shapes a rounded result
    can take. *)

Lemma digits2_pos_log2 p : Zpos (digits2_pos p) = Z.log2 (Zpos p) + 1.
Proof.
  induction p as [p IH|p IH|]; cbn [digits2_pos]; [| |reflexivity];
    rewrite Pos2Z.inj_succ, IH.
  - rewrite Pos2Z.inj_xI, Z.log2_succ_double by lia. lia.
  - rewrite Pos2Z.inj_xO, Z.log2_double by lia. lia.
Qed.

Lemma Zdigits2_log2 z : 0 < z -> Zdigits2 z = Z.log2 z + 1.
Proof. destruct z; try lia. intros _. apply digits2_pos_log2. Qed.

Lemma log2_bounds z k : 0 <= k -> 2 ^ k <= z < 2 ^ (k + 1) -> Z.log2 z = k.
Proof. intros Hk H. apply Z.log2_unique; [exact Hk|]. now rewrite <- Z.add_1_r. Qed.

Lemma log2_lt_pow2 z k : 0 < z -> 0 <= k -> (z < 2 ^ k <-> Z.log2 z < k).
Proof. intros. apply Z.log2_lt_pow2. lia. Qed.

Lemma iter_xO m d : Zpos (Pos.iter xO m d) = Zpos m * 2 ^ Zpos d.
Proof.
  induction d as [|d IH] using Pos.peano_ind.
  - simpl. lia.
  - rewrite Pos.iter_succ, Pos2Z.inj_xO, IH, Pos2Z.inj_succ, Z.pow_succ_r by lia.
    lia.
Qed.

Lemma shl_align_fst m e e' :
  e' <= e -> Zpos (fst (shl_align m e e')) = Zpos m * 2 ^ (e - e').
Proof.
  intros H. unfold shl_align.
  destruct (e' - e) as [|d|d] eqn:E; try lia.
  - replace (e - e') with 0 by lia. simpl. lia.
  - simpl fst. rewrite iter_xO. f_equal. f_equal. lia.
Qed.

Lemma shl_align_snd m e e' :
  e' <= e -> snd (shl_align m e e') = e'.
Proof.
  intros H. unfold shl_align.
  destruct (e' - e) as [|d|d] eqn:E; simpl; lia.
Qed.

Lemma shl_align_ge m e e' : e <= e' -> shl_align m e e' = (m, e).
Proof.
  intros H. unfold shl_align.
  destruct (e' - e) as [|d|d] eqn:E; try reflexivity. lia.
Qed.

(** shr *)
Lemma shr_1_m r : 0 <= shr_m r -> shr_m (shr_1 r) = shr_m r / 2.
Proof.
  destruct r as [m r s]. cbn [shr_m]. intros H.
  destruct m as [|[p|p|]|p]; cbn [shr_1 shr_m]; try lia; try reflexivity.
  - rewrite Pos2Z.inj_xI. rewrite Z.mul_comm, Z.div_add_l by lia.
    change (1 / 2) with 0. lia.
  - rewrite Pos2Z.inj_xO. rewrite Z.mul_comm, Z.div_mul by lia. reflexivity.
Qed.

Lemma pow2_xI p : 2 ^ Z.pos p~1 = 2 * (2 ^ Z.pos p * 2 ^ Z.pos p).
Proof.
  replace (Z.pos p~1) with (1 + Z.pos p + Z.pos p) by lia.
  rewrite !Z.pow_add_r by lia. lia.
Qed.

Lemma pow2_xO p : 2 ^ Z.pos p~0 = 2 ^ Z.pos p * 2 ^ Z.pos p.
Proof.
  replace (Z.pos p~0) with (Z.pos p + Z.pos p) by lia.
  now rewrite Z.pow_add_r by lia.
Qed.

Lemma shr_iter_m p : forall r, 0 <= shr_m r ->
  shr_m (iter_pos shr_1 p r) = shr_m r / 2 ^ Zpos p.
Proof.
  induction p as [p IH|p IH|]; intros r H; cbn [iter_pos].
  - assert (H1 : 0 <= shr_m (shr_1 r)) by (rewrite shr_1_m by lia; apply Z.div_pos; lia).
    assert (H2 : 0 <= shr_m (iter_pos shr_1 p (shr_1 r)))
      by (rewrite IH by lia; apply Z.div_pos; lia).
    rewrite IH, IH, shr_1_m by lia.
    rewrite !Z.div_div by lia. now rewrite pow2_xI.
  - assert (H2 : 0 <= shr_m (iter_pos shr_1 p r))
      by (rewrite IH by lia; apply Z.div_pos; lia).
    rewrite IH, IH by lia.
    rewrite !Z.div_div by lia. now rewrite pow2_xO.
  - rewrite shr_1_m by lia. reflexivity.
Qed.

(** Exact shift: nothing is lost when the bits shifted out are zero. *)
Lemma shr_1_exact m :
  0 <= m -> m mod 2 = 0 ->
  shr_1 (Build_shr_record m false false) = Build_shr_record (m / 2) false false.
Proof.
  intros H E.
  destruct m as [|[p|p|]|p]; cbn [shr_1 orb]; try lia; try reflexivity.
  - rewrite Pos2Z.inj_xI in E. rewrite Z.add_comm, Z.mul_comm, Z.mod_add in E by lia.
    discriminate E.
  - f_equal. rewrite Pos2Z.inj_xO, Z.mul_comm, Z.div_mul by lia. reflexivity.
  - discriminate E.
Qed.

Lemma shr_iter_exact p : forall m,
  0 <= m -> m mod 2 ^ Zpos p = 0 ->
  iter_pos shr_1 p (Build_shr_record m false false)
  = Build_shr_record (m / 2 ^ Zpos p) false false.
Proof.
  induction p as [p IH|p IH|]; intros m H E; cbn [iter_pos].
  - rewrite pow2_xI in E |- *.
    assert (P : 0 < 2 ^ Z.pos p) by (apply Z.pow_pos_nonneg; lia).
    apply Z.mod_divide in E; [|lia]. destruct E as [k ->].
    rewrite shr_1_exact; [| lia |].
    2:{ replace (k * (2 * (2 ^ Z.pos p * 2 ^ Z.pos p))) with ((k * 2 ^ Z.pos p * 2 ^ Z.pos p) * 2) by lia.
        apply Z.mod_mul. lia. }
    replace (k * (2 * (2 ^ Z.pos p * 2 ^ Z.pos p)) / 2) with (k * 2 ^ Z.pos p * 2 ^ Z.pos p).
    2:{ replace (k * (2 * (2 ^ Z.pos p * 2 ^ Z.pos p))) with ((k * 2 ^ Z.pos p * 2 ^ Z.pos p) * 2) by lia.
        now rewrite Z.div_mul by lia. }
    assert (K : 0 <= k) by nia.
    rewrite IH; [| nia | apply Z.mod_mul; lia].
    rewrite Z.div_mul by lia.
    rewrite IH; [| nia | apply Z.mod_mul; lia].
    rewrite Z.div_mul by lia.
    f_equal. symmetry. apply Z.div_mul. lia.
  - rewrite pow2_xO in E |- *.
    assert (P : 0 < 2 ^ Z.pos p) by (apply Z.pow_pos_nonneg; lia).
    apply Z.mod_divide in E; [|lia]. destruct E as [k ->].
    assert (K : 0 <= k) by nia.
    replace (k * (2 ^ Z.pos p * 2 ^ Z.pos p)) with (k * 2 ^ Z.pos p * 2 ^ Z.pos p) by lia.
    rewrite IH; [| nia | apply Z.mod_mul; lia].
    rewrite Z.div_mul by lia.
    rewrite IH; [| nia | apply Z.mod_mul; lia].
    rewrite Z.div_mul by lia.
    f_equal. symmetry.
    replace (k * 2 ^ Z.pos p * 2 ^ Z.pos p) with (k * (2 ^ Z.pos p * 2 ^ Z.pos p)) by lia.
    apply Z.div_mul. lia.
  - change (2 ^ 1) with 2 in *. now apply shr_1_exact.
Qed.


Lemma fexp_eq x : fexp x = Z.max (x - 53) (-1074).
Proof. reflexivity. Qed.

Lemma shr_nonpos r e n : n <= 0 -> shr r e n = (r, e).
Proof. destruct n; try reflexivity. lia. Qed.

Lemma shr_pos r e n :
  0 < n -> 0 <= shr_m r ->
  snd (shr r e n) = e + n /\ shr_m (fst (shr r e n)) = shr_m r / 2 ^ n.
Proof.
  destruct n as [|p|p]; try lia. intros _ H. cbn [shr fst snd].
  split; [reflexivity|]. now apply shr_iter_m.
Qed.

Lemma shr_exact m e n :
  0 <= n -> 0 <= m -> m mod 2 ^ n = 0 ->
  shr (Build_shr_record m false false) e n
  = (Build_shr_record (m / 2 ^ n) false false, e + n).
Proof.
  destruct n as [|p|p]; try lia; intros _ H E; cbn [shr].
  - now rewrite Z.div_1_r, Z.add_0_r.
  - now rewrite shr_iter_exact.
Qed.

Lemma shr_fexp_exact m e :
  0 < m ->
  0 <= fexp (Z.log2 m + 1 + e) - e ->
  m mod 2 ^ (fexp (Z.log2 m + 1 + e) - e) = 0 ->
  shr_fexp Num.prec Num.emax m e loc_Exact
  = (Build_shr_record (m / 2 ^ (fexp (Z.log2 m + 1 + e) - e)) false false,
     fexp (Z.log2 m + 1 + e)).
Proof.
  intros Hm Hn E. unfold shr_fexp. rewrite Zdigits2_log2 by exact Hm.
  cbn [shr_record_of_loc]. rewrite shr_exact by lia.
  f_equal. lia.
Qed.

(** Rounding a mantissa whose low bits are zero loses nothing. *)
Lemma binary_round_aux_exact s m e :
  0 < m ->
  0 <= fexp (Z.log2 m + 1 + e) - e ->
  m mod 2 ^ (fexp (Z.log2 m + 1 + e) - e) = 0 ->
  fexp (Z.log2 m + 1 + e) <= 971 ->
  binary_round_aux Num.prec Num.emax s m e loc_Exact
  = S754_finite s (Z.to_pos (m / 2 ^ (fexp (Z.log2 m + 1 + e) - e)))
      (fexp (Z.log2 m + 1 + e)).
Proof.
  intros Hm Hn E Hmax.
  set (e1 := fexp (Z.log2 m + 1 + e)) in *.
  set (n := e1 - e) in *.
  assert (P : 0 < 2 ^ n) by (apply Z.pow_pos_nonneg; lia).
  apply Z.mod_divide in E; [|lia]. destruct E as [k K].
  assert (Hk : 0 < k) by nia.
  assert (D : m / 2 ^ n = k) by (rewrite K; apply Z.div_mul; lia).
  assert (L : Z.log2 m = n + Z.log2 k)
    by (rewrite K; apply Z.log2_mul_pow2; lia).
  unfold binary_round_aux.
  rewrite shr_fexp_exact; fold e1; fold n; try lia.
  2:{ rewrite K. apply Z.mod_mul. lia. }
  cbn [shr_m loc_of_shr_record round_nearest_even]. rewrite D.
  assert (E1 : fexp (Z.log2 k + 1 + e1) = e1).
  { unfold e1 at 2. f_equal. lia. }
  rewrite shr_fexp_exact; rewrite ?E1, ?Z.sub_diag; try lia.
  2:{ apply Z.mod_1_r. }
  cbn [shr_m]. rewrite Z.div_1_r.
  destruct k as [|k|k]; try lia.
  replace (e1 <=? Num.emax - Num.prec) with true by (symmetry; apply Z.leb_le; exact Hmax).
  reflexivity.
Qed.

Lemma round_nearest_even_bounds m l :
  m <= round_nearest_even m l <= m + 1.
Proof.
  destruct l as [|[| |]]; cbn [round_nearest_even]; try lia.
  destruct (Z.even m); lia.
Qed.

Lemma shr_record_of_loc_m m l : shr_m (shr_record_of_loc m l) = m.
Proof. now destruct l as [|[| |]]. Qed.

(** After [shr_fexp] the mantissa is below [2^53]. *)
Lemma shr_fexp_bounded m e r e' :
  0 <= m -> shr_fexp Num.prec Num.emax m e loc_Exact = (r, e') ->
  0 <= shr_m r < 2 ^ 53 /\ shr_m r <= m.
Proof.
  intros Hm. unfold shr_fexp. cbn [shr_record_of_loc].
  destruct (Z.eq_dec m 0) as [->|Hz].
  { cbn [Zdigits2]. unfold shr.
    destruct (fexp (0 + e) - e) as [|p|p]; intros [= <- <-]; cbn [shr_m]; try lia.
    rewrite shr_iter_m by (cbn; lia). cbn [shr_m]. rewrite Z.div_0_l; [lia|].
    apply Z.pow_nonzero; lia. }
  rewrite Zdigits2_log2 by lia.
  set (n := fexp (Z.log2 m + 1 + e) - e).
  destruct (Z_lt_le_dec 0 n) as [Hn|Hn].
  - intros E.
    destruct (shr_pos (Build_shr_record m false false) e n Hn) as [_ M];
      [cbn; lia|].
    rewrite E in M. cbn [fst shr_m] in M. rewrite M.
    assert (P : 0 < 2 ^ n) by (apply Z.pow_pos_nonneg; lia).
    split; [split|].
    + apply Z.div_pos; lia.
    + apply Z.div_lt_upper_bound; [lia|].
      rewrite <- Z.pow_add_r by lia.
      apply Z.log2_lt_pow2; [lia|].
      unfold n. rewrite fexp_eq. lia.
    + apply Z.div_le_upper_bound; [lia|]. nia.
  - rewrite shr_nonpos by lia. intros [= <- <-]. cbn [shr_m].
    split; [split|]; try lia.
    apply Z.log2_lt_pow2; [lia|].
    unfold n in Hn. rewrite fexp_eq in Hn. lia.
Qed.

Lemma shr_fexp_nonneg m e l :
  0 <= m -> 0 <= shr_m (fst (shr_fexp Num.prec Num.emax m e l)).
Proof.
  intros Hm. unfold shr_fexp.
  set (n := fexp (Zdigits2 m + e) - e).
  destruct (Z_lt_le_dec 0 n) as [Hn|Hn].
  - destruct (shr_pos (shr_record_of_loc m l) e n Hn) as [_ M];
      [rewrite shr_record_of_loc_m; lia|].
    rewrite M, shr_record_of_loc_m. apply Z.div_pos; [lia|].
    apply Z.pow_pos_nonneg; lia.
  - rewrite shr_nonpos by lia. cbn [fst]. now rewrite shr_record_of_loc_m.
Qed.

Lemma binary_round_aux_rounded s m e l :
  0 <= m -> rounded s (binary_round_aux Num.prec Num.emax s m e l).
Proof.
  intros Hm. unfold binary_round_aux.
  pose proof (shr_fexp_nonneg m e l Hm) as N1.
  destruct (shr_fexp Num.prec Num.emax m e l) as [r1 e1]. cbn [fst] in N1.
  pose proof (round_nearest_even_bounds (shr_m r1) (loc_of_shr_record r1)) as B.
  set (m2 := round_nearest_even (shr_m r1) (loc_of_shr_record r1)) in *.
  destruct (shr_fexp Num.prec Num.emax m2 e1 loc_Exact) as [r2 e2] eqn:E2.
  apply shr_fexp_bounded in E2; [|lia].
  destruct (shr_m r2) as [|p|p]; try lia.
  - constructor.
  - destruct (e2 <=? Num.emax - Num.prec) eqn:L.
    + constructor; [lia|]. apply Z.leb_le in L. exact L.
    + constructor.
Qed.

Lemma binary_round_rounded s m e : rounded s (binary_round Num.prec Num.emax s m e).
Proof.
  unfold binary_round.
  destruct (shl_align m e (fexp (Z.pos (digits2_pos m) + e))) as [mz ez].
  apply binary_round_aux_rounded. lia.
Qed.

Lemma log2_below_53 v : 0 < v < 2 ^ 53 -> 0 <= Z.log2 v <= 52.
Proof.
  intros H. split; [apply Z.log2_nonneg|].
  enough (Z.log2 v < 53) by lia. apply Z.log2_lt_pow2; lia.
Qed.

Lemma binary_round_aux_canon s v k :
  0 < v < 2 ^ 53 -> 52 - Z.log2 v <= k ->
  binary_round_aux Num.prec Num.emax s (v * 2 ^ k) (- k) loc_Exact = canonZ s v.
Proof.
  intros Hv Hk. pose proof (log2_below_53 v Hv) as L.
  assert (P : 0 < 2 ^ k) by (apply Z.pow_pos_nonneg; lia).
  assert (Lm : Z.log2 (v * 2 ^ k) = k + Z.log2 v)
    by (apply Z.log2_mul_pow2; lia).
  assert (F : fexp (Z.log2 (v * 2 ^ k) + 1 + - k) = Z.log2 v - 52)
    by (rewrite Lm, fexp_eq; lia).
  assert (S : v * 2 ^ k
              = v * 2 ^ (52 - Z.log2 v) * 2 ^ (Z.log2 v - 52 - - k)).
  { rewrite <- Z.mul_assoc, <- Z.pow_add_r by lia. do 2 f_equal. lia. }
  rewrite binary_round_aux_exact; rewrite ?F; try nia; try lia.
  - unfold canonZ. do 2 f_equal. rewrite S at 1. apply Z.div_mul.
    apply Z.pow_nonzero; lia.
  - rewrite S. apply Z.mod_mul. apply Z.pow_nonzero; lia.
Qed.

Lemma binary_round_canon s v k :
  0 < v < 2 ^ 53 -> 0 <= k ->
  binary_round Num.prec Num.emax s (Z.to_pos (v * 2 ^ k)) (- k) = canonZ s v.
Proof.
  intros Hv Hk. pose proof (log2_below_53 v Hv) as L.
  assert (P : 0 < 2 ^ k) by (apply Z.pow_pos_nonneg; lia).
  assert (Pm : 0 < v * 2 ^ k) by nia.
  assert (Lm : Z.log2 (v * 2 ^ k) = k + Z.log2 v)
    by (apply Z.log2_mul_pow2; lia).
  unfold binary_round.
  rewrite digits2_pos_log2, Z2Pos.id, Lm by exact Pm.
  replace (fexp (k + Z.log2 v + 1 + - k)) with (Z.log2 v - 52)
    by (rewrite fexp_eq; lia).
  destruct (Z_lt_le_dec (Z.log2 v - 52) (- k)) as [H|H].
  - pose proof (shl_align_fst (Z.to_pos (v * 2 ^ k)) (- k) (Z.log2 v - 52)) as A.
    pose proof (shl_align_snd (Z.to_pos (v * 2 ^ k)) (- k) (Z.log2 v - 52)) as B.
    destruct (shl_align _ _ _) as [mz ez]. cbn [fst snd] in A, B.
    rewrite A, B, Z2Pos.id by lia.
    rewrite <- Z.mul_assoc, <- Z.pow_add_r by lia.
    replace (k + (- k - (Z.log2 v - 52))) with (52 - Z.log2 v) by lia.
    replace (Z.log2 v - 52) with (- (52 - Z.log2 v)) by lia.
    apply binary_round_aux_canon; lia.
  - rewrite shl_align_ge by lia. rewrite Z2Pos.id by exact Pm.
    apply binary_round_aux_canon; lia.
Qed.

Lemma ofZ_canon v : 0 < v < 2 ^ 53 -> Num.ofZ v = canonZ false v.
Proof.
  intros Hv. destruct v as [|p|p]; try lia.
  unfold Num.ofZ, binary_normalize.
  rewrite <- (binary_round_canon false (Z.pos p) 0) by lia.
  change (- 0) with 0. do 2 f_equal. rewrite Z.mul_1_r. reflexivity.
Qed.

Lemma canonZ_mantissa v :
  0 < v < 2 ^ 53 ->
  Zpos (Z.to_pos (v * 2 ^ (52 - Z.log2 v))) = v * 2 ^ (52 - Z.log2 v).
Proof.
  intros Hv. pose proof (log2_below_53 v Hv).
  apply Z2Pos.id. apply Z.mul_pos_pos; [lia|]. apply Z.pow_pos_nonneg; lia.
Qed.

Lemma mul_canon a b :
  0 < a -> 0 < b -> a * b < 2 ^ 53 ->
  SFmul Num.prec Num.emax (canonZ false a) (canonZ false b) = canonZ false (a * b).
Proof.
  intros Ha Hb H.
  assert (Ha' : 0 < a < 2 ^ 53) by nia.
  assert (Hb' : 0 < b < 2 ^ 53) by nia.
  pose proof (log2_below_53 a Ha') as La.
  pose proof (log2_below_53 b Hb') as Lb.
  assert (Hab : 0 < a * b < 2 ^ 53) by nia.
  pose proof (log2_below_53 _ Hab) as Lab.
  assert (Lle : Z.log2 a <= Z.log2 (a * b)) by (apply Z.log2_le_mono; nia).
  unfold canonZ at 1 2. cbn [SFmul xorb].
  rewrite Pos2Z.inj_mul, !canonZ_mantissa by assumption.
  replace (a * 2 ^ (52 - Z.log2 a) * (b * 2 ^ (52 - Z.log2 b)))
    with (a * b * 2 ^ (52 - Z.log2 a + (52 - Z.log2 b)))
    by (rewrite Z.pow_add_r by lia; ring).
  replace (Z.log2 a - 52 + (Z.log2 b - 52))
    with (- (52 - Z.log2 a + (52 - Z.log2 b))) by lia.
  apply binary_round_aux_canon; lia.
Qed.

Lemma add_canon a b :
  0 < a -> 0 < b -> a + b < 2 ^ 53 ->
  SFadd Num.prec Num.emax (canonZ false a) (canonZ false b) = canonZ false (a + b).
Proof.
  intros Ha Hb H.
  assert (Ha' : 0 < a < 2 ^ 53) by lia.
  assert (Hb' : 0 < b < 2 ^ 53) by lia.
  pose proof (log2_below_53 a Ha') as La.
  pose proof (log2_below_53 b Hb') as Lb.
  unfold canonZ at 1 2. cbn [SFadd cond_Zopp].
  set (ez := Z.min (Z.log2 a - 52) (Z.log2 b - 52)).
  rewrite !shl_align_fst, !canonZ_mantissa by (assumption || lia).
  rewrite <- !Z.mul_assoc, <- !Z.pow_add_r by lia.
  replace (52 - Z.log2 a + (Z.log2 a - 52 - ez)) with (- ez) by lia.
  replace (52 - Z.log2 b + (Z.log2 b - 52 - ez)) with (- ez) by lia.
  rewrite <- Z.mul_add_distr_r.
  assert (P : 0 < 2 ^ (- ez)) by (apply Z.pow_pos_nonneg; lia).
  assert (Q : 0 < (a + b) * 2 ^ (- ez)) by nia.
  destruct ((a + b) * 2 ^ (- ez)) as [|p|p] eqn:E; try lia.
  cbn [binary_normalize].
  replace p with (Z.to_pos ((a + b) * 2 ^ (- ez))) by (rewrite E; reflexivity).
  replace ez with (- (- ez)) at 2 by lia.
  apply binary_round_canon; lia.
Qed.


Lemma ofZ_0 : Num.ofZ 0 = S754_zero false.
Proof. reflexivity. Qed.

Lemma rem_canon a b :
  0 < a < 2 ^ 53 -> 0 < b < 2 ^ 53 ->
  Num.rem (canonZ false a) (canonZ false b) = Num.ofZ (a mod b).
Proof.
  intros Ha Hb.
  pose proof (log2_below_53 a Ha) as La.
  pose proof (log2_below_53 b Hb) as Lb.
  unfold canonZ at 1 2. cbn [Num.rem].
  set (ez := Z.min (Z.log2 a - 52) (Z.log2 b - 52)).
  rewrite !shl_align_fst, !canonZ_mantissa by (assumption || lia).
  rewrite <- !Z.mul_assoc, <- !Z.pow_add_r by lia.
  replace (52 - Z.log2 a + (Z.log2 a - 52 - ez)) with (- ez) by lia.
  replace (52 - Z.log2 b + (Z.log2 b - 52 - ez)) with (- ez) by lia.
  assert (P : 0 < 2 ^ (- ez)) by (apply Z.pow_pos_nonneg; lia).
  rewrite Z.mul_mod_distr_r by lia.
  pose proof (Z.mod_pos_bound a b ltac:(lia)) as R.
  destruct (Z.eq_dec (a mod b) 0) as [E0|E0].
  - rewrite E0. reflexivity.
  - assert (Q : 0 < a mod b * 2 ^ (- ez)) by nia.
    destruct (a mod b * 2 ^ (- ez)) as [|p|p] eqn:E; try lia.
    replace p with (Z.to_pos (a mod b * 2 ^ (- ez))) by (rewrite E; reflexivity).
    replace ez with (- (- ez)) at 2 by lia.
    rewrite binary_round_canon, ofZ_canon by lia. reflexivity.
Qed.

(** Rounding to nearest keeps a mantissa of 53 bits between its
    truncation and the next integer. *)
Lemma binary_round_aux_near s m e :
  0 < m ->
  0 < fexp (Z.log2 m + 1 + e) - e ->
  2 ^ 52 <= m / 2 ^ (fexp (Z.log2 m + 1 + e) - e) ->
  m / 2 ^ (fexp (Z.log2 m + 1 + e) - e) + 1 < 2 ^ 53 ->
  -1074 <= fexp (Z.log2 m + 1 + e) <= 971 ->
  exists m2 : positive,
    binary_round_aux Num.prec Num.emax s m e loc_Exact
    = S754_finite s m2 (fexp (Z.log2 m + 1 + e))
    /\ m / 2 ^ (fexp (Z.log2 m + 1 + e) - e) <= Zpos m2.
Proof.
  intros Hm Hn Lo Hi He.
  set (e1 := fexp (Z.log2 m + 1 + e)) in *.
  set (n := e1 - e) in *.
  unfold binary_round_aux, shr_fexp at 1.
  rewrite Zdigits2_log2 by exact Hm. fold e1. fold n.
  destruct (shr_pos (shr_record_of_loc m loc_Exact) e n Hn) as [S1 M1];
    [cbn; lia|].
  destruct (shr (shr_record_of_loc m loc_Exact) e n) as [r1 e'].
  cbn [fst snd] in S1, M1. cbn [shr_record_of_loc shr_m] in M1. subst e'.
  pose proof (round_nearest_even_bounds (shr_m r1) (loc_of_shr_record r1)) as B.
  set (m2 := round_nearest_even (shr_m r1) (loc_of_shr_record r1)) in *.
  rewrite M1 in B.
  assert (L2 : Z.log2 m2 = 52) by (apply log2_bounds; lia).
  replace (e + n) with e1 by (unfold n; lia).
  rewrite shr_fexp_exact; rewrite ?L2; try lia.
  - replace (fexp (52 + 1 + e1) - e1) with 0 by (rewrite fexp_eq; lia).
    cbn [shr_m]. rewrite Z.div_1_r.
    destruct m2 as [|p|p]; try lia.
    replace (fexp (52 + 1 + e1) <=? Num.emax - Num.prec) with true
      by (symmetry; apply Z.leb_le; rewrite fexp_eq; unfold Num.emax, Num.prec; lia).
    exists p. split; [|lia]. f_equal. rewrite fexp_eq. lia.
  - rewrite fexp_eq. lia.
  - replace (fexp (52 + 1 + e1) - e1) with 0 by (rewrite fexp_eq; lia).
    apply Z.mod_1_r.
Qed.

(** A positive mantissa at an exponent within range is never rounded
    to zero. *)
Lemma shr_fexp_pos m e l r e' :
  0 < m -> -1074 <= e ->
  shr_fexp Num.prec Num.emax m e l = (r, e') ->
  0 < shr_m r /\ -1074 <= e'.
Proof.
  intros Hm He. unfold shr_fexp. rewrite Zdigits2_log2 by exact Hm.
  set (n := fexp (Z.log2 m + 1 + e) - e).
  pose proof (Z.log2_spec m Hm) as [L _].
  pose proof (Z.log2_nonneg m) as L0.
  destruct (Z_lt_le_dec 0 n) as [Hn|Hn].
  - intros E.
    destruct (shr_pos (shr_record_of_loc m l) e n Hn) as [S1 M1];
      [rewrite shr_record_of_loc_m; lia|].
    rewrite E in S1, M1. cbn [fst snd] in S1, M1.
    rewrite shr_record_of_loc_m in M1. rewrite M1, S1.
    assert (N : n = Z.log2 m - 52) by (unfold n in *; rewrite fexp_eq in *; lia).
    split; [|lia].
    apply Z.div_str_pos. split; [apply Z.pow_pos_nonneg; lia|].
    apply Z.le_trans with (2 ^ Z.log2 m); [|exact L].
    apply Z.pow_le_mono_r; lia.
  - rewrite shr_nonpos by lia. intros [= <- <-].
    rewrite shr_record_of_loc_m. lia.
Qed.

Lemma binary_round_aux_nonzero s m e l s' :
  0 < m -> -1074 <= e ->
  binary_round_aux Num.prec Num.emax s m e l <> S754_zero s'.
Proof.
  intros Hm He. unfold binary_round_aux.
  destruct (shr_fexp Num.prec Num.emax m e l) as [r1 e1] eqn:E1.
  apply shr_fexp_pos in E1 as [P1 B1]; [|lia|lia].
  pose proof (round_nearest_even_bounds (shr_m r1) (loc_of_shr_record r1)) as B.
  destruct (shr_fexp Num.prec Num.emax _ e1 loc_Exact) as [r2 e2] eqn:E2.
  apply shr_fexp_pos in E2 as [P2 B2]; [|lia|lia].
  destruct (shr_m r2) as [|p|p]; try lia.
  destruct (e2 <=? Num.emax - Num.prec); discriminate.
Qed.

Lemma binary_round_nonzero s m e s' :
  -1074 <= e -> binary_round Num.prec Num.emax s m e <> S754_zero s'.
Proof.
  intros He. unfold binary_round.
  set (t := fexp (Z.pos (digits2_pos m) + e)).
  assert (Ht : -1074 <= t) by (unfold t; rewrite fexp_eq; lia).
  destruct (Z_lt_le_dec t e) as [H|H].
  - pose proof (shl_align_snd m e t ltac:(lia)) as B.
    destruct (shl_align m e t) as [mz ez]. cbn [snd] in B. subst ez.
    apply binary_round_aux_nonzero; lia.
  - rewrite shl_align_ge by lia. apply binary_round_aux_nonzero; lia.
Qed.

(** ** The random number generator *)

(** While [a * seed + c] stays below [2^53] no operation of [hash]
    rounds. *)
Lemma hash_exact (seed : Z) :
  0 <= seed -> 1103515245 * seed + 12345 < 2 ^ 53 ->
  RNG.hash (Num.ofZ seed)
  = Num.ofZ ((1103515245 * seed + 12345) mod 2 ^ 31).
Proof.
  intros H0 H.
  destruct (Z.eq_dec seed 0) as [->|Hz]; [vm_compute; reflexivity|].
  unfold RNG.hash, RNG.a, RNG.c, RNG.m.
  rewrite !ofZ_canon by lia.
  unfold Num.mul, Num.add.
  rewrite mul_canon, add_canon by lia.
  rewrite rem_canon by lia. reflexivity.
Qed.

(** C3, as amended.  For a non-negative integer seed with
    [1103515245 * seed + 12345 < 2^53], [hash] returns the exact value
    of the linear congruential recurrence; [randBetween] hands back
    that hash as the next seed and is a function of its arguments. *)
Theorem hash_exact_below_2_53 :
  (forall seed : Z,
     0 <= seed -> 1103515245 * seed + 12345 < 2 ^ 53 ->
     RNG.hash (Num.ofZ seed)
     = Num.ofZ ((1103515245 * seed + 12345) mod 2 ^ 31))
  /\ (forall seed min max : number,
        RandBetween.seed (randBetween seed min max) = RNG.hash seed
        /\ forall r1 r2 : RandBetween.t,
             r1 = randBetween seed min max ->
             r2 = randBetween seed min max -> r1 = r2).
Proof.
  split.
  - exact hash_exact.
  - intros seed min max. split; [reflexivity|]. intros r1 r2 -> ->. reflexivity.
Qed.

Lemma hash_exact_below_2_53_witness :
  RNG.hash (Num.ofZ 123) = Num.ofZ 440917656.
Proof.
  change 440917656 with ((1103515245 * 123 + 12345) mod 2 ^ 31).
  apply (proj1 hash_exact_below_2_53); lia.
Defined.

(** Against C3 as stated.  At the seed of the initial state the
    product exceeds [2^53] and is rounded: [hash] returns 231794736 where the recurrence gives
    231794730. *)
Lemma hash_rounds_at_initial_seed :
  0 <= 123456789 < 2 ^ 31
  /\ State.rngSeed initialState = Num.ofZ 123456789
  /\ RNG.hash (Num.ofZ 123456789) = Num.ofZ 231794736
  /\ (1103515245 * 123456789 + 12345) mod 2 ^ 31 = 231794730
  /\ (RNG.hash (Num.ofZ 123456789)
      =? Num.ofZ ((1103515245 * 123456789 + 12345) mod 2 ^ 31))%num = false
  /\ RNG.hash (Num.ofZ 123456789)
     <> Num.ofZ ((1103515245 * 123456789 + 12345) mod 2 ^ 31).
Proof.
  split; [lia|]. split; [reflexivity|].
  split; [vm_compute; reflexivity|]. split; [reflexivity|].
  split; [vm_compute; reflexivity|].
  vm_compute. intros E. discriminate E.
Qed.

(** ** Gravity and clamping *)

(** Adding a non-negative amount of at most about 10 to 400 gives at
    least 400. *)
Lemma add_400_lower m1 e1 :
  Zpos m1 < 2 ^ 53 -> e1 <= -49 ->
  exists m2 : positive,
    (Viewport.CANVAS_HEIGHT + S754_finite false m1 e1)%num
    = S754_finite false m2 (-44)
    /\ 7036874417766400 <= Zpos m2.
Proof.
  intros Hm He.
  change Viewport.CANVAS_HEIGHT with (S754_finite false 7036874417766400 (-44)).
  unfold Num.add. cbn [SFadd cond_Zopp].
  replace (Z.min (-44) e1) with e1 by lia.
  rewrite shl_align_fst by lia.
  rewrite (shl_align_ge m1 e1 e1) by lia. cbn [fst].
  set (k := -44 - e1).
  assert (Hk : 5 <= k) by (unfold k; lia).
  assert (T : 2 ^ 5 * 2 ^ (k - 5) = 2 ^ k)
    by (rewrite <- Z.pow_add_r by lia; f_equal; lia).
  assert (P : 0 < 2 ^ (k - 5)) by (apply Z.pow_pos_nonneg; lia).
  set (M := 7036874417766400 * 2 ^ k + Z.pos m1).
  assert (HM : 7036874417766400 * 2 ^ k <= M < 7318349394477056 * 2 ^ k)
    by (unfold M; lia).
  assert (LM : Z.log2 M = 52 + k).
  { apply log2_bounds; [lia|].
    rewrite !Z.pow_add_r by lia. lia. }
  assert (F : fexp (Z.log2 M + 1 + e1) = -44)
    by (rewrite LM, fexp_eq; unfold k; lia).
  assert (D : 7036874417766400 <= M / 2 ^ k < 7318349394477056).
  { split.
    - apply Z.div_le_lower_bound; lia.
    - apply Z.div_lt_upper_bound; lia. }
  destruct M as [|p|p] eqn:EM; try lia.
  cbn [binary_normalize]. unfold binary_round.
  rewrite digits2_pos_log2, LM.
  replace (fexp (52 + k + 1 + e1)) with (-44) by (rewrite fexp_eq; unfold k; lia).
  rewrite shl_align_ge by lia.
  destruct (binary_round_aux_near false (Z.pos p) e1) as (m2 & E & B);
    rewrite ?F; fold k; try lia.
  rewrite F in E, B. exists m2. split; [exact E | fold k in B; lia].
Qed.

(** The sum of two positive numbers is a rounded positive number. *)
Lemma add_pos_rounded m1 e1 m2 e2 :
  rounded false (S754_finite false m1 e1 + S754_finite false m2 e2)%num.
Proof.
  unfold Num.add. cbn [SFadd cond_Zopp].
  destruct (Z.pos _ + Z.pos _) as [|p|p] eqn:E; try lia.
  apply binary_round_rounded.
Qed.

(** A binary64 number at most -0.5 plus 0.5 is +0, or is negative. *)
Lemma add_half_nonpos m e :
  Num.valid (S754_finite true m e) = true ->
  (S754_finite true m e <=? Num.ofDec (-5) (-1))%num = true ->
  (S754_finite true m e + Physics.GRAVITY)%num = S754_zero false
  \/ (S754_finite true m e + Physics.GRAVITY)%num = S754_infinity true
  \/ exists m' e',
       (S754_finite true m e + Physics.GRAVITY)%num = S754_finite true m' e'.
Proof.
  intros V L.
  change Physics.GRAVITY with (S754_finite false 4503599627370496 (-53)).
  change (Num.ofDec (-5) (-1)) with (S754_finite true 4503599627370496 (-53)) in L.
  unfold Num.leb, SFleb in L. cbn [SFcompare] in L.
  unfold Num.valid, valid_binary, bounded, canonical_mantissa in V.
  apply andb_true_iff in V as [V _]. apply Z.eqb_eq in V.
  rewrite digits2_pos_log2, fexp_eq in V.
  assert (X : 4503599627370496 <= Z.pos m * 2 ^ (e + 53) /\ -53 <= e).
  { destruct (Z.compare_spec e (-53)) as [E|E|E]; try discriminate L.
    - subst e. split; [|lia]. change (2 ^ (-53 + 53)) with 1.
      destruct (Pos.compare_cont Eq m 4503599627370496) eqn:C;
        try discriminate L.
      + apply Pos.compare_eq in C. subst m. lia.
      + apply Pos.compare_gt_iff in C. lia.
    - split; [|lia].
      assert (L2 : Z.log2 (Z.pos m) = 52) by lia.
      pose proof (Z.log2_spec (Z.pos m) ltac:(lia)) as [Lo _].
      rewrite L2 in Lo.
      assert (P : 1 <= 2 ^ (e + 53)) by (apply Z.lt_pred_le, Z.pow_pos_nonneg; lia).
      change (2 ^ 52) with 4503599627370496 in Lo. nia. }
  destruct X as [X E].
  unfold Num.add. cbn [SFadd cond_Zopp].
  replace (Z.min e (-53)) with (-53) by lia.
  rewrite shl_align_fst by lia.
  rewrite (shl_align_ge 4503599627370496 (-53) (-53)) by lia. cbn [fst].
  replace (e - -53) with (e + 53) by lia.
  destruct (- (Z.pos m * 2 ^ (e + 53)) + 4503599627370496) as [|p|p] eqn:S;
    try lia.
  - left. reflexivity.
  - right. cbn [binary_normalize].
    pose proof (binary_round_rounded true p (-53)) as R.
    pose proof (binary_round_nonzero true p (-53) true ltac:(lia)) as NZ.
    inversion R as [Z0|I0|m' e' Hm He F0].
    + rewrite <- Z0 in NZ. contradiction.
    + left. reflexivity.
    + right. now exists m', e'.
Qed.

(** C2, as amended.  In a game that has not ended: a bird at [birdY = 0]
    whose velocity is at most -0.5 stays at 0 with velocity 0, and a
    bird at [birdY = 400] with a positive velocity is put at 385 with
    velocity 0.  An ended game is returned as it is. *)
Theorem moveBird_clamps (s : State.t) :
  (State.gameEnd s = false ->
   ((State.birdY s =? Num.ofZ 0)%num = true ->
    Num.valid (State.birdVY s) = true ->
    (State.birdVY s <=? Num.ofDec (-5) (-1))%num = true ->
    State.birdY (moveBird s) = Num.ofZ 0
    /\ State.birdVY (moveBird s) = Num.ofZ 0)
   /\ (State.birdY s = Viewport.CANVAS_HEIGHT ->
       (State.birdVY s >? Num.ofZ 0)%num = true ->
       State.birdY (moveBird s) = Num.ofZ 385
       /\ State.birdVY (moveBird s) = Num.ofZ 0))
  /\ (State.gameEnd s = true -> moveBird s = s).
Proof.
  split; [|unfold moveBird; now intros ->].
  intros Hrun. unfold moveBird. rewrite Hrun.
  cbn [State.birdY State.birdVY]. split.
  - intros Hy Hval Hle.
    change (Num.ofZ 0) with (S754_zero false) in Hy.
    unfold Num.eqb, SFeqb in Hy.
    pose proof Hle as Hle'.
    change (Num.ofDec (-5) (-1))
      with (S754_finite true 4503599627370496 (-53)) in Hle'.
    unfold Num.leb, SFleb in Hle'.
    destruct (State.birdY s) as [sy|sy| |sy my ey]; cbn [SFcompare] in Hy;
      [ | destruct sy; discriminate Hy | discriminate Hy
        | destruct sy; discriminate Hy ].
    destruct (State.birdVY s) as [sv|sv| |sv mv ev]; cbn [SFcompare] in Hle';
      [ discriminate Hle' | | discriminate Hle' | ].
    + destruct sv; [|discriminate Hle'].
      destruct sy; vm_compute; split; reflexivity.
    + destruct sv; [|discriminate Hle'].
      destruct (add_half_nonpos mv ev Hval Hle) as [E|[E|(m' & e' & E)]];
        rewrite E; destruct sy; vm_compute; split; reflexivity.
  - intros Hy Hgt. rewrite Hy.
    change (Num.ofZ 0) with (S754_zero false) in Hgt.
    unfold Num.gtb, Num.ltb, SFltb in Hgt.
    destruct (State.birdVY s) as [sv|sv| |sv mv ev]; cbn [SFcompare] in Hgt;
      [ discriminate Hgt | | discriminate Hgt | ].
    + destruct sv; [discriminate Hgt|]. vm_compute; split; reflexivity.
    + destruct sv; [discriminate Hgt|].
      pose proof (add_pos_rounded mv ev 4503599627370496 (-53)) as R.
      change (S754_finite false 4503599627370496 (-53))
        with Physics.GRAVITY in R.
      destruct (S754_finite false mv ev + Physics.GRAVITY)%num
        as [s1|s1| |s1 m1 e1] eqn:E; inversion R; subst.
      * vm_compute; split; reflexivity.
      * vm_compute; split; reflexivity.
      * destruct (S754_finite false m1 e1 >? Physics.MAX_VELOCITY)%num eqn:G.
        { vm_compute; split; reflexivity. }
        assert (He : e1 <= -49).
        { unfold Num.gtb, Num.ltb, SFltb in G.
          change Physics.MAX_VELOCITY
            with (S754_finite false 5629499534213120 (-49)) in G.
          cbn [SFcompare] in G.
          destruct (Z.compare_spec (-49) e1) as [C|C|C];
            [lia | discriminate G | lia]. }
        destruct (add_400_lower m1 e1) as (m2 & A & B); [assumption|exact He|].
        rewrite A.
        change (Viewport.CANVAS_HEIGHT - Birb.HEIGHT / Num.ofZ 2)%num
          with (S754_finite false 6772991627100160 (-44)).
        assert (C : (S754_finite false 6772991627100160 (-44)
                     <? S754_finite false m2 (-44))%num = true).
        { unfold Num.ltb, SFltb. cbn [SFcompare Z.compare].
          replace (Pos.compare_cont Eq 6772991627100160 m2) with Lt;
            [reflexivity|].
          symmetry. apply Pos.compare_lt_iff. lia. }
        rewrite C. cbn. split; reflexivity.
Qed.

Lemma moveBird_clamps_witness :
  (State.birdY (moveBird risingState) = Num.ofZ 0
   /\ State.birdVY (moveBird risingState) = Num.ofZ 0)
  /\ (State.birdY (moveBird fallingState) = Num.ofZ 385
      /\ State.birdVY (moveBird fallingState) = Num.ofZ 0).
Proof.
  split.
  - apply (proj1 (proj1 (moveBird_clamps risingState) eq_refl));
      vm_compute; reflexivity.
  - apply (proj2 (proj1 (moveBird_clamps fallingState) eq_refl));
      vm_compute; reflexivity.
Defined.

(** Against C2 as stated.  At [birdY = 0] with velocity -0.25 gravity
    wins: the bird moves to 0.25 with velocity 0.25.  In an ended game
    [moveBird] returns its argument, so the bird stays at 400 with its
    velocity. *)
Lemma moveBird_not_clamped :
  (State.birdY hoverState = Num.ofZ 0
   /\ (State.birdVY hoverState <? Num.ofZ 0)%num = true
   /\ State.birdY (moveBird hoverState) = Num.ofDec 25 (-2)
   /\ State.birdVY (moveBird hoverState) = Num.ofDec 25 (-2)
   /\ (State.birdY (moveBird hoverState) =? Num.ofZ 0)%num = false
   /\ (State.birdVY (moveBird hoverState) =? Num.ofZ 0)%num = false)
  /\ (State.birdY endedState = Viewport.CANVAS_HEIGHT
      /\ (State.birdVY endedState >? Num.ofZ 0)%num = true
      /\ moveBird endedState = endedState
      /\ (State.birdY (moveBird endedState) =? Num.ofZ 385)%num = false
      /\ (State.birdVY (moveBird endedState) =? Num.ofZ 0)%num = false).
Proof. vm_compute. repeat split; reflexivity. Qed.

(** ** The fold over the pipes *)

Section PipeFold.

Variable s : State.t.

(** Case analysis on one step of the callback. *)
Ltac step_cases acc p :=
  destruct acc as [sc lv v sd inv ge lost ps];
  unfold pipeStep, stepPipe, hits; simpl;
  destruct (Pipe.passed p); simpl;
  [| destruct (collided s p), lost, (passedNow s p); simpl ].

Lemma pipeStep_pipes acc p :
  Acc.pipes (pipeStep s acc p) = Acc.pipes acc ++ [stepPipe s p].
Proof. step_cases acc p; reflexivity. Qed.

Lemma pipeStep_score acc p :
  Acc.score (pipeStep s acc p)
  = Acc.score acc
    + (if negb (Pipe.passed p) && passedNow s p then 1 else 0).
Proof. step_cases acc p; lia. Qed.

Lemma pipeStep_lost acc p :
  Acc.lostLifeThisTick (pipeStep s acc p)
  = Acc.lostLifeThisTick acc || hits s p.
Proof. step_cases acc p; try reflexivity. now rewrite orb_false_r. Qed.

Lemma pipeStep_lives acc p :
  Acc.lives (pipeStep s acc p)
  = Acc.lives acc
    - (if hits s p && negb (Acc.lostLifeThisTick acc) then 1 else 0).
Proof. step_cases acc p; lia. Qed.

Lemma pipeStep_gameEnd acc p :
  Acc.gameEnd (pipeStep s acc p)
  = if hits s p && negb (Acc.lostLifeThisTick acc)
    then Acc.lives acc - 1 <=? 0 else Acc.gameEnd acc.
Proof. step_cases acc p; reflexivity. Qed.

Lemma pipeStep_invuln acc p :
  Acc.invulnUntilTick (pipeStep s acc p) = Acc.invulnUntilTick acc.
Proof. step_cases acc p; reflexivity. Qed.

(** The fold, field by field. *)

Lemma fold_pipes ps : forall acc,
  Acc.pipes (fold_left (pipeStep s) ps acc)
  = Acc.pipes acc ++ map (stepPipe s) ps.
Proof.
  induction ps as [|p ps IH]; intros acc; simpl.
  - now rewrite app_nil_r.
  - rewrite IH, pipeStep_pipes, <- app_assoc. reflexivity.
Qed.

Lemma fold_score ps : forall acc,
  Acc.score (fold_left (pipeStep s) ps acc)
  = Acc.score acc
    + Z.of_nat
        (List.length
           (filter (fun p => negb (Pipe.passed p) && passedNow s p) ps)).
Proof.
  induction ps as [|p ps IH]; intros acc; simpl.
  - lia.
  - rewrite IH, pipeStep_score.
    destruct (negb (Pipe.passed p) && passedNow s p); simpl List.length; lia.
Qed.

Lemma fold_lost ps : forall acc,
  Acc.lostLifeThisTick (fold_left (pipeStep s) ps acc)
  = Acc.lostLifeThisTick acc || existsb (hits s) ps.
Proof.
  induction ps as [|p ps IH]; intros acc; simpl.
  - now rewrite orb_false_r.
  - rewrite IH, pipeStep_lost, orb_assoc. reflexivity.
Qed.

Lemma fold_lives ps : forall acc,
  Acc.lives (fold_left (pipeStep s) ps acc)
  = Acc.lives acc
    - (if existsb (hits s) ps && negb (Acc.lostLifeThisTick acc)
       then 1 else 0).
Proof.
  induction ps as [|p ps IH]; intros acc; simpl.
  - lia.
  - rewrite IH, pipeStep_lives, pipeStep_lost.
    destruct (hits s p), (Acc.lostLifeThisTick acc), (existsb (hits s) ps);
      simpl; lia.
Qed.

Lemma fold_gameEnd ps : forall acc,
  Acc.gameEnd (fold_left (pipeStep s) ps acc)
  = if existsb (hits s) ps && negb (Acc.lostLifeThisTick acc)
    then Acc.lives acc - 1 <=? 0 else Acc.gameEnd acc.
Proof.
  induction ps as [|p ps IH]; intros acc; simpl.
  - reflexivity.
  - rewrite IH, pipeStep_gameEnd, pipeStep_lost, pipeStep_lives.
    destruct (hits s p), (Acc.lostLifeThisTick acc), (existsb (hits s) ps);
      simpl; try reflexivity.
    now rewrite Z.sub_0_r.
Qed.

Lemma fold_invuln ps : forall acc,
  Acc.invulnUntilTick (fold_left (pipeStep s) ps acc)
  = Acc.invulnUntilTick acc.
Proof.
  induction ps as [|p ps IH]; intros acc; simpl.
  - reflexivity.
  - now rewrite IH, pipeStep_invuln.
Qed.

(** [afterPipes], field by field. *)

Lemma afterPipes_pipes :
  Acc.pipes (afterPipes s) = map (stepPipe s) (State.pipes s).
Proof. unfold afterPipes. now rewrite fold_pipes. Qed.

Lemma afterPipes_lost :
  Acc.lostLifeThisTick (afterPipes s) = existsb (hits s) (State.pipes s).
Proof. unfold afterPipes. now rewrite fold_lost. Qed.

Lemma afterPipes_lives :
  Acc.lives (afterPipes s)
  = State.lives s - (if existsb (hits s) (State.pipes s) then 1 else 0).
Proof.
  unfold afterPipes. rewrite fold_lives. simpl.
  now rewrite andb_true_r.
Qed.

Lemma afterPipes_gameEnd :
  Acc.gameEnd (afterPipes s)
  = existsb (hits s) (State.pipes s) && (State.lives s - 1 <=? 0).
Proof.
  unfold afterPipes. rewrite fold_gameEnd. simpl.
  rewrite andb_true_r. now destruct (existsb (hits s) (State.pipes s)).
Qed.

Lemma afterPipes_invuln :
  Acc.invulnUntilTick (afterPipes s) = State.invulnUntil s.
Proof. unfold afterPipes. now rewrite fold_invuln. Qed.

Lemma afterPipes_score :
  Acc.score (afterPipes s)
  = State.score s
    + Z.of_nat
        (List.length
           (filter (fun p => negb (Pipe.passed p) && passedNow s p)
              (State.pipes s))).
Proof. unfold afterPipes. now rewrite fold_score. Qed.

(** The world-bounds step keeps the pipes and the score. *)

Lemma world_pipes acc : Acc.pipes (world s acc) = Acc.pipes acc.
Proof.
  unfold world, worldHit.
  destruct (Acc.gameEnd acc), (touchesTop s), (touchesBottom s); reflexivity.
Qed.

Lemma world_score acc : Acc.score (world s acc) = Acc.score acc.
Proof.
  unfold world, worldHit.
  destruct (Acc.gameEnd acc), (touchesTop s), (touchesBottom s); reflexivity.
Qed.

Lemma world_lives acc :
  Acc.lives (world s acc)
  = Acc.lives acc
    - (if negb (Acc.gameEnd acc) && touchesWorld s && canLoseLife s acc
       then 1 else 0).
Proof.
  unfold world, worldHit, touchesWorld.
  destruct (Acc.gameEnd acc), (touchesTop s), (touchesBottom s),
    (canLoseLife s acc); simpl; lia.
Qed.

Lemma world_invuln acc :
  Acc.invulnUntilTick (world s acc)
  = if negb (Acc.gameEnd acc) && touchesWorld s && canLoseLife s acc
    then State.tickCount s + INVULN_TICKS
    else Acc.invulnUntilTick acc.
Proof.
  unfold world, worldHit, touchesWorld.
  destruct (Acc.gameEnd acc), (touchesTop s), (touchesBottom s),
    (canLoseLife s acc); reflexivity.
Qed.

End PipeFold.

Lemma existsb_hits_colliding s :
  existsb (hits s) (State.pipes s) = negb (Nat.eqb (List.length (colliding s)) 0).
Proof.
  unfold colliding.
  induction (State.pipes s) as [|p ps IH]; simpl; [reflexivity|].
  destruct (hits s p); simpl; [reflexivity | exact IH].
Qed.

Lemma noCollision_existsb s :
  noCollision s = negb (existsb (hits s) (State.pipes s)).
Proof.
  unfold noCollision.
  induction (State.pipes s) as [|p ps IH]; simpl; [reflexivity|].
  rewrite IH. now destruct (hits s p).
Qed.

(** [checkPipes], field by field. *)

Lemma checkPipes_lives s :
  State.lives (checkPipes s)
  = match State.pipes s with
    | [] => State.lives s
    | _ :: _ => Acc.lives (world s (afterPipes s))
    end.
Proof. unfold checkPipes. now destruct (State.pipes s). Qed.

Lemma checkPipes_pipes s :
  State.pipes (checkPipes s) = map (stepPipe s) (State.pipes s).
Proof.
  unfold checkPipes. destruct (State.pipes s) as [|p ps] eqn:E; [reflexivity|].
  simpl State.pipes. now rewrite world_pipes, afterPipes_pipes, E.
Qed.

Lemma checkPipes_score s :
  State.score (checkPipes s)
  = State.score s
    + Z.of_nat
        (List.length
           (filter (fun p => negb (Pipe.passed p) && passedNow s p)
              (State.pipes s))).
Proof.
  unfold checkPipes. destruct (State.pipes s) as [|p ps] eqn:E.
  - simpl. lia.
  - simpl State.score. now rewrite world_score, afterPipes_score, E.
Qed.

Lemma checkPipes_invulnUntil s :
  State.invulnUntil (checkPipes s)
  = match State.pipes s with
    | [] => State.invulnUntil s
    | _ :: _ => Acc.invulnUntilTick (world s (afterPipes s))
    end.
Proof. unfold checkPipes. now destruct (State.pipes s). Qed.

(** When the world bounds take a life no pipe was hit, the bird touches
    a bound, and the invulnerability window is over. *)
Lemma worldDeductsLife_spec s :
  worldDeductsLife s
  = negb (Nat.eqb (List.length (State.pipes s)) 0)
    && noCollision s && touchesWorld s
    && (State.invulnUntil s <=? State.tickCount s).
Proof.
  unfold worldDeductsLife, canLoseLife.
  rewrite afterPipes_gameEnd, afterPipes_lost, afterPipes_invuln,
    noCollision_existsb.
  destruct (State.pipes s) as [|p ps]; [reflexivity|].
  generalize (existsb (hits s) (p :: ps)); intros b.
  simpl List.length; simpl Nat.eqb; simpl negb.
  destruct b, (touchesWorld s), (State.invulnUntil s <=? State.tickCount s),
    (State.lives s - 1 <=? 0); reflexivity.
Qed.

(** The lives after [checkPipes]: one is taken by the first pipe hit,
    otherwise one may be taken by the world bounds. *)
Lemma checkPipes_lives_eq s :
  State.lives (checkPipes s)
  = State.lives s
    - (if existsb (hits s) (State.pipes s) then 1
       else if worldDeductsLife s then 1 else 0).
Proof.
  rewrite checkPipes_lives. unfold worldDeductsLife.
  destruct (State.pipes s) as [|p ps] eqn:E; [simpl; lia|].
  rewrite world_lives, afterPipes_lives. unfold canLoseLife.
  rewrite afterPipes_lost, afterPipes_gameEnd, E.
  destruct (existsb (hits s) (p :: ps)); simpl.
  - rewrite !andb_false_r. destruct (State.lives s - 1 <=? 0); simpl; lia.
  - lia.
Qed.

(** ** Lives *)

(** ** Pipes and score *)

Lemma stepPipe_kept s p : pipeKept p (stepPipe s p).
Proof.
  unfold pipeKept, stepPipe.
  destruct (Pipe.passed p) eqn:P; [repeat split; auto|].
  destruct (passedNow s p); simpl; repeat split; auto.
Qed.

Lemma stepPipe_keeps_passed s p :
  Pipe.passed p = true -> stepPipe s p = p.
Proof. unfold stepPipe. now intros ->. Qed.

Lemma newlyPassed_stepPipe s ps :
  newlyPassed ps (map (stepPipe s) ps)
  = Z.of_nat
      (List.length
         (filter (fun p => negb (Pipe.passed p) && passedNow s p) ps)).
Proof.
  unfold newlyPassed. f_equal.
  induction ps as [|p ps IH]; [reflexivity|].
  cbn [map combine filter fst snd].
  assert (E : negb (Pipe.passed p) && Pipe.passed (stepPipe s p)
              = negb (Pipe.passed p) && passedNow s p).
  { unfold stepPipe. destruct (Pipe.passed p) eqn:P; [reflexivity|].
    destruct (passedNow s p); simpl; [reflexivity | exact P]. }
  rewrite E.
  destruct (negb (Pipe.passed p) && passedNow s p); cbn [List.length];
    now rewrite IH.
Qed.

(** C9.  [checkPipes] returns the pipes of its input, as many and in the
    same order, each with the same [x], [gapY] and [gapHeight]; at most
    the [passed] flag of a pipe is raised from false to true. *)
Theorem checkPipes_keeps_pipes (s : State.t) :
  List.length (State.pipes (checkPipes s)) = List.length (State.pipes s)
  /\ Forall2 pipeKept (State.pipes s) (State.pipes (checkPipes s)).
Proof.
  rewrite checkPipes_pipes. split.
  - apply length_map.
  - induction (State.pipes s) as [|p ps IH]; simpl; constructor.
    + apply stepPipe_kept.
    + exact IH.
Qed.

Lemma moveBird_pipes s : State.pipes (moveBird s) = State.pipes s.
Proof. unfold moveBird. now destruct (State.gameEnd s). Qed.

(** ** Input and clock *)

(** C6.  A flap on an ended game changes nothing; on any other state,
    paused or not, it sets [birdVY] to [FLAP_FORCE], that is -5.5, and
    changes no other field. *)
Theorem flap_sets_velocity_unless_ended (s : State.t) :
  (State.gameEnd s = true -> flapR s = s)
  /\ (State.gameEnd s = false -> flapR s = setBirdVY s Physics.FLAP_FORCE)
  /\ (State.gameEnd s = false -> State.paused s = true ->
      State.birdVY (flapR s) = Physics.FLAP_FORCE
      /\ State.paused (flapR s) = true)
  /\ Physics.FLAP_FORCE = (Num.ofZ (-11) / Num.ofZ 2)%num.
Proof.
  unfold flapR, birdFlap. repeat split.
  - now intros ->.
  - now intros ->.
  - now rewrite H.
  - rewrite H. simpl. exact H0.
Qed.

Lemma flap_sets_velocity_unless_ended_witness :
  State.birdVY (flapR pausedState) = Physics.FLAP_FORCE
  /\ State.paused (flapR pausedState) = true.
Proof.
  apply (proj1 (proj2 (proj2 (flap_sets_velocity_unless_ended pausedState))));
    reflexivity.
Defined.

(** C8.  [tick] returns an ended or paused state as it is, [tickCount]
    included. *)
Theorem tick_identity_when_ended_or_paused (s : State.t) :
  State.gameEnd s = true \/ State.paused s = true -> tick s = s.
Proof.
  unfold tick. intros [-> | ->]; [reflexivity|].
  now rewrite orb_true_r.
Qed.

Lemma tick_identity_when_ended_or_paused_witness :
  tick pausedState = pausedState.
Proof.
  apply tick_identity_when_ended_or_paused. right. reflexivity.
Defined.

(** ** The schedule parser *)

(** C7.  The two-row schedule of the tests yields two pipes in row
    order, at x = 1100 and x = 850. *)
Theorem parsePipeCSV_two_rows :
  parsePipeCSV csvTwoRows = [pipeOfZ 1100 200 100; pipeOfZ 850 100 200].
Proof. vm_compute. reflexivity. Qed.

Lemma trimStart_text s : startsWithText s = true -> trimStart s = s.
Proof.
  destruct s as [|c r]; simpl; [discriminate|].
  now destruct (isWhiteSpace c).
Qed.

Lemma trimEnd_app a b :
  trimEnd b <> EmptyString -> trimEnd (a ++ b) = (a ++ trimEnd b)%string.
Proof.
  intros Hb. induction a as [|c a IH]; simpl; [reflexivity|].
  rewrite IH. destruct (a ++ trimEnd b)%string eqn:E; [|reflexivity].
  destruct a; simpl in E; [contradiction | discriminate].
Qed.

Lemma splitLines_app_line h r :
  noLF h = true -> tl (splitLines (h ++ line r)) = splitLines r.
Proof.
  intros H.
  enough (G : exists l, splitLines (h ++ line r) = l :: splitLines r)
    by (destruct G as [l ->]; reflexivity).
  induction h as [|c h IH]; simpl in *.
  - now exists EmptyString.
  - apply andb_true_iff in H as [Hc Hh].
    destruct (IH Hh) as [l E].
    destruct (Ascii.eqb c LF); [discriminate|].
    destruct (Ascii.eqb c CR && startsWithLF (h ++ line r)).
    + now exists l.
    + rewrite E. now exists (String c l).
Qed.

(** C10.  [Number] of the empty string is the finite number 0, so a
    data line made of three empty fields is kept: after any header line
    it yields one pipe with x = 600 and an empty gap at 0. *)
Theorem parsePipeCSV_keeps_empty_fields :
  Number EmptyString = Num.zero
  /\ Num.isFinite (Number EmptyString) = true
  /\ forall header : string,
       noLF header = true ->
       startsWithText header = true ->
       parsePipeCSV (header ++ line ",,") = [pipeOfZ 600 0 0].
Proof.
  split; [reflexivity|]. split; [reflexivity|].
  intros header Hlf Htxt. unfold parsePipeCSV, trim.
  rewrite trimStart_text.
  - rewrite trimEnd_app by (vm_compute; discriminate).
    replace (trimEnd (line ",,")) with (line ",,") by reflexivity.
    rewrite splitLines_app_line by exact Hlf.
    vm_compute. reflexivity.
  - destruct header; [discriminate|exact Htxt].
Qed.

Lemma parsePipeCSV_keeps_empty_fields_witness :
  parsePipeCSV (csvHeader ++ line ",,") = [pipeOfZ 600 0 0].
Proof.
  apply (proj2 (proj2 parsePipeCSV_keeps_empty_fields)); reflexivity.
Defined.

(** A first line of white space only is no header: [trim] removes it
    together with the line feed, and the row that follows is dropped as
    the first line.  The no-break space counts as white space. *)
Lemma parsePipeCSV_blank_header :
  parsePipeCSV (String (ascii_of_N 160) (line ",,")) = []
  /\ parsePipeCSV (String (ascii_of_N 32) (line ",,")) = []
  /\ startsWithText (String (ascii_of_N 160) EmptyString) = false.
Proof. repeat split; vm_compute; reflexivity. Qed.

(** ** The model against the repository's tests *)

Example test_csv_ignores_invalid_lines :
  parsePipeCSV csvWithBadRows = [pipeOfZ 1100 200 100; pipeOfZ 850 100 200].
Proof. vm_compute. reflexivity. Qed.

Example test_collision_loses_a_life_and_bounces :
  State.lives (checkPipes bumpState) = 2
  /\ (State.birdVY (checkPipes bumpState) >=? Num.ofZ 4)%num = true
  /\ (State.birdVY (checkPipes bumpState) <=? Num.ofZ 8)%num = true.
Proof. vm_compute. repeat split; reflexivity. Qed.

Example test_scores_once_when_passing :
  State.score (checkPipes passingState) = 1
  /\ map Pipe.passed (State.pipes (checkPipes passingState)) = [true; true].
Proof. vm_compute. split; reflexivity. Qed.

Example test_tick_moves_and_counts :
  State.tickCount (tick (sampleState (Num.ofZ 100) (Num.ofZ 0) [mkPipe] 0)) = 1
  /\ State.birdY (tick (sampleState (Num.ofZ 100) (Num.ofZ 0) [mkPipe] 0))
     = Num.ofDec 1005 (-1)
  /\ map Pipe.x
       (State.pipes (tick (sampleState (Num.ofZ 100) (Num.ofZ 0) [mkPipe] 0)))
     = [Num.ofZ 695].
Proof. vm_compute. repeat split; reflexivity. Qed.

(** * Further properties of the reducers *)

(** ** [movePipes] *)

(** X2.  [movePipes] keeps only pipes whose right edge is to the right
    of 0, so none with an undefined position; it adds no pipe, and each
    pipe it keeps is a pipe of the input moved left by [PIPE_SPEED] with
    its gap and its [passed] flag.  Nothing but the pipes changes. *)
Theorem movePipes_culls_and_shifts (s : State.t) :
  Forall (fun q => (pipeRight q >? Num.ofZ 0)%num = true /\ Pipe.x q <> Num.NaN)
    (State.pipes (movePipes s))
  /\ (List.length (State.pipes (movePipes s)) <= List.length (State.pipes s))%nat
  /\ (forall q : Pipe.t,
        In q (State.pipes (movePipes s)) ->
        exists p : Pipe.t,
          In p (State.pipes s)
          /\ Pipe.x q = (Pipe.x p - Physics.PIPE_SPEED)%num
          /\ Pipe.gapY q = Pipe.gapY p
          /\ Pipe.gapHeight q = Pipe.gapHeight p
          /\ Pipe.passed q = Pipe.passed p)
  /\ movePipes s = setPipes s (State.pipes (movePipes s)).
Proof.
  unfold movePipes. cbn [State.pipes]. repeat split.
  - apply Forall_forall. intros q H. apply filter_In in H as [_ H].
    split; [exact H|]. intros E. unfold Num.gtb in H.
    rewrite E in H. discriminate H.
  - rewrite <- (length_map
                 (fun p => {| Pipe.x := (Pipe.x p - Physics.PIPE_SPEED)%num;
                              Pipe.gapY := Pipe.gapY p;
                              Pipe.gapHeight := Pipe.gapHeight p;
                              Pipe.passed := Pipe.passed p |})
                 (State.pipes s)).
    apply filter_length_le.
  - intros q H. apply filter_In in H as [H _].
    apply in_map_iff in H as (p & <- & H). exists p. repeat split. exact H.
Qed.

Lemma movePipes_culls_and_shifts_witness :
  exists p : Pipe.t,
    In p (State.pipes sunkState)
    /\ Num.ofZ 695 = (Pipe.x p - Physics.PIPE_SPEED)%num
    /\ Num.ofZ 200 = Pipe.gapY p
    /\ Num.ofZ 100 = Pipe.gapHeight p
    /\ false = Pipe.passed p.
Proof.
  apply (proj1 (proj2 (proj2 (movePipes_culls_and_shifts sunkState)))
           (pipeOfZ 695 200 100)).
  left. vm_compute. reflexivity.
Defined.

(** ** [checkPipes]: end of game, generator, frame *)

Section MoreFold.

Variable s : State.t.

Lemma pipeStep_rngSeed acc p :
  Acc.rngSeed (pipeStep s acc p)
  = if hits s p && negb (Acc.lostLifeThisTick acc)
    then RNG.hash (Acc.rngSeed acc) else Acc.rngSeed acc.
Proof.
  destruct acc as [sc lv v sd inv ge lost ps].
  unfold pipeStep, hits; simpl.
  destruct (Pipe.passed p); simpl; [reflexivity|].
  destruct (collided s p), lost; reflexivity.
Qed.

Lemma pipeStep_vy_miss acc p :
  hits s p = false -> Acc.vy (pipeStep s acc p) = Acc.vy acc.
Proof.
  destruct acc as [sc lv v sd inv ge lost ps].
  unfold pipeStep, hits; simpl.
  destruct (Pipe.passed p); simpl; [reflexivity|].
  destruct (collided s p); [discriminate|]. now destruct lost.
Qed.

Lemma fold_rngSeed ps : forall acc,
  Acc.rngSeed (fold_left (pipeStep s) ps acc)
  = if existsb (hits s) ps && negb (Acc.lostLifeThisTick acc)
    then RNG.hash (Acc.rngSeed acc) else Acc.rngSeed acc.
Proof.
  induction ps as [|p ps IH]; intros acc; simpl; [reflexivity|].
  rewrite IH, pipeStep_rngSeed, pipeStep_lost.
  destruct (hits s p), (Acc.lostLifeThisTick acc), (existsb (hits s) ps);
    reflexivity.
Qed.

Lemma fold_vy_miss ps : forall acc,
  existsb (hits s) ps = false ->
  Acc.vy (fold_left (pipeStep s) ps acc) = Acc.vy acc.
Proof.
  induction ps as [|p ps IH]; intros acc H; simpl in *; [reflexivity|].
  apply orb_false_iff in H as [H1 H2].
  now rewrite IH, pipeStep_vy_miss.
Qed.

Lemma world_rngSeed acc :
  Acc.rngSeed (world s acc)
  = if negb (Acc.gameEnd acc) && touchesWorld s
    then RNG.hash (Acc.rngSeed acc) else Acc.rngSeed acc.
Proof.
  destruct acc as [sc lv v sd inv ge lost ps].
  unfold world, worldHit, touchesWorld. cbn [Acc.gameEnd].
  destruct ge, (touchesTop s), (touchesBottom s); reflexivity.
Qed.

Lemma world_vy_miss acc :
  negb (Acc.gameEnd acc) && touchesWorld s = false ->
  Acc.vy (world s acc) = Acc.vy acc.
Proof.
  destruct acc as [sc lv v sd inv ge lost ps].
  unfold world, worldHit, touchesWorld. cbn [Acc.gameEnd].
  destruct ge, (touchesTop s), (touchesBottom s);
    simpl; intros H; try discriminate H; reflexivity.
Qed.

Lemma world_gameEnd acc :
  Acc.gameEnd (world s acc)
  = Acc.gameEnd acc
    || (touchesWorld s && canLoseLife s acc && (Acc.lives acc - 1 <=? 0)).
Proof.
  destruct acc as [sc lv v sd inv ge lost ps].
  unfold world, worldHit, touchesWorld, canLoseLife. cbn [Acc.gameEnd
    Acc.lives Acc.invulnUntilTick Acc.lostLifeThisTick].
  destruct ge, (touchesTop s), (touchesBottom s),
    ((inv <=? State.tickCount s) && negb lost); cbn; try reflexivity;
    now destruct (lv - 1 <=? 0).
Qed.

End MoreFold.

Lemma checkPipes_gameEnd_facts (s : State.t) :
  (State.pipes s = [] -> checkPipes s = setGameEnd s true)
  /\ (State.pipes s <> [] ->
      State.gameEnd (checkPipes s)
      = (State.lives (checkPipes s) <? State.lives s)
        && (State.lives (checkPipes s) <=? 0)).
Proof.
  split.
  - intros E. unfold checkPipes, setGameEnd. now rewrite E.
  - intros N. rewrite checkPipes_lives_eq.
    unfold checkPipes, worldDeductsLife.
    destruct (State.pipes s) as [|p ps] eqn:E; [contradiction|].
    cbn [State.gameEnd].
    rewrite world_gameEnd, afterPipes_gameEnd. unfold canLoseLife.
    rewrite afterPipes_lost, afterPipes_lives, afterPipes_invuln, E.
    destruct (existsb (hits s) (p :: ps)), (touchesWorld s),
      (State.invulnUntil s <=? State.tickCount s); cbn [negb andb orb];
      repeat match goal with
        | |- context [?a <? ?b] => destruct (Z.ltb_spec a b)
        | |- context [?a <=? ?b] => destruct (Z.leb_spec a b)
        end; cbn [negb andb orb]; try reflexivity; lia.
Qed.

(** X3.  Without pipes [checkPipes] only raises [gameEnd].  With pipes,
    whatever [gameEnd] was before, it is true afterwards exactly when
    this call took a life and no life is left. *)
Theorem checkPipes_gameEnd (s : State.t) :
  (State.pipes s = [] -> checkPipes s = setGameEnd s true)
  /\ (State.pipes s <> [] ->
      State.gameEnd (checkPipes s)
      = (State.lives (checkPipes s) <? State.lives s)
        && (State.lives (checkPipes s) <=? 0)).
Proof. exact (checkPipes_gameEnd_facts s). Qed.

Lemma checkPipes_gameEnd_witness :
  checkPipes endedState = setGameEnd endedState true
  /\ State.gameEnd (checkPipes (setGameEnd crowdedState true)) = false.
Proof.
  split.
  - apply (proj1 (checkPipes_gameEnd endedState)). reflexivity.
  - rewrite (proj2 (checkPipes_gameEnd (setGameEnd crowdedState true)))
      by discriminate.
    vm_compute. reflexivity.
Defined.

Lemma afterPipes_rngSeed s :
  Acc.rngSeed (afterPipes s)
  = if pipeHit s then RNG.hash (State.rngSeed s) else State.rngSeed s.
Proof.
  unfold afterPipes, pipeHit. rewrite fold_rngSeed. cbn.
  now rewrite andb_true_r.
Qed.

Lemma afterPipes_vy_miss s :
  pipeHit s = false -> Acc.vy (afterPipes s) = State.birdVY s.
Proof. intros H. unfold afterPipes. now rewrite fold_vy_miss. Qed.

Lemma checkPipes_frame s :
  State.birdY (checkPipes s) = State.birdY s
  /\ State.paused (checkPipes s) = State.paused s
  /\ State.tickCount (checkPipes s) = State.tickCount s
  /\ State.ghosts (checkPipes s) = State.ghosts s.
Proof.
  unfold checkPipes. destruct (State.pipes s); cbn; repeat split; reflexivity.
Qed.

(** X4.  [checkPipes] advances the seed by one [hash] when a pipe takes
    a life and by one more when the world bounds bounce the bird, and
    not otherwise; when it draws nothing it leaves the velocity as it
    was.  It never changes the bird's height, the pause flag, the tick
    count or the ghosts. *)
Theorem checkPipes_draws (s : State.t) :
  State.rngSeed (checkPipes s) = Nat.iter (draws s) RNG.hash (State.rngSeed s)
  /\ (draws s = 0%nat -> State.birdVY (checkPipes s) = State.birdVY s)
  /\ State.birdY (checkPipes s) = State.birdY s
  /\ State.paused (checkPipes s) = State.paused s
  /\ State.tickCount (checkPipes s) = State.tickCount s
  /\ State.ghosts (checkPipes s) = State.ghosts s.
Proof.
  unfold draws, worldBounce, checkPipes.
  destruct (State.pipes s) as [|p ps] eqn:E.
  - unfold pipeHit. rewrite E. cbn. repeat split; reflexivity.
  - cbn [State.rngSeed State.birdVY State.birdY State.paused State.tickCount
         State.ghosts].
    rewrite world_rngSeed, afterPipes_rngSeed.
    repeat split.
    + destruct (pipeHit s), (negb (Acc.gameEnd (afterPipes s)) && touchesWorld s);
        reflexivity.
    + intros D.
      destruct (pipeHit s) eqn:H; [discriminate D|].
      destruct (negb (Acc.gameEnd (afterPipes s)) && touchesWorld s) eqn:W;
        [discriminate D|].
      rewrite world_vy_miss by exact W. now apply afterPipes_vy_miss.
Qed.

Lemma checkPipes_draws_witness :
  draws passingState = 0%nat
  /\ State.birdVY (checkPipes passingState) = State.birdVY passingState.
Proof.
  assert (D : draws passingState = 0%nat) by (vm_compute; reflexivity).
  split; [exact D|].
  exact (proj1 (proj2 (checkPipes_draws passingState)) D).
Defined.

(** [<] on numbers is asymmetric. *)
Lemma ltb_asym (a b : number) : (a <? b)%num = true -> (b <? a)%num = false.
Proof.
  unfold Num.ltb, SFltb.
  destruct a as [sa|sa| |sa ma ea], b as [sb|sb| |sb mb eb];
    cbn [SFcompare]; try discriminate; try reflexivity;
    try (destruct sa; (discriminate || reflexivity));
    try (destruct sb; (discriminate || reflexivity));
    try (destruct sa, sb; (discriminate || reflexivity)).
  assert (A : Pos.compare_cont Eq mb ma = CompOpp (Pos.compare_cont Eq ma mb))
    by (symmetry; apply (Pos.compare_cont_antisym ma mb Eq)).
  rewrite (Z.compare_antisym ea eb), A.
  destruct sa, sb; try discriminate; try reflexivity;
    destruct (ea ?= eb); cbn [CompOpp]; try discriminate; try reflexivity;
    destruct (Pos.compare_cont Eq ma mb); cbn [CompOpp];
    discriminate || reflexivity.
Qed.

(** X5.  A pipe that the bird hits is not scored in the same call: it
    is handed back as it is.  A pipe is marked passed only when the
    bird is inside its gap and the pipe's right edge is behind the
    bird's left edge, so that the two no longer overlap. *)
Theorem hit_pipe_is_not_scored (s : State.t) (p : Pipe.t) :
  (hits s p = true -> stepPipe s p = p)
  /\ (stepPipe s p <> p ->
      outsideGap s p = false /\ (birdLeft >? pipeRight p)%num = true
      /\ overlapsX p = false).
Proof.
  unfold hits, stepPipe, collided, passedNow.
  destruct (Pipe.passed p); cbn [negb andb].
  - split; [discriminate | intros H; now contradiction H].
  - destruct (outsideGap s p); cbn [negb].
    + rewrite andb_false_r. split; [reflexivity | intros H; now contradiction H].
    + rewrite andb_false_r, andb_true_r. split; [discriminate|].
      destruct (birdLeft >? pipeRight p)%num eqn:G;
        [|intros H; now contradiction H].
      intros _. repeat split.
      unfold overlapsX. apply andb_false_iff. right.
      apply ltb_asym. exact G.
Qed.

Lemma hit_pipe_is_not_scored_witness :
  stepPipe crowdedState (pipeAtBird 200) = pipeAtBird 200
  /\ overlapsX pipeBehind = false.
Proof.
  split.
  - apply (proj1 (hit_pipe_is_not_scored crowdedState (pipeAtBird 200))).
    vm_compute. reflexivity.
  - apply (proj2 (hit_pipe_is_not_scored passingState pipeBehind)).
    vm_compute. intros E. discriminate E.
Defined.

(** ** [tick] *)

Lemma tick_frozen s : running s = false -> tick s = s.
Proof.
  unfold running, tick. now destruct (State.gameEnd s || State.paused s).
Qed.

Lemma tick_running s :
  running s = true ->
  tick s
  = setTickCount (checkPipes (movePipes (moveBird s))) (State.tickCount s + 1).
Proof.
  unfold running, tick.
  destruct (State.gameEnd s || State.paused s); [discriminate | reflexivity].
Qed.

Lemma checkPipes_lives_bounds s :
  State.lives s - 1 <= State.lives (checkPipes s) <= State.lives s.
Proof.
  rewrite checkPipes_lives_eq.
  destruct (existsb _ _), (worldDeductsLife s); lia.
Qed.

Lemma moveBird_frame s :
  State.lives (moveBird s) = State.lives s
  /\ State.score (moveBird s) = State.score s
  /\ State.paused (moveBird s) = State.paused s
  /\ State.ghosts (moveBird s) = State.ghosts s
  /\ State.gameEnd (moveBird s) = State.gameEnd s
  /\ State.tickCount (moveBird s) = State.tickCount s
  /\ State.invulnUntil (moveBird s) = State.invulnUntil s.
Proof.
  unfold moveBird. destruct (State.gameEnd s) eqn:E; cbn; rewrite ?E; tauto.
Qed.

Lemma movePipes_length s :
  (List.length (State.pipes (movePipes s)) <= List.length (State.pipes s))%nat.
Proof.
  unfold movePipes. cbn [State.pipes].
  eapply Nat.le_trans; [apply filter_length_le|]. now rewrite length_map.
Qed.

Lemma tick_facts (s : State.t) :
  State.tickCount (tick s) = State.tickCount s + (if running s then 1 else 0)
  /\ State.lives s - 1 <= State.lives (tick s) <= State.lives s
  /\ State.score s <= State.score (tick s)
  /\ (List.length (State.pipes (tick s)) <= List.length (State.pipes s))%nat
  /\ State.paused (tick s) = State.paused s
  /\ State.ghosts (tick s) = State.ghosts s.
Proof.
  destruct (running s) eqn:R.
  - rewrite tick_running by exact R.
    set (m := moveBird s). set (q := movePipes m).
    cbn [setTickCount State.tickCount State.lives State.score State.pipes
         State.paused State.ghosts State.birdY].
    destruct (moveBird_frame s) as (L & S & P & G & _). fold m in L, S, P, G.
    pose proof (checkPipes_lives_bounds q) as B.
    pose proof (checkPipes_score q) as C.
    destruct (checkPipes_frame q) as (Y & Pa & _ & Gh).
    assert (Lq : State.lives q = State.lives s) by (unfold q; cbn; exact L).
    assert (Sq : State.score q = State.score s) by (unfold q; cbn; exact S).
    rewrite Lq in B. rewrite Sq in C.
    repeat split; try lia.
    + rewrite checkPipes_pipes, length_map.
      eapply Nat.le_trans; [apply movePipes_length|].
      unfold m. now rewrite moveBird_pipes.
    + rewrite Pa. unfold q. cbn. exact P.
    + rewrite Gh. unfold q. cbn. exact G.
  - rewrite tick_frozen by exact R. repeat split; lia.
Qed.

Lemma ticks_frozen n s : running s = false -> Nat.iter n tick s = s.
Proof.
  intros R. induction n as [|n IH]; [reflexivity|].
  rewrite Nat.iter_succ, IH. now apply tick_frozen.
Qed.

Lemma ticks_facts (n : nat) (s : State.t) :
  (State.gameEnd s = true \/ State.paused s = true -> Nat.iter n tick s = s)
  /\ State.lives s - Z.of_nat n <= State.lives (Nat.iter n tick s)
     <= State.lives s
  /\ State.score s <= State.score (Nat.iter n tick s)
  /\ State.tickCount s <= State.tickCount (Nat.iter n tick s)
     <= State.tickCount s + Z.of_nat n
  /\ (List.length (State.pipes (Nat.iter n tick s))
      <= List.length (State.pipes s))%nat
  /\ State.paused (Nat.iter n tick s) = State.paused s
  /\ State.ghosts (Nat.iter n tick s) = State.ghosts s.
Proof.
  split.
  - intros H. apply ticks_frozen. unfold running.
    destruct H as [-> | ->]; [reflexivity | now rewrite orb_true_r].
  - induction n as [|n IH]; [cbn; repeat split; lia|].
    rewrite Nat.iter_succ. set (t := Nat.iter n tick s) in *.
    destruct IH as (L & S & T & P & Pa & G).
    destruct (tick_facts t) as (T' & L' & S' & P' & Pa' & G').
    rewrite Nat2Z.inj_succ.
    repeat split; try lia; try congruence.
    all: destruct (running t); lia.
Qed.

(** ** Pause *)

Lemma togglePauseR_involutive s : togglePauseR (togglePauseR s) = s.
Proof.
  destruct s as [y vy ps lv sc ge pa sd tc iu gh]. unfold togglePauseR. cbn.
  now rewrite negb_involutive.
Qed.

(** X9.  Pausing twice gives the state back.  While the game is paused
    ticks do nothing and a flap is kept: pausing, letting any number of
    ticks pass, flapping and resuming gives the state a flap alone
    would have given. *)
Theorem flap_is_latched_through_pause (n : nat) (s : State.t) :
  togglePauseR (togglePauseR s) = s
  /\ (State.paused s = false ->
      togglePauseR (Nat.iter n tick (togglePauseR s)) = s
      /\ togglePauseR (flapR (Nat.iter n tick (togglePauseR s))) = flapR s).
Proof.
  split; [apply togglePauseR_involutive|].
  intros P.
  assert (F : Nat.iter n tick (togglePauseR s) = togglePauseR s).
  { apply ticks_frozen. unfold running, togglePauseR. cbn. rewrite P.
    now rewrite orb_true_r. }
  rewrite F. split; [apply togglePauseR_involutive|].
  destruct s as [y vy ps lv sc ge pa sd tc iu gh].
  unfold flapR, birdFlap, setBirdVY, togglePauseR. cbn in *. subst pa.
  destruct ge; reflexivity.
Qed.

Lemma flap_is_latched_through_pause_witness :
  togglePauseR (flapR (Nat.iter 3 tick (togglePauseR bumpState)))
  = flapR bumpState.
Proof.
  apply (proj2 (flap_is_latched_through_pause 3 bumpState)). reflexivity.
Defined.

(** ** Ghost reducers *)

Section GhostUpdate.

(** Every ghost reducer but [activateGhostR] on a new id rewrites the
    ghosts whose id matches and keeps their ids. *)
Variable id : Z.
Variable upd : Ghost.t -> Ghost.t.
Hypothesis upd_id : forall g, Ghost.id (upd g) = Ghost.id g.

Lemma rewriteGhost_ids gs :
  map Ghost.id (map (rewriteGhost id upd) gs) = map Ghost.id gs.
Proof.
  rewrite map_map. apply map_ext. intros g. unfold rewriteGhost.
  destruct (Ghost.id g =? id); [apply upd_id | reflexivity].
Qed.

Lemma rewriteGhost_absent gs :
  ~ In id (map Ghost.id gs) -> map (rewriteGhost id upd) gs = gs.
Proof.
  induction gs as [|g gs IH]; intros N; [reflexivity|]. cbn in *.
  rewrite IH by tauto. unfold rewriteGhost.
  destruct (Z.eqb_spec (Ghost.id g) id); [tauto | reflexivity].
Qed.

Lemma rewriteGhost_in gs h :
  In h (map (rewriteGhost id upd) gs) ->
  (Ghost.id h = id /\ exists g, In g gs /\ Ghost.id g = id /\ h = upd g)
  \/ (Ghost.id h <> id /\ In h gs).
Proof.
  intros H. apply in_map_iff in H as (g & <- & G). unfold rewriteGhost.
  destruct (Z.eqb_spec (Ghost.id g) id) as [E|E].
  - left. rewrite upd_id. split; [exact E|]. now exists g.
  - right. now split.
Qed.

Lemma rewriteGhost_others gs :
  filter (fun g => negb (Ghost.id g =? id)) (map (rewriteGhost id upd) gs)
  = filter (fun g => negb (Ghost.id g =? id)) gs.
Proof.
  induction gs as [|g gs IH]; [reflexivity|]. cbn. rewrite IH.
  unfold rewriteGhost.
  destruct (Ghost.id g =? id) eqn:E; cbn.
  - now rewrite upd_id, E.
  - now rewrite E.
Qed.

End GhostUpdate.

Lemma setGhosts_same s : setGhosts s (State.ghosts s) = s.
Proof. now destruct s. Qed.

Lemma existsb_id_In id gs :
  existsb (fun g => Ghost.id g =? id) gs = true <-> In id (map Ghost.id gs).
Proof.
  rewrite existsb_exists, in_map_iff. split.
  - intros (g & G & E). exists g. apply Z.eqb_eq in E. now split.
  - intros (g & E & G). exists g. split; [exact G | now apply Z.eqb_eq].
Qed.

Lemma activated_id g : Ghost.id (activated g) = Ghost.id g.
Proof. reflexivity. Qed.

Lemma framed_id y g : Ghost.id (framed y g) = Ghost.id g.
Proof. reflexivity. Qed.

Lemma deactivated_id g : Ghost.id (deactivated g) = Ghost.id g.
Proof. reflexivity. Qed.

Lemma activateGhostR_ghosts id s :
  State.ghosts (activateGhostR id s)
  = if existsb (fun g => Ghost.id g =? id) (State.ghosts s)
    then map (rewriteGhost id activated) (State.ghosts s)
    else State.ghosts s
         ++ [{| Ghost.id := id; Ghost.y := None; Ghost.active := true |}].
Proof. reflexivity. Qed.

Lemma ghostFrameR_ghosts id y s :
  State.ghosts (ghostFrameR id y s)
  = map (rewriteGhost id (framed y)) (State.ghosts s).
Proof. reflexivity. Qed.

Lemma deactivateGhostR_ghosts id s :
  State.ghosts (deactivateGhostR id s)
  = map (rewriteGhost id deactivated) (State.ghosts s).
Proof. reflexivity. Qed.

(** X10.  [activateGhostR id]: afterwards [id] is among the ghosts, every
    ghost with that id is active with [y] unset, the ghosts with other
    ids are as before, a known id adds no ghost, an unknown one adds
    exactly one at the end, and ids that were distinct stay distinct. *)
Theorem activateGhostR_spec (id : Z) (s : State.t) :
  In id (ghostIds (activateGhostR id s))
  /\ (forall g : Ghost.t,
        In g (State.ghosts (activateGhostR id s)) -> Ghost.id g = id ->
        g = {| Ghost.id := id; Ghost.y := None; Ghost.active := true |})
  /\ filter (fun g => negb (Ghost.id g =? id))
       (State.ghosts (activateGhostR id s))
     = filter (fun g => negb (Ghost.id g =? id)) (State.ghosts s)
  /\ (In id (ghostIds s) -> ghostIds (activateGhostR id s) = ghostIds s)
  /\ (~ In id (ghostIds s) ->
      ghostIds (activateGhostR id s) = ghostIds s ++ [id])
  /\ (NoDup (ghostIds s) -> NoDup (ghostIds (activateGhostR id s))).
Proof.
  unfold ghostIds. rewrite activateGhostR_ghosts.
  destruct (existsb (fun g => Ghost.id g =? id) (State.ghosts s)) eqn:E.
  - apply existsb_id_In in E.
    rewrite rewriteGhost_ids by apply activated_id.
    repeat split; try tauto.
    + intros g G I.
      apply rewriteGhost_in in G; [|apply activated_id].
      destruct G as [(_ & g0 & _ & I0 & ->) | (N & _)]; [|contradiction].
      unfold activated. now rewrite I0.
    + apply rewriteGhost_others, activated_id.
  - assert (N : ~ In id (map Ghost.id (State.ghosts s))).
    { intros I. apply existsb_id_In in I. congruence. }
    rewrite map_app. cbn [map Ghost.id].
    repeat split; try tauto.
    + apply in_or_app. right. now left.
    + intros g G I. apply in_app_or in G as [G | [<- | []]]; [|reflexivity].
      exfalso. apply N. apply in_map_iff. now exists g.
    + rewrite filter_app. cbn. rewrite Z.eqb_refl. cbn. apply app_nil_r.
    + intros D. apply NoDup_app; [exact D | repeat constructor; tauto |].
      intros x I [<- | []]. exact (N I).
Qed.

Lemma activateGhostR_spec_witness :
  ghostIds (activateGhostR 1 bumpState) = [1]
  /\ ghostIds (activateGhostR 1 (activateGhostR 1 bumpState)) = [1].
Proof.
  split.
  - apply (proj1 (proj2 (proj2 (proj2 (proj2 (activateGhostR_spec 1 bumpState)))))).
    intros [].
  - rewrite (proj1 (proj2 (proj2 (proj2 (activateGhostR_spec 1
               (activateGhostR 1 bumpState)))))).
    + reflexivity.
    + left. reflexivity.
Defined.

(** X11.  [ghostFrameR] and [deactivateGhostR] add and remove no ghost
    and keep every id; for an id that no ghost has they return the
    state as it is; a ghost with the id becomes active with the given
    [y], respectively inactive with its [y] kept; ghosts with other ids
    are as before. *)
Theorem ghost_rewrites_spec (id : Z) (y : option number) (s : State.t) :
  (ghostIds (ghostFrameR id y s) = ghostIds s
   /\ ghostIds (deactivateGhostR id s) = ghostIds s)
  /\ (~ In id (ghostIds s) ->
      ghostFrameR id y s = s /\ deactivateGhostR id s = s)
  /\ (forall g : Ghost.t,
        In g (State.ghosts (ghostFrameR id y s)) -> Ghost.id g = id ->
        g = {| Ghost.id := id; Ghost.y := y; Ghost.active := true |})
  /\ (forall g : Ghost.t,
        In g (State.ghosts (deactivateGhostR id s)) -> Ghost.id g = id ->
        Ghost.active g = false
        /\ exists g0 : Ghost.t,
             In g0 (State.ghosts s) /\ Ghost.id g0 = id
             /\ Ghost.y g = Ghost.y g0)
  /\ (filter (fun g => negb (Ghost.id g =? id))
        (State.ghosts (ghostFrameR id y s))
      = filter (fun g => negb (Ghost.id g =? id)) (State.ghosts s)
      /\ filter (fun g => negb (Ghost.id g =? id))
           (State.ghosts (deactivateGhostR id s))
         = filter (fun g => negb (Ghost.id g =? id)) (State.ghosts s)).
Proof.
  unfold ghostIds. rewrite ghostFrameR_ghosts, deactivateGhostR_ghosts.
  rewrite !rewriteGhost_ids by (apply framed_id || apply deactivated_id).
  repeat split.
  - unfold ghostFrameR.
    change (map _ (State.ghosts s))
      with (map (rewriteGhost id (framed y)) (State.ghosts s)).
    rewrite rewriteGhost_absent by (apply framed_id || assumption).
    apply setGhosts_same.
  - unfold deactivateGhostR.
    change (map _ (State.ghosts s))
      with (map (rewriteGhost id deactivated) (State.ghosts s)).
    rewrite rewriteGhost_absent by (apply deactivated_id || assumption).
    apply setGhosts_same.
  - intros g G I. apply rewriteGhost_in in G; [|apply framed_id].
    destruct G as [(_ & g0 & _ & I0 & ->) | (N & _)]; [|contradiction].
    unfold framed. now rewrite I0.
  - apply rewriteGhost_in in H; [|apply deactivated_id].
    destruct H as [(_ & g0 & _ & I0 & ->) | (N & _)];
      [reflexivity | contradiction].
  - apply rewriteGhost_in in H; [|apply deactivated_id].
    destruct H as [(_ & g0 & G0 & I0 & ->) | (N & _)]; [|contradiction].
    exists g0. repeat split; assumption.
  - apply rewriteGhost_others, framed_id.
  - apply rewriteGhost_others, deactivated_id.
Qed.

Lemma ghost_rewrites_spec_witness :
  ghostFrameR 7 (Some (Num.ofZ 200)) bumpState = bumpState
  /\ deactivateGhostR 7 bumpState = bumpState.
Proof.
  apply (proj1 (proj2 (ghost_rewrites_spec 7 (Some (Num.ofZ 200)) bumpState))).
  intros [].
Defined.

(** *** Ghost reducers and game reducers do not interfere *)

Lemma pipeStep_setGhosts s gs acc p :
  pipeStep (setGhosts s gs) acc p = pipeStep s acc p.
Proof. reflexivity. Qed.

Lemma fold_left_pointwise {A B : Type} (f g : A -> B -> A) :
  (forall a b, f a b = g a b) ->
  forall l a, fold_left f l a = fold_left g l a.
Proof.
  intros E l. induction l as [|b l IH]; intros a; [reflexivity|].
  cbn. now rewrite E, IH.
Qed.

Lemma afterPipes_setGhosts s gs : afterPipes (setGhosts s gs) = afterPipes s.
Proof.
  unfold afterPipes. cbn [setGhosts State.pipes].
  apply fold_left_pointwise. intros a b. apply pipeStep_setGhosts.
Qed.

Lemma checkPipes_setGhosts s gs :
  checkPipes (setGhosts s gs) = setGhosts (checkPipes s) gs.
Proof.
  unfold checkPipes. rewrite afterPipes_setGhosts.
  cbn [setGhosts State.pipes]. destruct (State.pipes s); reflexivity.
Qed.

Lemma moveBird_setGhosts s gs :
  moveBird (setGhosts s gs) = setGhosts (moveBird s) gs.
Proof.
  unfold moveBird. cbn [setGhosts State.gameEnd].
  destruct (State.gameEnd s); reflexivity.
Qed.

Lemma movePipes_setGhosts s gs :
  movePipes (setGhosts s gs) = setGhosts (movePipes s) gs.
Proof. reflexivity. Qed.

Lemma tick_setGhosts s gs : tick (setGhosts s gs) = setGhosts (tick s) gs.
Proof.
  unfold tick. cbn [setGhosts State.gameEnd State.paused State.tickCount].
  destruct (State.gameEnd s || State.paused s); [reflexivity|].
  rewrite moveBird_setGhosts, movePipes_setGhosts, checkPipes_setGhosts.
  reflexivity.
Qed.

Lemma applyPlay_setGhosts b s gs :
  applyPlay b (setGhosts s gs) = setGhosts (applyPlay b s) gs.
Proof.
  destruct b; cbn [applyPlay].
  - apply tick_setGhosts.
  - unfold flapR. cbn [setGhosts State.gameEnd].
    destruct (State.gameEnd s); reflexivity.
  - reflexivity.
Qed.

Lemma applyPlay_ghosts b s : State.ghosts (applyPlay b s) = State.ghosts s.
Proof.
  destruct b; cbn [applyPlay].
  - apply tick_facts.
  - unfold flapR. destruct (State.gameEnd s); reflexivity.
  - reflexivity.
Qed.

Lemma applyGhost_setGhosts a :
  exists f : list Ghost.t -> list Ghost.t,
    forall t : State.t, applyGhost a t = setGhosts t (f (State.ghosts t)).
Proof.
  destruct a as [|id|id y|id]; cbn [applyGhost].
  - exists (fun _ => []). reflexivity.
  - exists (fun gs =>
              if existsb (fun g => Ghost.id g =? id) gs
              then map (rewriteGhost id activated) gs
              else gs ++ [{| Ghost.id := id; Ghost.y := None;
                             Ghost.active := true |}]).
    reflexivity.
  - exists (map (rewriteGhost id (framed y))). reflexivity.
  - exists (map (rewriteGhost id deactivated)). reflexivity.
Qed.

(** X12.  A ghost reducer and a game reducer (tick, flap, pause) can be
    applied in either order with the same result: the replay never
    changes the game and the game never changes the ghosts. *)
Theorem ghost_and_play_commute (a : ghostAction) (b : playAction)
    (s : State.t) :
  applyPlay b (applyGhost a s) = applyGhost a (applyPlay b s)
  /\ State.ghosts (applyPlay b s) = State.ghosts s.
Proof.
  split; [|apply applyPlay_ghosts].
  destruct (applyGhost_setGhosts a) as [f F].
  rewrite !F, applyPlay_setGhosts, applyPlay_ghosts. reflexivity.
Qed.

(** *** Ghost reducers for different ghosts *)

Lemma rewriteGhost_id i u g :
  (forall h, Ghost.id (u h) = Ghost.id h) ->
  Ghost.id (rewriteGhost i u g) = Ghost.id g.
Proof.
  intros U. unfold rewriteGhost. destruct (Ghost.id g =? i); [apply U | reflexivity].
Qed.

Lemma rewriteGhost_commute i j u v gs :
  i <> j ->
  (forall h, Ghost.id (u h) = Ghost.id h) ->
  (forall h, Ghost.id (v h) = Ghost.id h) ->
  map (rewriteGhost i u) (map (rewriteGhost j v) gs)
  = map (rewriteGhost j v) (map (rewriteGhost i u) gs).
Proof.
  intros N U V. rewrite !map_map. apply map_ext. intros g.
  unfold rewriteGhost at 2 4.
  destruct (Z.eqb_spec (Ghost.id g) j) as [J|J],
           (Z.eqb_spec (Ghost.id g) i) as [I|I]; try lia.
  - unfold rewriteGhost. rewrite V.
    destruct (Z.eqb_spec (Ghost.id g) i), (Z.eqb_spec (Ghost.id g) j);
      try lia; reflexivity.
  - unfold rewriteGhost. rewrite U.
    destruct (Z.eqb_spec (Ghost.id g) i), (Z.eqb_spec (Ghost.id g) j);
      try lia; reflexivity.
  - unfold rewriteGhost.
    destruct (Z.eqb_spec (Ghost.id g) i), (Z.eqb_spec (Ghost.id g) j);
      try lia; reflexivity.
Qed.

Lemma existsb_id_rewrite i j v gs :
  (forall h, Ghost.id (v h) = Ghost.id h) ->
  existsb (fun g => Ghost.id g =? i) (map (rewriteGhost j v) gs)
  = existsb (fun g => Ghost.id g =? i) gs.
Proof.
  intros V. induction gs as [|g gs IH]; [reflexivity|].
  cbn. now rewrite IH, rewriteGhost_id.
Qed.

Lemma activate_rewrite_commute i j v s :
  i <> j ->
  (forall h, Ghost.id (v h) = Ghost.id h) ->
  activateGhostR i (setGhosts s (map (rewriteGhost j v) (State.ghosts s)))
  = setGhosts (activateGhostR i s)
      (map (rewriteGhost j v) (State.ghosts (activateGhostR i s))).
Proof.
  intros N V. unfold activateGhostR. cbn [setGhosts State.ghosts].
  rewrite existsb_id_rewrite by exact V.
  change (map (fun g => if Ghost.id g =? i
                        then {| Ghost.id := Ghost.id g; Ghost.y := None;
                                Ghost.active := true |}
                        else g))
    with (map (rewriteGhost i activated)).
  destruct (existsb (fun g => Ghost.id g =? i) (State.ghosts s)).
  - rewrite rewriteGhost_commute by (assumption || apply activated_id).
    reflexivity.
  - rewrite map_app. cbn [map].
    assert (E : rewriteGhost j v
                  {| Ghost.id := i; Ghost.y := None; Ghost.active := true |}
                = {| Ghost.id := i; Ghost.y := None; Ghost.active := true |}).
    { unfold rewriteGhost. cbn [Ghost.id].
      destruct (Z.eqb_spec i j); [contradiction | reflexivity]. }
    rewrite E. reflexivity.
Qed.

Lemma rewrite_rewrite_commute i j u v s :
  i <> j ->
  (forall h, Ghost.id (u h) = Ghost.id h) ->
  (forall h, Ghost.id (v h) = Ghost.id h) ->
  setGhosts (setGhosts s (map (rewriteGhost j v) (State.ghosts s)))
    (map (rewriteGhost i u) (map (rewriteGhost j v) (State.ghosts s)))
  = setGhosts (setGhosts s (map (rewriteGhost i u) (State.ghosts s)))
      (map (rewriteGhost j v) (map (rewriteGhost i u) (State.ghosts s))).
Proof.
  intros N U V. rewrite rewriteGhost_commute by assumption. reflexivity.
Qed.

(** X13.  Reducers of two different ghosts can be applied in either
    order when at least one of them is a frame or a deactivation: the
    replays of several ghosts do not disturb each other. *)
Theorem ghost_actions_commute (a b : ghostAction) (i j : Z) (s : State.t) :
  ghostActionId a = Some i ->
  ghostActionId b = Some j ->
  i <> j ->
  rewritesOnly b = true ->
  applyGhost a (applyGhost b s) = applyGhost b (applyGhost a s).
Proof.
  intros A B N R.
  destruct b as [|jb|jb yb|jb]; try discriminate R;
    injection B as ->;
    destruct a as [|ia|ia ya|ia]; try discriminate A;
    injection A as ->; cbn [applyGhost].
  - apply (activate_rewrite_commute i j (framed yb)); [exact N | apply framed_id].
  - apply (rewrite_rewrite_commute i j (framed ya) (framed yb));
      (exact N || apply framed_id).
  - apply (rewrite_rewrite_commute i j deactivated (framed yb));
      (exact N || apply framed_id || apply deactivated_id).
  - apply (activate_rewrite_commute i j deactivated);
      [exact N | apply deactivated_id].
  - apply (rewrite_rewrite_commute i j (framed ya) deactivated);
      (exact N || apply framed_id || apply deactivated_id).
  - apply (rewrite_rewrite_commute i j deactivated deactivated);
      (exact N || apply deactivated_id).
Qed.

Lemma ghost_actions_commute_witness :
  activateGhostR 1 (ghostFrameR 2 (Some (Num.ofZ 200)) (activateGhostR 2 bumpState))
  = ghostFrameR 2 (Some (Num.ofZ 200)) (activateGhostR 1 (activateGhostR 2 bumpState)).
Proof.
  apply (ghost_actions_commute (Activate 1) (Frame 2 (Some (Num.ofZ 200))) 1 2);
    (reflexivity || discriminate).
Defined.

(** *** The replay of one run *)

Lemma last_default {A : Type} (l : list A) (a d d' : A) :
  last (a :: l) d = last (a :: l) d'.
Proof.
  revert a. induction l as [|b l IH]; intros a; [reflexivity|].
  change (last (b :: l) d = last (b :: l) d'). apply IH.
Qed.

Lemma last_cons {A : Type} (a : A) (l : list A) (d : A) :
  last (a :: l) d = last l a.
Proof.
  destruct l as [|b l]; [reflexivity|].
  change (last (b :: l) d = last (b :: l) a). apply last_default.
Qed.

Section Replay.

Variable id : Z.

Lemma frame_shows y gs : ghostShows id y (map (rewriteGhost id (framed y)) gs).
Proof.
  intros g G I. apply rewriteGhost_in in G; [|apply framed_id].
  destruct G as [(_ & g0 & _ & I0 & ->) | (N & _)]; [|contradiction].
  unfold framed. now rewrite I0.
Qed.

Lemma activate_shows s : ghostShows id None (State.ghosts (activateGhostR id s)).
Proof.
  intros g G I. rewrite activateGhostR_ghosts in G.
  destruct (existsb (fun g => Ghost.id g =? id) (State.ghosts s)) eqn:E.
  - apply rewriteGhost_in in G; [|apply activated_id].
    destruct G as [(_ & g0 & _ & I0 & ->) | (N & _)]; [|contradiction].
    unfold activated. now rewrite I0.
  - apply in_app_or in G as [G | [<- | []]]; [|reflexivity].
    exfalso. assert (T : existsb (fun g => Ghost.id g =? id) (State.ghosts s) = true).
    { apply existsb_exists. exists g. split; [exact G | now apply Z.eqb_eq]. }
    congruence.
Qed.

Lemma frames_fold ys : forall (y0 : option number) (st : State.t),
  ghostShows id y0 (State.ghosts st) ->
  let r := fold_left (fun t y => ghostFrameR id (Some y) t) ys st in
  ghostShows id (last (map Some ys) y0) (State.ghosts r)
  /\ ghostIds r = ghostIds st
  /\ filter (fun g => negb (Ghost.id g =? id)) (State.ghosts r)
     = filter (fun g => negb (Ghost.id g =? id)) (State.ghosts st).
Proof.
  induction ys as [|y ys IH]; intros y0 st S; cbn zeta.
  - cbn. repeat split. exact S.
  - cbn [fold_left map]. rewrite last_cons.
    destruct (IH (Some y) (ghostFrameR id (Some y) st)) as (A & B & C).
    { rewrite ghostFrameR_ghosts. apply frame_shows. }
    cbn zeta in A, B, C. repeat split.
    + exact A.
    + rewrite B. unfold ghostIds. rewrite ghostFrameR_ghosts.
      apply rewriteGhost_ids, framed_id.
    + rewrite C, ghostFrameR_ghosts. apply rewriteGhost_others, framed_id.
Qed.

End Replay.

(** X14.  The replay of a run for ghost [id] (activate, one frame per
    recorded height, deactivate) leaves that ghost present, inactive
    and showing the last recorded height (nothing for an empty
    recording); it adds at most that one ghost and leaves the ghosts
    with other ids as they were. *)
Theorem replayGhost_spec (id : Z) (ys : list number) (s : State.t) :
  In id (ghostIds (replayGhost id ys s))
  /\ (forall g : Ghost.t,
        In g (State.ghosts (replayGhost id ys s)) -> Ghost.id g = id ->
        g = {| Ghost.id := id; Ghost.y := lastFrame ys;
               Ghost.active := false |})
  /\ ghostIds (replayGhost id ys s) = ghostIds (activateGhostR id s)
  /\ filter (fun g => negb (Ghost.id g =? id))
       (State.ghosts (replayGhost id ys s))
     = filter (fun g => negb (Ghost.id g =? id)) (State.ghosts s).
Proof.
  unfold replayGhost.
  destruct (frames_fold id ys None (activateGhostR id s) (activate_shows id s))
    as (A & B & C).
  cbn zeta in A, B, C.
  set (r := fold_left (fun t y => ghostFrameR id (Some y) t) ys
              (activateGhostR id s)) in *.
  assert (Ids : ghostIds (deactivateGhostR id r) = ghostIds (activateGhostR id s)).
  { rewrite <- B. unfold ghostIds. rewrite deactivateGhostR_ghosts.
    apply rewriteGhost_ids, deactivated_id. }
  repeat split.
  - rewrite Ids. unfold ghostIds. rewrite activateGhostR_ghosts.
    destruct (existsb (fun g => Ghost.id g =? id) (State.ghosts s)) eqn:E.
    + rewrite rewriteGhost_ids by apply activated_id. now apply existsb_id_In.
    + rewrite map_app. apply in_or_app. right. now left.
  - intros g G I. rewrite deactivateGhostR_ghosts in G.
    apply rewriteGhost_in in G; [|apply deactivated_id].
    destruct G as [(_ & g0 & G0 & I0 & ->) | (N & _)]; [|contradiction].
    rewrite (A g0 G0 I0). reflexivity.
  - exact Ids.
  - rewrite deactivateGhostR_ghosts.
    rewrite rewriteGhost_others by apply deactivated_id.
    rewrite C, activateGhostR_ghosts.
    destruct (existsb (fun g => Ghost.id g =? id) (State.ghosts s)).
    + apply rewriteGhost_others, activated_id.
    + rewrite filter_app. cbn. rewrite Z.eqb_refl. cbn. apply app_nil_r.
Qed.

Lemma replayGhost_spec_witness :
  In {| Ghost.id := 1; Ghost.y := Some (Num.ofZ 120); Ghost.active := false |}
    (State.ghosts (replayGhost 1 [Num.ofZ 100; Num.ofZ 120] bumpState))
  /\ {| Ghost.id := 1; Ghost.y := Some (Num.ofZ 120); Ghost.active := false |}
     = {| Ghost.id := 1; Ghost.y := lastFrame [Num.ofZ 100; Num.ofZ 120];
          Ghost.active := false |}.
Proof.
  assert (I : In {| Ghost.id := 1; Ghost.y := Some (Num.ofZ 120);
                    Ghost.active := false |}
                (State.ghosts
                   (replayGhost 1 [Num.ofZ 100; Num.ofZ 120] bumpState)))
    by (left; reflexivity).
  split; [exact I|].
  exact (proj1 (proj2 (replayGhost_spec 1 [Num.ofZ 100; Num.ofZ 120] bumpState))
           _ I eq_refl).
Defined.

(** ** Restart *)

(** X15.  The restart choreography (restart with the parsed layout, flap,
    clear the ghosts) yields the same state whatever the state before
    was: the initial state with the layout and the flap velocity.  The
    flap is never ignored, and nothing of the previous run survives:
    not the seed, not the pause flag, not the ghosts. *)
Theorem restart_choreography (layout : list Pipe.t) (s : State.t) :
  resetGhostsR (flapR (restartR layout s))
  = setBirdVY (setPipes initialState layout) Physics.FLAP_FORCE
  /\ restartGame s layout = setPipes initialState layout
  /\ running (resetGhostsR (flapR (restartR layout s))) = true.
Proof. repeat split. Qed.

(** ** More on the schedule parser *)

Lemma noLF_cons c s :
  noLF (String c s) = negb (Ascii.eqb c LF) && noLF s.
Proof. reflexivity. Qed.

Lemma trimStart_noLF s : noLF s = true -> noLF (trimStart s) = true.
Proof.
  induction s as [|c s IH]; [reflexivity|]. intros H.
  rewrite noLF_cons in H. apply andb_true_iff in H as [Hc Hs].
  cbn [trimStart]. destruct (isWhiteSpace c); [now apply IH|].
  rewrite noLF_cons, Hc, Hs. reflexivity.
Qed.

Lemma trimEnd_noLF s : noLF s = true -> noLF (trimEnd s) = true.
Proof.
  induction s as [|c s IH]; [reflexivity|]. intros H.
  rewrite noLF_cons in H. apply andb_true_iff in H as [Hc Hs].
  cbn [trimEnd]. specialize (IH Hs).
  destruct (trimEnd s) as [|c' s'].
  - destruct (isWhiteSpace c); [reflexivity|].
    rewrite noLF_cons, Hc. reflexivity.
  - rewrite noLF_cons, Hc, IH. reflexivity.
Qed.

Lemma splitLines_noLF s :
  noLF s = true -> exists l, splitLines s = [l].
Proof.
  induction s as [|c s IH]; intros H.
  - now exists EmptyString.
  - rewrite noLF_cons in H. apply andb_true_iff in H as [Hc Hs].
    destruct (IH Hs) as [l E]. cbn [splitLines].
    destruct (Ascii.eqb c LF); [discriminate Hc|].
    destruct (Ascii.eqb c CR && startsWithLF s).
    + now exists l.
    + rewrite E. now exists (String c l).
Qed.

Lemma trimEnd_line r :
  trimEnd r <> EmptyString -> trimEnd (line r) = line (trimEnd r).
Proof.
  intros H. unfold line. cbn [trimEnd].
  destruct (trimEnd r); [contradiction | reflexivity].
Qed.

(** X16.  [parsePipeCSV] always drops the first line: a text without a
    line feed yields no pipe, whatever it holds, and the text of a
    header line does not matter for what follows it.  Every pipe it
    returns is not yet passed, and there are at most as many pipes as
    lines after the first. *)
Theorem parsePipeCSV_drops_first_line :
  (forall csv : string, noLF csv = true -> parsePipeCSV csv = [])
  /\ (forall header rest : string,
        noLF header = true -> startsWithText header = true ->
        trimEnd rest <> EmptyString ->
        parsePipeCSV (header ++ line rest)
        = parsePipeCSV (csvHeader ++ line rest))
  /\ (forall csv : string,
        Forall (fun p => Pipe.passed p = false) (parsePipeCSV csv)
        /\ (List.length (parsePipeCSV csv)
            <= List.length (tl (splitLines (trim csv))))%nat).
Proof.
  repeat split.
  - intros csv H. unfold parsePipeCSV.
    destruct (splitLines_noLF (trim csv)) as [l E].
    { unfold trim. now apply trimEnd_noLF, trimStart_noLF. }
    rewrite E. reflexivity.
  - intros header rest Hlf Htxt Hr.
    assert (G : forall h, noLF h = true -> startsWithText h = true ->
                tl (splitLines (trim (h ++ line rest)))
                = splitLines (trimEnd rest)).
    { intros h A B. unfold trim. rewrite trimStart_text.
      - rewrite trimEnd_app, trimEnd_line, splitLines_app_line; trivial.
        rewrite trimEnd_line by exact Hr. discriminate.
      - destruct h; [discriminate | exact B]. }
    unfold parsePipeCSV. rewrite (G header Hlf Htxt), (G csvHeader); reflexivity.
  - unfold parsePipeCSV. apply Forall_forall. intros p H.
    apply in_map_iff in H as (cols & <- & _). reflexivity.
  - unfold parsePipeCSV. rewrite length_map.
    eapply Nat.le_trans; [apply filter_length_le|]. now rewrite length_map.
Qed.

Lemma parsePipeCSV_drops_first_line_witness :
  parsePipeCSV "0.5,0.25,2" = []
  /\ parsePipeCSV ("x" ++ line "0.5,0.25,2")
     = parsePipeCSV (csvHeader ++ line "0.5,0.25,2").
Proof.
  split.
  - apply (proj1 parsePipeCSV_drops_first_line). reflexivity.
  - apply (proj1 (proj2 parsePipeCSV_drops_first_line));
      try reflexivity. vm_compute. discriminate.
Defined.

(** ** States the reducers reach *)

Lemma unpassed_stepPipe s ps :
  (List.length (unpassed (map (stepPipe s) ps))
   + List.length (filter (fun p => negb (Pipe.passed p) && passedNow s p) ps)
   = List.length (unpassed ps))%nat.
Proof.
  unfold unpassed. induction ps as [|p ps IH]; [reflexivity|].
  cbn [map filter]. unfold stepPipe at 1.
  destruct (Pipe.passed p) eqn:P; cbn [negb andb].
  - rewrite P. cbn [negb]. exact IH.
  - destruct (passedNow s p); cbn [markPassed Pipe.passed negb List.length].
    + lia.
    + rewrite P. cbn [negb List.length]. lia.
Qed.

Lemma unpassed_movePipes s :
  (List.length (unpassed (State.pipes (movePipes s)))
   <= List.length (unpassed (State.pipes s)))%nat.
Proof.
  unfold movePipes, unpassed. cbn [State.pipes].
  induction (State.pipes s) as [|p ps IH]; [reflexivity|].
  cbn [map filter Pipe.x].
  destruct (_ >? _)%num; cbn [filter Pipe.passed];
    destruct (negb (Pipe.passed p)); cbn [List.length]; lia.
Qed.

Lemma checkPipes_invuln_cases s :
  State.invulnUntil (checkPipes s) = State.invulnUntil s
  \/ State.invulnUntil (checkPipes s) = State.tickCount s + INVULN_TICKS.
Proof.
  rewrite checkPipes_invulnUntil. destruct (State.pipes s); [now left|].
  rewrite world_invuln, afterPipes_invuln.
  destruct (_ && _ && _); [now right | now left].
Qed.

Lemma gameInv_tick layout s : gameInv layout s -> gameInv layout (tick s).
Proof.
  intros I. destruct (running s) eqn:R; [|now rewrite tick_frozen].
  destruct I as (L & Le & Ge & S & U & T & V & V0).
  assert (G : State.gameEnd s = false)
    by (unfold running in R; now destruct (State.gameEnd s)).
  assert (L1 : 1 <= State.lives s).
  { destruct (Z_le_gt_dec (State.lives s) 0) as [H|H]; [|lia].
    rewrite (Le H) in G. discriminate G. }
  rewrite tick_running by exact R.
  set (q := movePipes (moveBird s)).
  destruct (moveBird_frame s) as (Lm & Sm & _ & _ & _ & Tm & Vm).
  assert (Lq : State.lives q = State.lives s) by exact Lm.
  assert (Sq : State.score q = State.score s) by exact Sm.
  assert (Tq : State.tickCount q = State.tickCount s) by exact Tm.
  assert (Vq : State.invulnUntil q = State.invulnUntil s) by exact Vm.
  assert (Uq : (List.length (unpassed (State.pipes q))
                <= List.length (unpassed (State.pipes s)))%nat).
  { unfold q. eapply Nat.le_trans; [apply unpassed_movePipes|].
    now rewrite moveBird_pipes. }
  pose proof (checkPipes_lives_bounds q) as Bq.
  pose proof (checkPipes_score q) as Cq.
  pose proof (unpassed_stepPipe q (State.pipes q)) as Nq.
  pose proof (checkPipes_invuln_cases q) as Iq.
  destruct (checkPipes_frame q) as (Yq & _ & Tc & _).
  destruct (checkPipes_gameEnd_facts q) as (E0 & E1).
  unfold gameInv.
  cbn [setTickCount State.lives State.gameEnd State.pipes State.score
       State.tickCount State.invulnUntil State.birdY].
  rewrite checkPipes_pipes in *.
  assert (X : State.gameEnd (checkPipes q) = true ->
              State.pipes q = [] \/ State.lives (checkPipes q) <= 0).
  { intros H. destruct (State.pipes q) as [|p ps] eqn:P; [now left|].
    right. rewrite E1 in H by discriminate.
    apply andb_true_iff in H as [_ H]. now apply Z.leb_le. }
  unfold INVULN_TICKS in *.
  repeat split; try lia.
  - intros H. destruct (State.pipes q) as [|p ps] eqn:P.
    + rewrite E0 by reflexivity. reflexivity.
    + rewrite E1 by discriminate. apply andb_true_iff. split.
      * apply Z.ltb_lt. lia.
      * apply Z.leb_le. exact H.
  - intros H. destruct (X H) as [P | P]; [left | now right].
    rewrite P. reflexivity.
Qed.

Lemma gameInv_base layout s0 : gameInv layout (restartGame s0 layout).
Proof.
  unfold gameInv, restartGame, unpassed. cbn.
  pose proof (filter_length_le (fun p => negb (Pipe.passed p)) layout).
  repeat split; try lia; try discriminate.
Qed.

Lemma reachable_gameInv layout s : reachable layout s -> gameInv layout s.
Proof.
  induction 1 as [s0|s _ IH|s _ IH|s _ IH|s _ IH|s _ IH|id s _ IH
                 |id y s _ IH|id s _ IH].
  - apply gameInv_base.
  - now apply gameInv_tick.
  - unfold flapR. destruct (State.gameEnd s); exact IH.
  - exact IH.
  - apply gameInv_base.
  - exact IH.
  - exact IH.
  - exact IH.
  - exact IH.
Qed.

(** X17.  In every state the reducers reach, the lives are between 0 and
    3; a state with no life left is ended; and an ended state has no
    pipes left or no life left. *)
Theorem reachable_lives (layout : list Pipe.t) (s : State.t) :
  reachable layout s ->
  0 <= State.lives s <= 3
  /\ (State.lives s <= 0 -> State.gameEnd s = true)
  /\ (State.gameEnd s = true -> State.pipes s = [] \/ State.lives s <= 0).
Proof.
  intros R. destruct (reachable_gameInv layout s R) as (A & B & C & _).
  repeat split; tauto.
Qed.

Lemma reachable_lives_witness :
  0 <= State.lives (tick (flapR (restartGame endedState [mkPipe]))) <= 3.
Proof.
  apply (reachable_lives [mkPipe]).
  apply reach_tick, reach_flap, reach_base.
Defined.

(** X18.  In every state the reducers reach, the score is not negative
    and the score plus the number of pipes not yet passed is at most
    the number of pipes of the layout: the score never exceeds the
    number of pipes. *)
Theorem reachable_score (layout : list Pipe.t) (s : State.t) :
  reachable layout s ->
  0 <= State.score s
  /\ State.score s + Z.of_nat (List.length (unpassed (State.pipes s)))
     <= Z.of_nat (List.length layout)
  /\ State.score s <= Z.of_nat (List.length layout).
Proof.
  intros R.
  destruct (reachable_gameInv layout s R) as (_ & _ & _ & A & B & _).
  repeat split; lia.
Qed.

Lemma reachable_score_witness :
  State.score (tick (tick (restartGame endedState [mkPipe]))) <= 1.
Proof.
  apply (reachable_score [mkPipe]).
  apply reach_tick, reach_tick, reach_base.
Defined.

(** ** The run recorder *)

Lemma StronglySorted_snoc (l : list Z) (x : Z) :
  StronglySorted Z.lt l -> Forall (fun a => a < x) l ->
  StronglySorted Z.lt (l ++ [x]).
Proof.
  induction 1 as [|a l S IH F]; intros B; cbn.
  - repeat constructor.
  - inversion B as [|? ? Ba Bl]; subst. constructor.
    + now apply IH.
    + apply Forall_app. split; [exact F | now repeat constructor].
Qed.

Lemma recInv_seed : recInv recSeed.
Proof.
  unfold recInv, recSeed. cbn. repeat split; try lia; try constructor;
    discriminate.
Qed.

Lemma recInv_step acc s : recInv acc -> recInv (recordStep acc s).
Proof.
  destruct acc as [runs cur nid prev].
  unfold recInv, recordStep. cbn [RecAcc.runs RecAcc.current RecAcc.nextId
                                  RecAcc.prevEnded].
  intros (N & F & S & C & P).
  destruct (State.gameEnd s) eqn:G; cbn [negb andb].
  - destruct prev; cbn [negb].
    + rewrite (P eq_refl) in *.
      repeat split; try assumption; try lia; discriminate.
    + assert (F' : Forall (sealedRun (nid + 1)) runs).
      { eapply Forall_impl; [|exact F]. unfold sealedRun.
        intros r (A & B & D). repeat split; try assumption; lia. }
      destruct cur as [c|].
      * destruct (C c eq_refl) as [Cc Cb].
        repeat split; try lia; try discriminate.
        -- apply Forall_app. split; [exact F'|].
           repeat constructor; cbn; try lia. exact Cb.
        -- rewrite map_app. cbn. apply StronglySorted_snoc; [exact S|].
           apply Forall_map. eapply Forall_impl; [|exact F].
           unfold sealedRun. intros r (A & _). lia.
      * repeat split; try assumption; try lia; discriminate.
  - split; [exact N|]. split; [destruct cur; exact F|].
    split; [destruct cur; exact S|]. split; [|discriminate].
    intros c E. injection E as <-.
    destruct cur as [c0|].
    + destruct (C c0 eq_refl) as [Cc Cb]. unfold subjectNext. rewrite Cc.
      cbn. split; [reflexivity|]. now destruct (Subject.buffer c0).
    + cbn. split; [reflexivity | discriminate].
Qed.

Lemma fold_recInv states : forall acc,
  recInv acc -> recInv (fold_left recordStep states acc).
Proof.
  induction states as [|s states IH]; intros acc I; [exact I|].
  cbn. apply IH. now apply recInv_step.
Qed.

(** X20.  After any sequence of states the recorder holds: a next id of
    at least 1; archived runs whose ids are at least 1, below the next
    id and strictly increasing, each completed and holding at least one
    height; an open recording, if any, that is not completed and holds
    at least one height; and no open recording right after an ended
    state. *)
Theorem recorder_invariants (states : list State.t) :
  1 <= RecAcc.nextId (record states)
  /\ Forall (fun r => 1 <= RunRec.id r < RecAcc.nextId (record states)
                      /\ Subject.completed (RunRec.subj r) = true
                      /\ Subject.buffer (RunRec.subj r) <> [])
       (RecAcc.runs (record states))
  /\ StronglySorted Z.lt (map RunRec.id (RecAcc.runs (record states)))
  /\ (forall c, RecAcc.current (record states) = Some c ->
                Subject.completed c = false /\ Subject.buffer c <> [])
  /\ (RecAcc.prevEnded (record states) = true ->
      RecAcc.current (record states) = None).
Proof. exact (fold_recInv states recSeed recInv_seed). Qed.

Lemma recorder_invariants_witness :
  Subject.completed
    {| Subject.buffer := [Num.ofZ 145]; Subject.completed := false |} = false
  /\ Subject.buffer
       {| Subject.buffer := [Num.ofZ 145]; Subject.completed := false |} <> [].
Proof.
  apply (proj1 (proj2 (proj2 (proj2 (recorder_invariants [bumpState]))))).
  reflexivity.
Defined.

Lemma recordStep_appends acc s :
  exists extra : list RunRec.t,
    RecAcc.runs (recordStep acc s) = RecAcc.runs acc ++ extra
    /\ RecAcc.nextId acc <= RecAcc.nextId (recordStep acc s).
Proof.
  unfold recordStep. cbn [RecAcc.runs RecAcc.nextId].
  destruct (State.gameEnd s && negb (RecAcc.prevEnded acc)),
    (RecAcc.current acc) as [c|];
    eexists; (split; [try reflexivity; symmetry; apply app_nil_r | lia]).
Qed.

Lemma fold_appends states : forall acc,
  exists extra : list RunRec.t,
    RecAcc.runs (fold_left recordStep states acc) = RecAcc.runs acc ++ extra
    /\ RecAcc.nextId acc <= RecAcc.nextId (fold_left recordStep states acc).
Proof.
  induction states as [|s states IH]; intros acc.
  - exists []. split; [now rewrite app_nil_r | cbn; lia].
  - cbn [fold_left].
    destruct (IH (recordStep acc s)) as (e2 & E2 & N2).
    destruct (recordStep_appends acc s) as (e1 & E1 & N1).
    exists (e1 ++ e2). split; [|lia].
    now rewrite E2, E1, app_assoc.
Qed.

(** X21.  The archive only grows at its end: the runs archived after a
    sequence of states are still there, unchanged and in place, after
    any further states, and the next id never decreases. *)
Theorem recorder_archive_is_append_only (before after : list State.t) :
  exists extra : list RunRec.t,
    RecAcc.runs (record (before ++ after))
    = RecAcc.runs (record before) ++ extra
    /\ RecAcc.nextId (record before) <= RecAcc.nextId (record (before ++ after)).
Proof.
  unfold record. rewrite fold_left_app. apply fold_appends.
Qed.

Lemma record_running (l : list State.t) : forall acc,
  Forall (fun s => State.gameEnd s = false) l ->
  (forall c, RecAcc.current acc = Some c -> Subject.completed c = false) ->
  l <> [] ->
  fold_left recordStep l acc
  = {| RecAcc.runs := RecAcc.runs acc;
       RecAcc.current :=
         Some {| Subject.buffer :=
                   match RecAcc.current acc with
                   | Some c => Subject.buffer c
                   | None => []
                   end ++ map State.birdY l;
                 Subject.completed := false |};
       RecAcc.nextId := RecAcc.nextId acc;
       RecAcc.prevEnded := false |}.
Proof.
  induction l as [|s l IH]; intros acc F C N; [contradiction|].
  inversion F as [|? ? G F']; subst.
  assert (E : recordStep acc s
              = {| RecAcc.runs := RecAcc.runs acc;
                   RecAcc.current :=
                     Some {| Subject.buffer :=
                               match RecAcc.current acc with
                               | Some c => Subject.buffer c
                               | None => []
                               end ++ [State.birdY s];
                             Subject.completed := false |};
                   RecAcc.nextId := RecAcc.nextId acc;
                   RecAcc.prevEnded := false |}).
  { unfold recordStep. rewrite G. cbn [negb andb].
    destruct (RecAcc.current acc) as [c|] eqn:Cur.
    - unfold subjectNext. rewrite (C c eq_refl). reflexivity.
    - reflexivity. }
  cbn [fold_left]. rewrite E.
  destruct l as [|s' l']; [reflexivity|].
  rewrite IH; [|exact F'|cbn; now intros c [= <-]|discriminate].
  cbn [RecAcc.runs RecAcc.current RecAcc.nextId Subject.buffer].
  now rewrite <- app_assoc.
Qed.

(** X22.  A run of one or more states of a game in progress followed by
    an ended state archives one run: it gets the next id and holds the
    heights of the bird in those states, after the heights an open
    recording already held; the next id moves on by one.  An end seen
    without an open recording archives nothing but still uses up an id,
    and further ended states change nothing. *)
Theorem recorder_archives_run (acc : RecAcc.t) (l : list State.t)
    (e : State.t) :
  State.gameEnd e = true ->
  (Forall (fun s => State.gameEnd s = false) l -> l <> [] ->
   (forall c, RecAcc.current acc = Some c -> Subject.completed c = false) ->
   fold_left recordStep (l ++ [e]) acc
   = {| RecAcc.runs :=
          RecAcc.runs acc
          ++ [{| RunRec.id := RecAcc.nextId acc;
                 RunRec.subj :=
                   {| Subject.buffer :=
                        match RecAcc.current acc with
                        | Some c => Subject.buffer c
                        | None => []
                        end ++ map State.birdY l;
                      Subject.completed := true |} |}];
        RecAcc.current := None;
        RecAcc.nextId := RecAcc.nextId acc + 1;
        RecAcc.prevEnded := true |})
  /\ (RecAcc.current acc = None -> RecAcc.prevEnded acc = false ->
      recordStep acc e
      = {| RecAcc.runs := RecAcc.runs acc;
           RecAcc.current := None;
           RecAcc.nextId := RecAcc.nextId acc + 1;
           RecAcc.prevEnded := true |})
  /\ (RecAcc.prevEnded acc = true -> recordStep acc e = acc).
Proof.
  intros G. repeat split.
  - intros F N C. rewrite fold_left_app, (record_running l acc F C N).
    cbn [fold_left]. unfold recordStep. rewrite G. reflexivity.
  - intros C P. unfold recordStep. rewrite G, C, P. reflexivity.
  - intros P. destruct acc as [runs cur nid prev]. cbn in P. subst prev.
    unfold recordStep. rewrite G. cbn. now destruct cur.
Qed.

Lemma recorder_archives_run_witness :
  RecAcc.runs (record [bumpState; hoverState; endedState])
  = [{| RunRec.id := 1;
        RunRec.subj := {| Subject.buffer := [Num.ofZ 145; Num.ofZ 0];
                          Subject.completed := true |} |}]
  /\ recordStep recSeed endedState
     = {| RecAcc.runs := []; RecAcc.current := None;
          RecAcc.nextId := 2; RecAcc.prevEnded := true |}.
Proof.
  destruct (recorder_archives_run recSeed [bumpState; hoverState] endedState
              eq_refl) as (A & B & _).
  split.
  - unfold record.
    change [bumpState; hoverState; endedState]
      with ([bumpState; hoverState] ++ [endedState]).
    rewrite A.
    + reflexivity.
    + repeat constructor.
    + discriminate.
    + intros c E. discriminate E.
  - apply B; reflexivity.
Defined.

(** * Whole numbers in binary64: pipe positions and the seed *)

(** ** Signed whole-number arithmetic *)

Lemma ofZ_neg v : 0 < v < 2 ^ 53 -> Num.ofZ (- v) = canonZ true v.
Proof.
  intros Hv. destruct v as [|p|p]; try lia.
  unfold Num.ofZ. cbn [Z.opp binary_normalize].
  rewrite <- (binary_round_canon true (Z.pos p) 0) by lia.
  change (- 0) with 0. do 2 f_equal. rewrite Z.mul_1_r. reflexivity.
Qed.

Lemma ofZ_finite z :
  z <> 0 -> Z.abs z < 2 ^ 53 -> Num.ofZ z = canonZ (z <? 0) (Z.abs z).
Proof.
  intros Hz Hb. destruct (Z.ltb_spec z 0) as [N|N].
  - replace z with (- Z.abs z) at 1 by lia. apply ofZ_neg. lia.
  - replace z with (Z.abs z) at 1 by lia. apply ofZ_canon. lia.
Qed.

Lemma normalize_int z k :
  Z.abs z < 2 ^ 53 -> 0 <= k ->
  binary_normalize Num.prec Num.emax (z * 2 ^ k) (- k) false = Num.ofZ z.
Proof.
  intros Hz Hk.
  assert (P : 0 < 2 ^ k) by (apply Z.pow_pos_nonneg; lia).
  destruct (Z.eq_dec z 0) as [->|Nz]; [reflexivity|].
  rewrite ofZ_finite by assumption.
  destruct (Z.ltb_spec z 0) as [N|N].
  - assert (Q : z * 2 ^ k = - (Z.abs z * 2 ^ k)) by nia.
    assert (Q' : 0 < Z.abs z * 2 ^ k) by nia.
    rewrite Q. destruct (Z.abs z * 2 ^ k) as [|p|p] eqn:E; try lia.
    cbn [Z.opp binary_normalize].
    replace p with (Z.to_pos (Z.abs z * 2 ^ k)) by (rewrite E; reflexivity).
    apply binary_round_canon; lia.
  - assert (Q : z * 2 ^ k = Z.abs z * 2 ^ k) by nia.
    assert (Q' : 0 < Z.abs z * 2 ^ k) by nia.
    rewrite Q. destruct (Z.abs z * 2 ^ k) as [|p|p] eqn:E; try lia.
    cbn [binary_normalize].
    replace p with (Z.to_pos (Z.abs z * 2 ^ k)) by (rewrite E; reflexivity).
    apply binary_round_canon; lia.
Qed.

Lemma canonZ_aligned z ez :
  z <> 0 -> Z.abs z < 2 ^ 53 -> ez <= Z.log2 (Z.abs z) - 52 ->
  cond_Zopp (z <? 0)
    (Zpos (fst (shl_align
                  (Z.to_pos (Z.abs z * 2 ^ (52 - Z.log2 (Z.abs z))))
                  (Z.log2 (Z.abs z) - 52) ez)))
  = z * 2 ^ (- ez).
Proof.
  intros Hz Hb He.
  assert (Hv : 0 < Z.abs z < 2 ^ 53) by lia.
  pose proof (log2_below_53 _ Hv) as L.
  rewrite shl_align_fst, canonZ_mantissa by (assumption || lia).
  rewrite <- Z.mul_assoc, <- Z.pow_add_r by lia.
  replace (52 - Z.log2 (Z.abs z) + (Z.log2 (Z.abs z) - 52 - ez)) with (- ez)
    by lia.
  destruct (Z.ltb_spec z 0) as [N|N]; cbn [cond_Zopp]; nia.
Qed.

Lemma add_ofZ a b :
  Z.abs a < 2 ^ 53 -> Z.abs b < 2 ^ 53 -> Z.abs (a + b) < 2 ^ 53 ->
  (Num.ofZ a + Num.ofZ b)%num = Num.ofZ (a + b).
Proof.
  intros Ha Hb Hab.
  destruct (Z.eq_dec a 0) as [->|Na].
  { destruct (Z.eq_dec b 0) as [->|Nb]; [reflexivity|].
    rewrite ofZ_0, Z.add_0_l, (ofZ_finite b) by assumption. reflexivity. }
  destruct (Z.eq_dec b 0) as [->|Nb].
  { rewrite ofZ_0, Z.add_0_r, (ofZ_finite a) by assumption. reflexivity. }
  rewrite (ofZ_finite a), (ofZ_finite b) by assumption.
  pose proof (log2_below_53 (Z.abs a) ltac:(lia)) as La.
  pose proof (log2_below_53 (Z.abs b) ltac:(lia)) as Lb.
  unfold canonZ, Num.add. cbn [SFadd].
  set (ez := Z.min (Z.log2 (Z.abs a) - 52) (Z.log2 (Z.abs b) - 52)).
  rewrite !canonZ_aligned by (assumption || lia).
  rewrite <- Z.mul_add_distr_r.
  pose proof (normalize_int (a + b) (- ez)) as N.
  rewrite Z.opp_involutive in N. apply N; lia.
Qed.

Lemma sub_ofZ a b :
  Z.abs a < 2 ^ 53 -> Z.abs b < 2 ^ 53 -> Z.abs (a - b) < 2 ^ 53 ->
  (Num.ofZ a - Num.ofZ b)%num = Num.ofZ (a - b).
Proof.
  intros Ha Hb Hab.
  destruct (Z.eq_dec b 0) as [->|Nb].
  { destruct (Z.eq_dec a 0) as [->|Na]; [reflexivity|].
    rewrite ofZ_0, Z.sub_0_r, (ofZ_finite a) by assumption. reflexivity. }
  destruct (Z.eq_dec a 0) as [->|Na].
  { rewrite ofZ_0, Z.sub_0_l, (ofZ_finite b), (ofZ_finite (- b)) by lia.
    unfold canonZ, Num.sub. cbn [SFsub]. rewrite Z.abs_opp.
    f_equal. destruct (Z.ltb_spec b 0), (Z.ltb_spec (- b) 0); try reflexivity; lia. }
  rewrite (ofZ_finite a), (ofZ_finite b) by assumption.
  pose proof (log2_below_53 (Z.abs a) ltac:(lia)) as La.
  pose proof (log2_below_53 (Z.abs b) ltac:(lia)) as Lb.
  unfold canonZ, Num.sub. cbn [SFsub].
  set (ez := Z.min (Z.log2 (Z.abs a) - 52) (Z.log2 (Z.abs b) - 52)).
  rewrite !canonZ_aligned by (assumption || lia).
  rewrite <- Z.mul_sub_distr_r.
  pose proof (normalize_int (a - b) (- ez)) as N.
  rewrite Z.opp_involutive in N. apply N; lia.
Qed.

Lemma mul_ofZ a b :
  0 <= a < 2 ^ 53 -> 0 <= b < 2 ^ 53 -> a * b < 2 ^ 53 ->
  (Num.ofZ a * Num.ofZ b)%num = Num.ofZ (a * b).
Proof.
  intros Ha Hb Hab.
  destruct (Z.eq_dec a 0) as [->|Na].
  { destruct (Z.eq_dec b 0) as [->|Nb]; [reflexivity|].
    rewrite ofZ_0, Z.mul_0_l, (ofZ_canon b) by lia. reflexivity. }
  destruct (Z.eq_dec b 0) as [->|Nb].
  { rewrite ofZ_0, Z.mul_0_r, (ofZ_canon a) by lia. reflexivity. }
  rewrite !ofZ_canon by nia. apply mul_canon; lia.
Qed.

Lemma gtb_ofZ_0 z :
  Z.abs z < 2 ^ 53 -> (Num.ofZ z >? Num.ofZ 0)%num = (0 <? z).
Proof.
  intros Hz. destruct (Z.eq_dec z 0) as [->|Nz]; [reflexivity|].
  rewrite ofZ_finite, ofZ_0 by assumption.
  unfold canonZ, Num.gtb, SFltb. cbn [SFcompare].
  destruct (Z.ltb_spec z 0), (Z.ltb_spec 0 z); try reflexivity; lia.
Qed.

(** ** Pipes at whole-number positions *)

Lemma stepPipe_x s p : Pipe.x (stepPipe s p) = Pipe.x p.
Proof.
  unfold stepPipe, markPassed.
  destruct (Pipe.passed p), (passedNow s p); reflexivity.
Qed.

Lemma tick_xs s :
  running s = true ->
  map Pipe.x (State.pipes (tick s)) = map Pipe.x (State.pipes (movePipes s)).
Proof.
  intros R. rewrite (tick_running s R). unfold setTickCount.
  cbn [State.pipes]. rewrite checkPipes_pipes, map_map.
  unfold movePipes. cbn [State.pipes]. rewrite moveBird_pipes.
  apply map_ext. intros p. apply stepPipe_x.
Qed.

Lemma movePipes_xs s zs :
  map Pipe.x (State.pipes s) = map Num.ofZ zs ->
  Forall (fun z => -50 < z <= 2 ^ 52) zs ->
  map Pipe.x (State.pipes (movePipes s))
  = map Num.ofZ (map (fun z => z - 5) (filter (fun z => -45 <? z) zs)).
Proof.
  unfold movePipes. cbn [State.pipes].
  change Physics.PIPE_SPEED with (Num.ofZ 5).
  change Constants.PIPE_WIDTH with (Num.ofZ 50).
  generalize (State.pipes s) as ps. intros ps. revert zs.
  induction ps as [|p ps IH]; intros [|z zs] E F; try discriminate;
    [reflexivity|].
  cbn [map] in E. injection E as Ex Et. inversion_clear F as [|? ? Fz Ft].
  cbn [map filter Pipe.x]. rewrite Ex.
  rewrite sub_ofZ, add_ofZ, gtb_ofZ_0 by lia.
  replace (0 <? z - 5 + 50) with (-45 <? z)
    by (destruct (Z.ltb_spec (-45) z), (Z.ltb_spec 0 (z - 5 + 50));
        reflexivity || lia).
  destruct (-45 <? z); cbn [map Pipe.x]; rewrite (IH zs Et Ft); reflexivity.
Qed.

Lemma running_before n s :
  running (Nat.iter (S n) tick s) = true -> running (Nat.iter n tick s) = true.
Proof.
  rewrite Nat.iter_succ. intros R.
  destruct (running (Nat.iter n tick s)) eqn:E; [reflexivity|].
  rewrite (tick_frozen _ E) in R. congruence.
Qed.

Lemma scroll_filter n zs :
  map (fun z => z - 5)
    (filter (fun z => -45 <? z)
       (map (fun z => z - 5 * Z.of_nat n)
          (filter (fun z => 5 * Z.of_nat n - 50 <? z) zs)))
  = map (fun z => z - 5 * Z.of_nat (S n))
      (filter (fun z => 5 * Z.of_nat (S n) - 50 <? z) zs).
Proof.
  induction zs as [|z zs IH]; [reflexivity|].
  cbn [filter].
  destruct (Z.ltb_spec (5 * Z.of_nat n - 50) z) as [A|A],
           (Z.ltb_spec (5 * Z.of_nat (S n) - 50) z) as [B|B];
    cbn [map filter]; try lia.
  - replace (-45 <? z - 5 * Z.of_nat n) with true
      by (symmetry; apply Z.ltb_lt; lia).
    cbn [map]. rewrite IH. f_equal. lia.
  - replace (-45 <? z - 5 * Z.of_nat n) with false
      by (symmetry; apply Z.ltb_ge; lia).
    exact IH.
  - exact IH.
Qed.

Lemma ticks_xs n : forall s zs,
  map Pipe.x (State.pipes s) = map Num.ofZ zs ->
  Forall (fun z => -50 < z <= 2 ^ 52) zs ->
  running (Nat.iter n tick s) = true ->
  map Pipe.x (State.pipes (Nat.iter n tick s))
  = map Num.ofZ
      (map (fun z => z - 5 * Z.of_nat n)
         (filter (fun z => 5 * Z.of_nat n - 50 <? z) zs)).
Proof.
  induction n as [|n IH]; intros s zs E F R.
  - change (Nat.iter 0 tick s) with s. cbn [Z.of_nat]. rewrite E. f_equal.
    clear E R. induction F as [|z zs Fz Ft IHF]; [reflexivity|].
    cbn [filter map].
    replace (5 * 0 - 50 <? z) with true by (symmetry; apply Z.ltb_lt; lia).
    cbn [map]. rewrite <- IHF. f_equal. lia.
  - pose proof (running_before n s R) as R'.
    specialize (IH s zs E F R').
    rewrite Nat.iter_succ, (tick_xs _ R').
    rewrite (movePipes_xs _ _ IH).
    + rewrite scroll_filter. reflexivity.
    + apply Forall_forall. intros z' Hz'.
      apply in_map_iff in Hz' as (z & <- & Hz).
      apply filter_In in Hz as [Hz Hf]. apply Z.ltb_lt in Hf.
      rewrite Forall_forall in F. specialize (F z Hz). lia.
Qed.

Lemma pipeOfRow_x gy gh t :
  0 <= t <= 2 ^ 40 ->
  Pipe.x (pipeOfRow [gy; gh; Num.ofZ t]) = Num.ofZ (600 + 250 * t).
Proof.
  intros Ht. unfold pipeOfRow. cbn [nth Pipe.x].
  replace (Num.ofZ 1000 / Constants.TICK_RATE_MS)%num with (Num.ofZ 50)
    by (vm_compute; reflexivity).
  change Physics.PIPE_SPEED with (Num.ofZ 5).
  change Viewport.CANVAS_WIDTH with (Num.ofZ 600).
  rewrite !mul_ofZ, add_ofZ by lia. f_equal. lia.
Qed.

(** X23.  Pipes at whole-number positions stay at whole-number positions:
    [movePipes] moves each by exactly 5 and drops those at -45 or
    less, and after [n] ticks of a game still in progress the pipes
    are those that started right of [5 n - 50], each exactly [5 n] to
    the left, in the same order.  No rounding error builds up. *)
Theorem ticks_scroll_pipes_exactly (n : nat) (s : State.t) (zs : list Z) :
  map Pipe.x (State.pipes s) = map Num.ofZ zs ->
  Forall (fun z => -50 < z <= 2 ^ 52) zs ->
  map Pipe.x (State.pipes (movePipes s))
  = map Num.ofZ (map (fun z => z - 5) (filter (fun z => -45 <? z) zs))
  /\ (running (Nat.iter n tick s) = true ->
      map Pipe.x (State.pipes (Nat.iter n tick s))
      = map Num.ofZ
          (map (fun z => z - 5 * Z.of_nat n)
             (filter (fun z => 5 * Z.of_nat n - 50 <? z) zs))).
Proof.
  intros E F. split.
  - exact (movePipes_xs s zs E F).
  - exact (ticks_xs n s zs E F).
Qed.

Lemma ticks_scroll_pipes_exactly_witness :
  map Pipe.x (State.pipes (movePipes scrollState)) = [Num.ofZ 695]
  /\ map Pipe.x (State.pipes (Nat.iter 3 tick scrollState)) = [Num.ofZ 685].
Proof.
  assert (E : map Pipe.x (State.pipes scrollState) = map Num.ofZ [700; -47])
    by reflexivity.
  assert (F : Forall (fun z => -50 < z <= 2 ^ 52) [700; -47])
    by (repeat constructor; lia).
  destruct (ticks_scroll_pipes_exactly 3 scrollState [700; -47] E F) as [A B].
  split; [exact A|]. apply B. vm_compute. reflexivity.
Defined.

Lemma filter_map_comm {A B : Type} (f : A -> B) (P : B -> bool) (l : list A) :
  filter P (map f l) = map f (filter (fun a => P (f a)) l).
Proof.
  induction l as [|a l IH]; [reflexivity|].
  cbn [map filter]. destruct (P (f a)); cbn [map]; now rewrite IH.
Qed.

Lemma timedLayout_xs rows :
  Forall (fun r => 0 <= snd r <= 2 ^ 40) rows ->
  map Pipe.x (timedLayout rows)
  = map Num.ofZ (map (fun r => 600 + 250 * snd r) rows).
Proof.
  intros F. unfold timedLayout. rewrite !map_map.
  induction F as [|r rows Fr Ft IH]; [reflexivity|].
  cbn [map]. rewrite IH. f_equal. unfold timedRow. now apply pipeOfRow_x.
Qed.

(** ** The seed stays in range *)

(** Rounding a mantissa of more than 53 bits: the result is normal, and
    its value is the truncation of the input or the next float. *)
Lemma binary_round_aux_normal s m e l :
  0 < m -> 53 <= Z.log2 m ->
  -1074 <= Z.log2 m - 52 + e <= 970 ->
  exists (m' : positive) (e' : Z),
    binary_round_aux Num.prec Num.emax s m e l = S754_finite s m' e'
    /\ 2 ^ 52 <= Zpos m' < 2 ^ 53
    /\ Z.log2 m - 52 + e <= e' <= Z.log2 m - 52 + e + 1
    /\ m / 2 ^ (Z.log2 m - 52)
       <= Zpos m' * 2 ^ (e' - (Z.log2 m - 52 + e))
       <= m / 2 ^ (Z.log2 m - 52) + 1.
Proof.
  intros Hm Hl He.
  set (n := Z.log2 m - 52) in *.
  unfold binary_round_aux, shr_fexp at 1.
  rewrite Zdigits2_log2 by exact Hm.
  replace (fexp (Z.log2 m + 1 + e) - e) with n
    by (rewrite fexp_eq; unfold n; lia).
  destruct (shr_pos (shr_record_of_loc m l) e n) as [S1 M1];
    [unfold n; lia | rewrite shr_record_of_loc_m; lia |].
  destruct (shr (shr_record_of_loc m l) e n) as [r1 e1].
  cbn [fst snd] in S1, M1. rewrite shr_record_of_loc_m in M1. subst e1.
  pose proof (round_nearest_even_bounds (shr_m r1) (loc_of_shr_record r1)) as B.
  set (m2 := round_nearest_even (shr_m r1) (loc_of_shr_record r1)) in *.
  rewrite M1 in B.
  assert (T : 2 ^ 52 <= m / 2 ^ n < 2 ^ 53).
  { pose proof (Z.log2_spec m Hm) as [L1 L2].
    assert (P : 0 < 2 ^ n) by (apply Z.pow_pos_nonneg; unfold n; lia).
    split.
    - apply Z.div_le_lower_bound; [lia|].
      rewrite <- Z.pow_add_r by (unfold n; lia).
      replace (n + 52) with (Z.log2 m) by (unfold n; lia). exact L1.
    - apply Z.div_lt_upper_bound; [lia|].
      rewrite <- Z.pow_add_r by (unfold n; lia).
      replace (n + 53) with (Z.succ (Z.log2 m)) by (unfold n; lia). exact L2. }
  destruct (Z_lt_le_dec m2 (2 ^ 53)) as [C|C].
  - assert (L2 : Z.log2 m2 = 52) by (apply log2_bounds; lia).
    rewrite shr_fexp_exact; rewrite ?L2; try lia.
    + replace (fexp (52 + 1 + (e + n)) - (e + n)) with 0
        by (rewrite fexp_eq; lia).
      cbn [shr_m]. rewrite Z.div_1_r.
      destruct m2 as [|p|p] eqn:Em2; try lia.
      replace (fexp (52 + 1 + (e + n)) <=? Num.emax - Num.prec) with true
        by (symmetry; apply Z.leb_le; rewrite fexp_eq;
            unfold Num.emax, Num.prec; lia).
      exists p, (fexp (52 + 1 + (e + n))).
      rewrite fexp_eq.
      replace (Z.max (52 + 1 + (e + n) - 53) (-1074)) with (e + n) by lia.
      replace (e + n - (n + e)) with 0 by lia.
      rewrite Z.mul_1_r. repeat split; lia.
    + rewrite fexp_eq. lia.
    + replace (fexp (52 + 1 + (e + n)) - (e + n)) with 0
        by (rewrite fexp_eq; lia).
      apply Z.mod_1_r.
  - assert (Em2 : m2 = 2 ^ 53) by lia.
    rewrite Em2.
    rewrite shr_fexp_exact;
      change (Z.log2 (2 ^ 53)) with 53;
      replace (fexp (53 + 1 + (e + n))) with (e + n + 1)
        by (rewrite fexp_eq; lia);
      replace (e + n + 1 - (e + n)) with 1 by lia;
      try lia; try reflexivity.
    cbn [shr_m]. change (2 ^ 53 / 2 ^ 1) with (Z.pos (Z.to_pos (2 ^ 52))).
    replace (e + n + 1 <=? Num.emax - Num.prec) with true
      by (symmetry; apply Z.leb_le; unfold Num.emax, Num.prec; lia).
    exists (Z.to_pos (2 ^ 52)), (e + n + 1).
    replace (e + n + 1 - (n + e)) with 1 by lia.
    change (Z.pos (Z.to_pos (2 ^ 52)) * 2 ^ 1) with (2 ^ 53).
    change (Z.pos (Z.to_pos (2 ^ 52))) with (2 ^ 52).
    repeat split; lia.
Qed.

(** The remainder of a whole number of any size by [2^31]. *)
Lemma rem_high m e :
  0 <= e <= 900 ->
  Num.rem (S754_finite false m e) RNG.m
  = Num.ofZ ((Zpos m * 2 ^ e) mod 2 ^ 31).
Proof.
  intros He. unfold RNG.m.
  change 2147483648 with (2 ^ 31) at 1.
  rewrite (ofZ_canon (2 ^ 31)) by lia.
  unfold canonZ. change (Z.log2 (2 ^ 31)) with 31.
  change (Z.to_pos (2 ^ 31 * 2 ^ (52 - 31))) with (Z.to_pos (2 ^ 52)).
  change (31 - 52) with (-21).
  cbn [Num.rem].
  replace (Z.min e (-21)) with (-21) by lia.
  rewrite !shl_align_fst by lia.
  change (Z.pos (Z.to_pos (2 ^ 52)) * 2 ^ (-21 - -21)) with (2 ^ 31 * 2 ^ 21).
  replace (Z.pos m * 2 ^ (e - -21)) with (Z.pos m * 2 ^ e * 2 ^ 21)
    by (rewrite <- Z.mul_assoc, <- Z.pow_add_r by lia; do 2 f_equal; lia).
  rewrite Z.mul_mod_distr_r by lia.
  pose proof (Z.mod_pos_bound (Z.pos m * 2 ^ e) (2 ^ 31) ltac:(lia)) as R.
  destruct (Z.eq_dec ((Z.pos m * 2 ^ e) mod 2 ^ 31) 0) as [E0|E0].
  - rewrite E0. reflexivity.
  - set (v := (Z.pos m * 2 ^ e) mod 2 ^ 31) in *.
    assert (Q : 0 < v * 2 ^ 21) by lia.
    destruct (v * 2 ^ 21) as [|p|p] eqn:E; try lia.
    replace p with (Z.to_pos (v * 2 ^ 21)) by (rewrite E; reflexivity).
    change (-21) with (- (21)).
    rewrite binary_round_canon, ofZ_canon by lia. reflexivity.
Qed.

(** A product of whole numbers that needs more than 53 bits. *)
Lemma mul_high a b :
  0 < a < 2 ^ 53 -> 0 < b < 2 ^ 53 -> 2 ^ 53 <= a * b ->
  exists (m' : positive) (e' : Z),
    SFmul Num.prec Num.emax (canonZ false a) (canonZ false b)
    = S754_finite false m' e'
    /\ 2 ^ 52 <= Zpos m' < 2 ^ 53 /\ 1 <= e' <= 54.
Proof.
  intros Ha Hb H.
  pose proof (log2_below_53 a Ha) as La.
  pose proof (log2_below_53 b Hb) as Lb.
  assert (Lab : 53 <= Z.log2 (a * b) <= 105).
  { split.
    - apply Z.log2_le_pow2; lia.
    - enough (Z.log2 (a * b) < 106) by lia.
      apply Z.log2_lt_pow2; [nia|].
      change (2 ^ 106) with (2 ^ 53 * 2 ^ 53). nia. }
  unfold canonZ at 1 2. cbn [SFmul xorb].
  rewrite Pos2Z.inj_mul, !canonZ_mantissa by assumption.
  set (k := 52 - Z.log2 a + (52 - Z.log2 b)).
  replace (a * 2 ^ (52 - Z.log2 a) * (b * 2 ^ (52 - Z.log2 b)))
    with (a * b * 2 ^ k)
    by (unfold k; rewrite Z.pow_add_r by lia; ring).
  assert (P : 0 < 2 ^ k) by (apply Z.pow_pos_nonneg; unfold k; lia).
  assert (Lm : Z.log2 (a * b * 2 ^ k) = k + Z.log2 (a * b))
    by (apply Z.log2_mul_pow2; unfold k; nia).
  destruct (binary_round_aux_normal false (a * b * 2 ^ k)
              (Z.log2 a - 52 + (Z.log2 b - 52)) loc_Exact)
    as (m' & e' & E & Bm & Be & _); rewrite ?Lm; unfold k; try nia; try lia.
  exists m', e'. rewrite Lm in Be. unfold k in Be. repeat split; try lia.
  exact E.
Qed.

(** Adding a small whole number to a whole number of 53 bits or more
    when the sum needs more than 53 bits. *)
Lemma add_high m1 e1 c :
  2 ^ 52 <= Zpos m1 < 2 ^ 53 -> 0 <= e1 <= 54 -> 0 < c < 2 ^ 52 ->
  2 ^ 53 <= Zpos m1 * 2 ^ e1 + c ->
  exists (m' : positive) (e' : Z),
    SFadd Num.prec Num.emax (S754_finite false m1 e1) (canonZ false c)
    = S754_finite false m' e'
    /\ 2 ^ 52 <= Zpos m' < 2 ^ 53 /\ 1 <= e' <= 57.
Proof.
  intros Hm He Hc H.
  pose proof (log2_below_53 c ltac:(lia)) as Lc.
  unfold canonZ. cbn [SFadd cond_Zopp].
  replace (Z.min e1 (Z.log2 c - 52)) with (Z.log2 c - 52) by lia.
  set (k := 52 - Z.log2 c).
  rewrite !shl_align_fst, !canonZ_mantissa by lia.
  replace (Z.log2 c - 52 - (Z.log2 c - 52)) with 0 by lia.
  rewrite Z.mul_1_r.
  replace (e1 - (Z.log2 c - 52)) with (e1 + k) by (unfold k; lia).
  replace (52 - Z.log2 c) with k by reflexivity.
  replace (Z.log2 c - 52) with (- k) by (unfold k; lia).
  assert (P : 0 < 2 ^ k) by (apply Z.pow_pos_nonneg; unfold k; lia).
  assert (P1 : 0 < 2 ^ e1) by (apply Z.pow_pos_nonneg; lia).
  set (S := Zpos m1 * 2 ^ e1 + c) in *.
  replace (Z.pos m1 * 2 ^ (e1 + k) + c * 2 ^ k) with (S * 2 ^ k)
    by (unfold S; rewrite Z.pow_add_r by (unfold k; lia); ring).
  assert (LS : 53 <= Z.log2 S <= 108).
  { split.
    - apply Z.log2_le_pow2; lia.
    - enough (Z.log2 S < 109) by lia.
      apply Z.log2_lt_pow2; [lia|].
      assert (2 ^ e1 <= 2 ^ 54) by (apply Z.pow_le_mono_r; lia).
      change (2 ^ 109) with (2 ^ 55 * 2 ^ 54). unfold S. nia. }
  assert (Lm : Z.log2 (S * 2 ^ k) = k + Z.log2 S)
    by (apply Z.log2_mul_pow2; unfold k; lia).
  assert (Q : 0 < S * 2 ^ k) by nia.
  destruct (S * 2 ^ k) as [|p|p] eqn:E; try lia.
  cbn [binary_normalize]. unfold binary_round.
  rewrite digits2_pos_log2, Lm.
  rewrite shl_align_ge by (rewrite fexp_eq; unfold k; lia).
  destruct (binary_round_aux_normal false (Z.pos p) (- k) loc_Exact)
    as (m' & e' & E' & Bm & Be & _); rewrite ?Lm; unfold k; try lia.
  exists m', e'. rewrite Lm in Be. unfold k in Be. repeat split; try lia.
  exact E'.
Qed.

(** [hash] keeps a whole-number seed below [2^31] a whole number below
    [2^31], whether or not its operations round. *)
Lemma hash_range z :
  0 <= z < 2 ^ 31 ->
  exists r : Z, 0 <= r < 2 ^ 31 /\ RNG.hash (Num.ofZ z) = Num.ofZ r.
Proof.
  intros Hz.
  destruct (Z_lt_le_dec (1103515245 * z + 12345) (2 ^ 53)) as [Lo|Hi].
  { exists ((1103515245 * z + 12345) mod 2 ^ 31). split.
    - apply Z.mod_pos_bound. lia.
    - apply hash_exact; lia. }
  assert (Z0 : 0 < z) by lia.
  unfold RNG.hash, RNG.a, RNG.c.
  rewrite (ofZ_canon 1103515245), (ofZ_canon z), (ofZ_canon 12345) by lia.
  unfold Num.mul, Num.add.
  assert (X : exists (m1 : positive) (e1 : Z),
             SFmul Num.prec Num.emax (canonZ false 1103515245) (canonZ false z)
             = S754_finite false m1 e1
             /\ 2 ^ 52 <= Zpos m1 < 2 ^ 53 /\ 0 <= e1 <= 54
             /\ 2 ^ 53 <= Zpos m1 * 2 ^ e1 + 12345).
  { destruct (Z_lt_le_dec (1103515245 * z) (2 ^ 53)) as [Plo|Phi].
    - exfalso. lia.
    - destruct (mul_high 1103515245 z) as (m1 & e1 & E & Bm & Be); try lia.
      exists m1, e1. repeat split; try lia; [exact E|].
      assert (2 ^ 1 <= 2 ^ e1) by (apply Z.pow_le_mono_r; lia). nia. }
  destruct X as (m1 & e1 & -> & Bm & Be & S).
  destruct (add_high m1 e1 12345) as (m2 & e2 & -> & Bm2 & Be2); try lia.
  exists ((Zpos m2 * 2 ^ e2) mod 2 ^ 31). split.
  - apply Z.mod_pos_bound. lia.
  - apply rem_high. lia.
Qed.

Lemma hash_seedInRange x : seedInRange x -> seedInRange (RNG.hash x).
Proof. intros (z & Hz & ->). now apply hash_range. Qed.

Lemma iter_hash_seedInRange n x :
  seedInRange x -> seedInRange (Nat.iter n RNG.hash x).
Proof.
  intros H. induction n as [|n IH]; [exact H|].
  rewrite Nat.iter_succ. now apply hash_seedInRange.
Qed.

(** X25.  [hash] maps a whole-number seed from 0 to [2^31 - 1] to a
    whole number from 0 to [2^31 - 1], although its product and sum
    may round; so do any number of [hash] steps, and so is the seed
    [randBetween] returns. *)
Theorem hash_keeps_seed_in_range (n : nat) (z : Z) (min max : number) :
  0 <= z < 2 ^ 31 ->
  (exists r : Z, 0 <= r < 2 ^ 31 /\ RNG.hash (Num.ofZ z) = Num.ofZ r)
  /\ (exists r : Z,
        0 <= r < 2 ^ 31 /\ Nat.iter n RNG.hash (Num.ofZ z) = Num.ofZ r)
  /\ (exists r : Z,
        0 <= r < 2 ^ 31
        /\ RandBetween.seed (randBetween (Num.ofZ z) min max) = Num.ofZ r).
Proof.
  intros Hz.
  assert (S : seedInRange (Num.ofZ z)) by (exists z; now split).
  split; [|split].
  - exact (hash_seedInRange _ S).
  - exact (iter_hash_seedInRange n _ S).
  - exact (hash_seedInRange _ S).
Qed.

Lemma hash_keeps_seed_in_range_witness :
  exists r : Z,
    0 <= r < 2 ^ 31 /\ Nat.iter 3 RNG.hash (Num.ofZ 123456789) = Num.ofZ r.
Proof.
  apply (hash_keeps_seed_in_range 3 123456789 (Num.ofZ 4) (Num.ofZ 8)). lia.
Defined.

Lemma checkPipes_rngSeed s :
  State.rngSeed (checkPipes s)
  = Nat.iter (draws s) RNG.hash (State.rngSeed s).
Proof.
  unfold draws, worldBounce, checkPipes.
  destruct (State.pipes s) as [|p ps] eqn:E.
  - unfold pipeHit. rewrite E. reflexivity.
  - cbn [State.rngSeed]. rewrite world_rngSeed, afterPipes_rngSeed.
    destruct (pipeHit s), (negb (Acc.gameEnd (afterPipes s)) && touchesWorld s);
      reflexivity.
Qed.

Lemma tick_rngSeed s :
  State.rngSeed (tick s)
  = if running s
    then Nat.iter (draws (movePipes (moveBird s))) RNG.hash (State.rngSeed s)
    else State.rngSeed s.
Proof.
  destruct (running s) eqn:R; [|now rewrite tick_frozen].
  rewrite (tick_running s R). unfold setTickCount. cbn [State.rngSeed].
  rewrite checkPipes_rngSeed. f_equal.
  unfold movePipes, moveBird. cbn [State.rngSeed].
  now destruct (State.gameEnd s).
Qed.

Lemma reachable_seedInRange (layout : list Pipe.t) (s : State.t) :
  reachable layout s -> seedInRange (State.rngSeed s).
Proof.
  induction 1 as [s0|s _ IH|s _ IH|s _ IH|s _ IH|s _ IH|id s _ IH
                 |id y s _ IH|id s _ IH].
  - exists 123456789. split; [lia|reflexivity].
  - rewrite tick_rngSeed. destruct (running s); [|exact IH].
    now apply iter_hash_seedInRange.
  - unfold flapR. destruct (State.gameEnd s); exact IH.
  - exact IH.
  - exists 123456789. split; [lia|reflexivity].
  - exact IH.
  - exact IH.
  - exact IH.
  - exact IH.
Qed.

(** X26.  In every state the reducers reach, the seed is a whole number
    from 0 to [2^31 - 1]: never a fraction, negative, infinite or
    undefined. *)
Theorem reachable_seed (layout : list Pipe.t) (s : State.t) :
  reachable layout s ->
  exists r : Z, 0 <= r < 2 ^ 31 /\ State.rngSeed s = Num.ofZ r.
Proof. exact (reachable_seedInRange layout s). Qed.

Lemma reachable_seed_witness :
  exists r : Z,
    0 <= r < 2 ^ 31
    /\ State.rngSeed (tick (flapR (restartGame endedState [mkPipe])))
       = Num.ofZ r.
Proof.
  apply (reachable_seed [mkPipe]).
  apply reach_tick, reach_flap, reach_base.
Defined.

(** * The range of the bounce *)

(** ** Rounding keeps a value between neighbouring powers of two *)

(** The second half of [binary_round_aux]: the mantissa of 53 bits left
    by the first shift is rounded to nearest, and renormalised when the
    rounding carries. *)
Lemma round_finish s r1 E :
  2 ^ 52 <= shr_m r1 < 2 ^ 53 -> -1074 <= E <= 970 ->
  exists (m' : positive) (e' : Z),
    (let '(mrs2, e2) :=
       shr_fexp Num.prec Num.emax
         (round_nearest_even (shr_m r1) (loc_of_shr_record r1)) E loc_Exact in
     match shr_m mrs2 with
     | 0 => S754_zero s
     | Z.pos m0 =>
         if e2 <=? Num.emax - Num.prec
         then S754_finite s m0 e2 else S754_infinity s
     | Z.neg _ => S754_nan
     end) = S754_finite s m' e'
    /\ 2 ^ 52 <= Zpos m' < 2 ^ 53
    /\ (e' = E \/ (e' = E + 1 /\ Zpos m' = 2 ^ 52))
    /\ shr_m r1 <= Zpos m' * 2 ^ (e' - E) <= shr_m r1 + 1.
Proof.
  intros T He.
  pose proof (round_nearest_even_bounds (shr_m r1) (loc_of_shr_record r1)) as B.
  set (m2 := round_nearest_even (shr_m r1) (loc_of_shr_record r1)) in *.
  destruct (Z_lt_le_dec m2 (2 ^ 53)) as [C|C].
  - assert (L2 : Z.log2 m2 = 52) by (apply log2_bounds; lia).
    rewrite shr_fexp_exact; rewrite ?L2; try lia.
    + replace (fexp (52 + 1 + E) - E) with 0 by (rewrite fexp_eq; lia).
      cbn [shr_m]. rewrite Z.div_1_r.
      destruct m2 as [|p|p] eqn:Em2; try lia.
      replace (fexp (52 + 1 + E) <=? Num.emax - Num.prec) with true
        by (symmetry; apply Z.leb_le; rewrite fexp_eq;
            unfold Num.emax, Num.prec; lia).
      exists p, (fexp (52 + 1 + E)).
      rewrite fexp_eq.
      replace (Z.max (52 + 1 + E - 53) (-1074)) with E by lia.
      replace (E - E) with 0 by lia.
      rewrite Z.mul_1_r. repeat split; lia.
    + rewrite fexp_eq. lia.
    + replace (fexp (52 + 1 + E) - E) with 0 by (rewrite fexp_eq; lia).
      apply Z.mod_1_r.
  - assert (Em2 : m2 = 2 ^ 53) by lia.
    rewrite Em2.
    rewrite shr_fexp_exact;
      change (Z.log2 (2 ^ 53)) with 53;
      replace (fexp (53 + 1 + E)) with (E + 1) by (rewrite fexp_eq; lia);
      replace (E + 1 - E) with 1 by lia;
      try lia; try reflexivity.
    cbn [shr_m]. change (2 ^ 53 / 2 ^ 1) with (Z.pos (Z.to_pos (2 ^ 52))).
    replace (E + 1 <=? Num.emax - Num.prec) with true
      by (symmetry; apply Z.leb_le; unfold Num.emax, Num.prec; lia).
    exists (Z.to_pos (2 ^ 52)), (E + 1).
    replace (E + 1 - E) with 1 by lia.
    change (Z.pos (Z.to_pos (2 ^ 52)) * 2 ^ 1) with (2 ^ 53).
    change (Z.pos (Z.to_pos (2 ^ 52))) with (2 ^ 52).
    repeat split; lia.
Qed.

Lemma loc_of_shr_record_of_loc m l :
  loc_of_shr_record (shr_record_of_loc m l) = l.
Proof. destruct l as [|[| |]]; reflexivity. Qed.

(** Rounding a mantissa of 53 bits or more, with any rounding
    information: the result is normal and lies in the binade of the
    input or is the next power of two. *)
Lemma binary_round_aux_shape s m e l :
  0 < m -> 52 <= Z.log2 m ->
  -1074 <= Z.log2 m - 52 + e <= 970 ->
  exists (m' : positive) (e' : Z),
    binary_round_aux Num.prec Num.emax s m e l = S754_finite s m' e'
    /\ 2 ^ 52 <= Zpos m' < 2 ^ 53
    /\ (e' = Z.log2 m - 52 + e
        \/ (e' = Z.log2 m - 52 + e + 1 /\ Zpos m' = 2 ^ 52)).
Proof.
  intros Hm Hl He.
  set (n := Z.log2 m - 52) in *.
  assert (T : 2 ^ 52 <= m / 2 ^ n < 2 ^ 53).
  { pose proof (Z.log2_spec m Hm) as [L1 L2].
    assert (P : 0 < 2 ^ n) by (apply Z.pow_pos_nonneg; unfold n; lia).
    split.
    - apply Z.div_le_lower_bound; [lia|].
      rewrite <- Z.pow_add_r by (unfold n; lia).
      replace (n + 52) with (Z.log2 m) by (unfold n; lia). exact L1.
    - apply Z.div_lt_upper_bound; [lia|].
      rewrite <- Z.pow_add_r by (unfold n; lia).
      replace (n + 53) with (Z.succ (Z.log2 m)) by (unfold n; lia). exact L2. }
  unfold binary_round_aux, shr_fexp at 1.
  rewrite Zdigits2_log2 by exact Hm.
  replace (fexp (Z.log2 m + 1 + e) - e) with n
    by (rewrite fexp_eq; unfold n; lia).
  destruct (Z_lt_le_dec 0 n) as [Hn|Hn].
  - destruct (shr_pos (shr_record_of_loc m l) e n) as [S1 M1];
      [lia | rewrite shr_record_of_loc_m; lia |].
    destruct (shr (shr_record_of_loc m l) e n) as [r1 e1].
    cbn [fst snd] in S1, M1. rewrite shr_record_of_loc_m in M1. subst e1.
    destruct (round_finish s r1 (e + n)) as (m' & e' & E & Bm & Be & _);
      [rewrite M1; exact T | lia |].
    exists m', e'. split; [exact E|]. split; [exact Bm|]. lia.
  - assert (N0 : n = 0) by (unfold n in *; lia).
    rewrite N0, shr_nonpos by lia.
    destruct (round_finish s (shr_record_of_loc m l) e) as (m' & e' & E & Bm & Be & _);
      [rewrite shr_record_of_loc_m; rewrite N0, Z.div_1_r in T; exact T | lia |].
    exists m', e'. split; [exact E|]. split; [exact Bm|]. lia.
Qed.

(** [binary_round] of a mantissa of at most 53 bits normalises it. *)
Lemma binary_round_short s M e :
  Z.log2 (Zpos M) <= 52 -> -1074 <= Z.log2 (Zpos M) - 52 + e <= 971 ->
  binary_round Num.prec Num.emax s M e
  = S754_finite s (Z.to_pos (Zpos M * 2 ^ (52 - Z.log2 (Zpos M))))
      (Z.log2 (Zpos M) - 52 + e).
Proof.
  intros Hl He.
  set (L := Z.log2 (Zpos M)) in *.
  assert (L0 : 0 <= L) by apply Z.log2_nonneg.
  assert (P : 0 < 2 ^ (52 - L)) by (apply Z.pow_pos_nonneg; lia).
  unfold binary_round. rewrite digits2_pos_log2. fold L.
  replace (fexp (L + 1 + e)) with (L - 52 + e) by (rewrite fexp_eq; lia).
  pose proof (shl_align_fst M e (L - 52 + e) ltac:(lia)) as A.
  pose proof (shl_align_snd M e (L - 52 + e) ltac:(lia)) as B.
  destruct (shl_align M e (L - 52 + e)) as [mz ez]. cbn [fst snd] in A, B.
  subst ez. rewrite A.
  replace (e - (L - 52 + e)) with (52 - L) by lia.
  assert (Lm : Z.log2 (Zpos M * 2 ^ (52 - L)) = 52).
  { rewrite Z.log2_mul_pow2 by lia. fold L. lia. }
  rewrite binary_round_aux_exact; rewrite ?Lm.
  - replace (fexp (52 + 1 + (L - 52 + e)) - (L - 52 + e)) with 0
      by (rewrite fexp_eq; lia).
    rewrite Z.div_1_r. f_equal. rewrite fexp_eq. lia.
  - lia.
  - rewrite fexp_eq. lia.
  - replace (fexp (52 + 1 + (L - 52 + e)) - (L - 52 + e)) with 0
      by (rewrite fexp_eq; lia).
    apply Z.mod_1_r.
  - rewrite fexp_eq. lia.
Qed.

(** [binary_round] of any mantissa: the result is normal and lies in
    the binade of the input or is the next power of two. *)
Lemma binary_round_shape s M e :
  -1074 <= Z.log2 (Zpos M) - 52 + e <= 970 ->
  exists (m' : positive) (e' : Z),
    binary_round Num.prec Num.emax s M e = S754_finite s m' e'
    /\ 2 ^ 52 <= Zpos m' < 2 ^ 53
    /\ (e' = Z.log2 (Zpos M) - 52 + e
        \/ (e' = Z.log2 (Zpos M) - 52 + e + 1 /\ Zpos m' = 2 ^ 52)).
Proof.
  intros He.
  destruct (Z_le_gt_dec (Z.log2 (Zpos M)) 52) as [Hl|Hl].
  - rewrite binary_round_short by lia.
    set (L := Z.log2 (Zpos M)) in *.
    assert (L0 : 0 <= L) by apply Z.log2_nonneg.
    assert (P : 0 < 2 ^ (52 - L)) by (apply Z.pow_pos_nonneg; lia).
    eexists _, _. split; [reflexivity|].
    rewrite Z2Pos.id by lia. split; [|now left].
    pose proof (Z.log2_spec (Zpos M) ltac:(lia)) as [L1 L2]. fold L in L1, L2.
    split.
    + replace 52 with (L + (52 - L)) at 1 by lia.
      rewrite Z.pow_add_r by lia. nia.
    + replace 53 with (Z.succ L + (52 - L)) by lia.
      rewrite Z.pow_add_r by lia. nia.
  - unfold binary_round. rewrite digits2_pos_log2.
    rewrite shl_align_ge by (rewrite fexp_eq; lia).
    apply binary_round_aux_shape; lia.
Qed.

(** Rounding does not cross a power of two from below. *)
Lemma binary_round_le_pow2 s M e j :
  -1074 <= Z.log2 (Zpos M) - 52 + e -> j <= 1000 ->
  Zpos M <= 2 ^ (j - e) ->
  exists (m' : positive) (e' : Z),
    binary_round Num.prec Num.emax s M e = S754_finite s m' e'
    /\ 2 ^ 52 <= Zpos m' < 2 ^ 53
    /\ Z.log2 (Zpos M) - 52 + e <= e'
    /\ (e' < j - 52 \/ (e' = j - 52 /\ Zpos m' = 2 ^ 52)).
Proof.
  intros He Hj H.
  set (L := Z.log2 (Zpos M)) in *.
  assert (L0 : 0 <= L) by apply Z.log2_nonneg.
  assert (J : 0 <= j - e).
  { destruct (Z_lt_le_dec (j - e) 0) as [N|N]; [|exact N].
    rewrite Z.pow_neg_r in H by exact N. lia. }
  assert (LJ : L <= j - e).
  { unfold L. rewrite <- (Z.log2_pow2 (j - e)) by lia.
    apply Z.log2_le_mono. exact H. }
  destruct (Z.eq_dec (Zpos M) (2 ^ (j - e))) as [Eq|Ne].
  - assert (LE : L = j - e) by (unfold L; rewrite Eq; apply Z.log2_pow2; lia).
    destruct (Z_le_gt_dec L 52) as [Hl|Hl].
    + rewrite binary_round_short by (fold L; lia). fold L.
      eexists _, _. split; [reflexivity|].
      rewrite Z2Pos.id
        by (apply Z.mul_pos_pos; [lia|apply Z.pow_pos_nonneg; lia]).
      rewrite Eq, <- Z.pow_add_r by lia.
      replace (j - e + (52 - L)) with 52 by lia.
      repeat split; lia.
    + unfold binary_round. rewrite digits2_pos_log2. fold L.
      rewrite shl_align_ge by (rewrite fexp_eq; lia).
      rewrite binary_round_aux_exact; fold L;
        replace (fexp (L + 1 + e)) with (L - 52 + e)
          by (rewrite fexp_eq; lia);
        replace (L - 52 + e - e) with (L - 52) by lia; try lia.
      * assert (D : Zpos M / 2 ^ (L - 52) = 2 ^ 52).
        { rewrite Eq, <- LE.
          replace (2 ^ L) with (2 ^ 52 * 2 ^ (L - 52))
            by (rewrite <- Z.pow_add_r by lia; f_equal; lia).
          apply Z.div_mul. apply Z.pow_nonzero; lia. }
        rewrite D. eexists _, _. split; [reflexivity|].
        change (Z.pos (Z.to_pos (2 ^ 52))) with (2 ^ 52).
        repeat split; lia.
      * rewrite Eq, <- LE.
        replace (2 ^ L) with (2 ^ 52 * 2 ^ (L - 52))
          by (rewrite <- Z.pow_add_r by lia; f_equal; lia).
        apply Z.mod_mul. apply Z.pow_nonzero; lia.
  - assert (Lt : L < j - e).
    { apply Z.log2_lt_pow2; lia. }
    destruct (binary_round_shape s M e) as (m' & e' & E & Bm & Be);
      [fold L; lia|].
    fold L in Be. exists m', e'. repeat split; try lia. exact E.
Qed.

(** ** Values between powers of two *)

Lemma pos_eq_2_52 m : Zpos m = 2 ^ 52 -> m = 4503599627370496%positive.
Proof. intros H. apply Pos2Z.inj. exact H. Qed.

(** Division of normal numbers: the quotient of the mantissas, rounded. *)
Lemma div_normal sx mx ex sy my ey :
  2 ^ 52 <= Zpos mx < 2 ^ 53 -> 2 ^ 52 <= Zpos my < 2 ^ 53 ->
  -1000 <= ex - ey <= 1000 ->
  (S754_finite sx mx ex / S754_finite sy my ey)%num
  = binary_round_aux Num.prec Num.emax (xorb sx sy)
      (Zpos mx * 2 ^ 53 / Zpos my) (ex - ey - 53)
      (new_location (Zpos my) (Zpos mx * 2 ^ 53 mod Zpos my)).
Proof.
  intros Hx Hy He.
  unfold Num.div, SFdiv, SFdiv_core_binary.
  rewrite !Zdigits2_log2 by lia.
  rewrite (log2_bounds (Zpos mx) 52), (log2_bounds (Zpos my) 52) by lia.
  replace (Z.min (fexp (52 + 1 + ex - (52 + 1 + ey))) (ex - ey))
    with (ex - ey - 53) by (rewrite fexp_eq; lia).
  replace (ex - ey - (ex - ey - 53)) with 53 by lia.
  cbv iota beta. rewrite Z.shiftl_mul_pow2 by lia.
  unfold Z.div, Z.modulo.
  destruct (Z.div_eucl (Z.pos mx * 2 ^ 53) (Z.pos my)) as [q r].
  reflexivity.
Qed.

Lemma div_quotient_bounds mx my :
  2 ^ 52 <= mx < 2 ^ 53 -> 2 ^ 52 <= my < 2 ^ 53 ->
  0 < mx * 2 ^ 53 / my
  /\ 52 <= Z.log2 (mx * 2 ^ 53 / my) <= 53
  /\ (mx < my -> Z.log2 (mx * 2 ^ 53 / my) = 52).
Proof.
  intros Hx Hy.
  assert (Lo : 2 ^ 52 <= mx * 2 ^ 53 / my)
    by (apply Z.div_le_lower_bound; nia).
  assert (Hi : mx * 2 ^ 53 / my < 2 ^ 54)
    by (apply Z.div_lt_upper_bound; nia).
  split; [lia|]. split.
  - split.
    + apply Z.log2_le_pow2; lia.
    + enough (Z.log2 (mx * 2 ^ 53 / my) < 54) by lia.
      apply Z.log2_lt_pow2; lia.
  - intros Lt. apply log2_bounds; [lia|]. split; [exact Lo|].
    apply Z.div_lt_upper_bound; nia.
Qed.

(** The quotient [2 r / (2^31 - 1)] of [scale]. *)
Lemma scale_quotient r :
  1 <= r <= 2 ^ 31 - 2 ->
  normalUpTo false (-82) 1 (Num.ofZ (2 * r) / Num.ofZ 2147483647)%num.
Proof.
  intros Hr.
  rewrite (ofZ_canon (2 * r)), (ofZ_canon 2147483647) by lia.
  unfold canonZ.
  change (Z.log2 2147483647) with 30.
  change (Z.to_pos (2147483647 * 2 ^ (52 - 30)))
    with 9007199250546688%positive.
  change (30 - 52) with (-22).
  set (lx := Z.log2 (2 * r)).
  assert (Lx : 1 <= lx <= 31).
  { split.
    - apply Z.log2_le_pow2; lia.
    - enough (lx < 32) by lia. apply Z.log2_lt_pow2; lia. }
  pose proof (Z.log2_spec (2 * r) ltac:(lia)) as [L1 L2]. fold lx in L1, L2.
  assert (P : 0 < 2 ^ (52 - lx)) by (apply Z.pow_pos_nonneg; lia).
  assert (Mx : Zpos (Z.to_pos (2 * r * 2 ^ (52 - lx))) = 2 * r * 2 ^ (52 - lx))
    by (apply Z2Pos.id; nia).
  assert (Bx : 2 ^ 52 <= 2 * r * 2 ^ (52 - lx) < 2 ^ 53).
  { split.
    - replace 52 with (lx + (52 - lx)) at 1 by lia.
      rewrite Z.pow_add_r by lia. nia.
    - replace 53 with (Z.succ lx + (52 - lx)) by lia.
      rewrite Z.pow_add_r by lia. nia. }
  rewrite div_normal by (rewrite ?Mx; lia).
  rewrite Mx. cbn [xorb].
  set (mx := 2 * r * 2 ^ (52 - lx)) in *.
  destruct (div_quotient_bounds mx 9007199250546688 Bx ltac:(lia))
    as (Q0 & QL & Qlt).
  destruct (binary_round_aux_shape false (mx * 2 ^ 53 / 9007199250546688)
              (lx - 52 - -22 - 53)
              (new_location 9007199250546688
                 (mx * 2 ^ 53 mod 9007199250546688)))
    as (m' & e' & E & Bm & Be); try lia.
  rewrite E. exists m', e'. split; [reflexivity|]. split; [exact Bm|].
  assert (X : lx = 31 -> mx < 9007199250546688).
  { intros L31. unfold mx. rewrite L31.
    change (2 ^ (52 - 31)) with 2097152. lia. }
  destruct (Z.eq_dec lx 31) as [L31|L31].
  - rewrite (Qlt (X L31)) in Be. lia.
  - lia.
Qed.

(** [q - 1] for [0 < q <= 2]. *)
Lemma sub_one lo m e :
  2 ^ 52 <= Zpos m < 2 ^ 53 -> -900 <= lo <= e ->
  e < -51 \/ (e = -51 /\ Zpos m = 2 ^ 52) ->
  (S754_finite false m e - Num.ofZ 1)%num = S754_zero false
  \/ exists sg, normalUpTo sg (lo - 52) 0 (S754_finite false m e - Num.ofZ 1)%num.
Proof.
  intros Hm Hlo [He|[He Hm2]].
  - change (Num.ofZ 1) with (S754_finite false 4503599627370496 (-52)).
    unfold Num.sub. cbn [SFsub cond_Zopp].
    replace (Z.min e (-52)) with e by lia.
    rewrite !shl_align_fst by lia.
    replace (e - e) with 0 by lia. rewrite Z.mul_1_r.
    change (Z.pos 4503599627370496) with (2 ^ 52).
    rewrite <- Z.pow_add_r by lia.
    replace (52 + (-52 - e)) with (- e) by lia.
    assert (P : 2 ^ 52 <= 2 ^ (- e)) by (apply Z.pow_le_mono_r; lia).
    destruct (Z.pos m - 2 ^ (- e)) as [|p|p] eqn:D; cbn [binary_normalize].
    + now left.
    + right. exists false.
      destruct (binary_round_le_pow2 false p e 0)
        as (m' & e' & E & Bm & Bl & Bu).
      * pose proof (Z.log2_nonneg (Z.pos p)). lia.
      * lia.
      * replace (0 - e) with (- e) by lia. lia.
      * exists m', e'. pose proof (Z.log2_nonneg (Z.pos p)).
        repeat split; try lia. exact E.
    + right. exists true.
      destruct (binary_round_le_pow2 true p e 0)
        as (m' & e' & E & Bm & Bl & Bu).
      * pose proof (Z.log2_nonneg (Z.pos p)). lia.
      * lia.
      * replace (0 - e) with (- e) by lia. lia.
      * exists m', e'. pose proof (Z.log2_nonneg (Z.pos p)).
        repeat split; try lia. exact E.
  - apply pos_eq_2_52 in Hm2. subst m e.
    right. exists false, 4503599627370496%positive, (-52).
    split; [vm_compute; reflexivity|]. lia.
Qed.

(** [s + 1] for [-1 <= s <= 1]. *)
Lemma add_one sg lo s :
  -900 <= lo ->
  s = S754_zero false \/ normalUpTo sg lo 0 s ->
  (s + Num.ofZ 1)%num = S754_zero false
  \/ normalUpTo false (Z.min (lo - 52) (-52)) 1 (s + Num.ofZ 1)%num.
Proof.
  intros Hlo [->|(m & e & -> & Hm & Hl & [He|[He Hm2]])].
  - right. exists 4503599627370496%positive, (-52).
    split; [vm_compute; reflexivity|]. lia.
  - right.
    change (Num.ofZ 1) with (S754_finite false 4503599627370496 (-52)).
    unfold Num.add. cbn [SFadd].
    replace (Z.min e (-52)) with e by lia.
    rewrite !shl_align_fst by lia.
    replace (e - e) with 0 by lia. rewrite Z.mul_1_r.
    change (Z.pos 4503599627370496) with (2 ^ 52).
    rewrite <- Z.pow_add_r by lia.
    replace (52 + (-52 - e)) with (- e) by lia.
    assert (P : 2 ^ 53 <= 2 ^ (- e)) by (apply Z.pow_le_mono_r; lia).
    assert (P2 : 2 ^ (1 - e) = 2 * 2 ^ (- e)).
    { replace (1 - e) with (1 + - e) by lia.
      rewrite Z.pow_add_r by lia. reflexivity. }
    assert (B : 0 < cond_Zopp sg (Z.pos m) + 2 ^ (- e) <= 2 ^ (1 - e))
      by (destruct sg; cbn [cond_Zopp]; lia).
    cbn [cond_Zopp].
    destruct (cond_Zopp sg (Z.pos m) + 2 ^ (- e)) as [|p|p] eqn:D; try lia.
    cbn [binary_normalize].
    destruct (binary_round_le_pow2 false p e 1)
      as (m' & e' & E & Bm & Bl & Bu).
    + pose proof (Z.log2_nonneg (Z.pos p)). lia.
    + lia.
    + lia.
    + exists m', e'. pose proof (Z.log2_nonneg (Z.pos p)).
      repeat split; try lia. exact E.
  - apply pos_eq_2_52 in Hm2. subst m e. destruct sg.
    + left. vm_compute. reflexivity.
    + right. exists 4503599627370496%positive, (-51).
      split; [vm_compute; reflexivity|]. lia.
Qed.

(** Halving a normal number is exact. *)
Lemma half_normal m e :
  2 ^ 52 <= Zpos m < 2 ^ 53 -> -900 <= e <= 900 ->
  (S754_finite false m e / Num.ofZ 2)%num = S754_finite false m (e - 1).
Proof.
  intros Hm He.
  change (Num.ofZ 2) with (S754_finite false 4503599627370496 (-51)).
  rewrite div_normal by lia.
  change (Z.pos 4503599627370496) with (2 ^ 52).
  replace (Z.pos m * 2 ^ 53) with (Z.pos m * 2 * 2 ^ 52)
    by (change (2 ^ 53) with (2 * 2 ^ 52); ring).
  rewrite Z.div_mul, Z.mod_mul by lia.
  change (new_location (2 ^ 52) 0) with loc_Exact. cbn [xorb].
  assert (L : Z.log2 (Z.pos m * 2) = 53) by (apply log2_bounds; lia).
  rewrite binary_round_aux_exact; rewrite ?L;
    replace (fexp (53 + 1 + (e - -51 - 53))) with (e - 1)
      by (rewrite fexp_eq; lia);
    replace (e - 1 - (e - -51 - 53)) with 1 by lia; try lia.
  - f_equal. change (2 ^ 1) with 2. rewrite Z.div_mul by lia. reflexivity.
  - change (2 ^ 1) with 2. apply Z.mod_mul. lia.
Qed.

(** Multiplying a normal number by 4 is exact. *)
Lemma times_four m e :
  2 ^ 52 <= Zpos m < 2 ^ 53 -> -900 <= e <= 900 ->
  (Num.ofZ 4 * S754_finite false m e)%num = S754_finite false m (e + 2).
Proof.
  intros Hm He.
  change (Num.ofZ 4) with (S754_finite false 4503599627370496 (-50)).
  unfold Num.mul. cbn [SFmul xorb].
  rewrite Pos2Z.inj_mul.
  change (Z.pos 4503599627370496) with (2 ^ 52).
  assert (L : Z.log2 (2 ^ 52 * Z.pos m) = 104).
  { rewrite Z.mul_comm, Z.log2_mul_pow2 by lia.
    rewrite (log2_bounds (Z.pos m) 52) by lia. reflexivity. }
  rewrite binary_round_aux_exact; rewrite ?L;
    replace (fexp (104 + 1 + (-50 + e))) with (e + 2)
      by (rewrite fexp_eq; lia);
    replace (e + 2 - (-50 + e)) with 52 by lia; try lia.
  - f_equal. rewrite Z.mul_comm, Z.div_mul by lia. reflexivity.
  - rewrite Z.mul_comm. apply Z.mod_mul. lia.
Qed.

(** [4 + p] and [-8 + p] for [0 <= p <= 4]. *)
Lemma add_four lo p :
  -900 <= lo ->
  p = S754_zero false \/ normalUpTo false lo 2 p ->
  exists (m' : positive) (e' : Z),
    (Num.ofZ 4 + p)%num = S754_finite false m' e'
    /\ 2 ^ 52 <= Zpos m' < 2 ^ 53
    /\ (e' = -50 \/ (e' = -49 /\ Zpos m' = 2 ^ 52)).
Proof.
  intros Hlo [->|(m & e & -> & Hm & Hl & [He|[He Hm2]])].
  - exists 4503599627370496%positive, (-50).
    split; [vm_compute; reflexivity|]. lia.
  - change (Num.ofZ 4) with (S754_finite false 4503599627370496 (-50)).
    unfold Num.add. cbn [SFadd cond_Zopp].
    replace (Z.min (-50) e) with e by lia.
    rewrite !shl_align_fst by lia.
    replace (e - e) with 0 by lia. rewrite Z.mul_1_r.
    change (Z.pos 4503599627370496) with (2 ^ 52).
    rewrite <- Z.pow_add_r by lia.
    replace (52 + (-50 - e)) with (2 - e) by lia.
    assert (P : 2 ^ 53 <= 2 ^ (2 - e)) by (apply Z.pow_le_mono_r; lia).
    assert (P2 : 2 ^ (3 - e) = 2 * 2 ^ (2 - e)).
    { replace (3 - e) with (1 + (2 - e)) by lia.
      rewrite Z.pow_add_r by lia. reflexivity. }
    destruct (2 ^ (2 - e) + Z.pos m) as [|p|p] eqn:D; try lia.
    cbn [binary_normalize].
    assert (Lp : 2 - e <= Z.log2 (Z.pos p)) by (apply Z.log2_le_pow2; lia).
    destruct (binary_round_le_pow2 false p e 3)
      as (m' & e' & E & Bm & Bl & Bu); try lia.
    exists m', e'. repeat split; try lia. exact E.
  - apply pos_eq_2_52 in Hm2. subst m e.
    exists 4503599627370496%positive, (-49).
    split; [vm_compute; reflexivity|]. lia.
Qed.

Lemma add_minus_eight lo p :
  -900 <= lo ->
  p = S754_zero false \/ normalUpTo false lo 2 p ->
  exists (m' : positive) (e' : Z),
    (Num.ofZ (-8) + p)%num = S754_finite true m' e'
    /\ 2 ^ 52 <= Zpos m' < 2 ^ 53
    /\ (e' = -50 \/ (e' = -49 /\ Zpos m' = 2 ^ 52)).
Proof.
  intros Hlo [->|(m & e & -> & Hm & Hl & [He|[He Hm2]])].
  - exists 4503599627370496%positive, (-49).
    split; [vm_compute; reflexivity|]. lia.
  - change (Num.ofZ (-8)) with (S754_finite true 4503599627370496 (-49)).
    unfold Num.add. cbn [SFadd cond_Zopp].
    replace (Z.min (-49) e) with e by lia.
    rewrite !shl_align_fst by lia.
    replace (e - e) with 0 by lia. rewrite Z.mul_1_r.
    change (Z.pos 4503599627370496) with (2 ^ 52).
    rewrite <- Z.pow_add_r by lia.
    replace (52 + (-49 - e)) with (3 - e) by lia.
    assert (P : 2 ^ 53 <= 2 ^ (2 - e)) by (apply Z.pow_le_mono_r; lia).
    assert (P2 : 2 ^ (3 - e) = 2 * 2 ^ (2 - e)).
    { replace (3 - e) with (1 + (2 - e)) by lia.
      rewrite Z.pow_add_r by lia. reflexivity. }
    destruct (- 2 ^ (3 - e) + Z.pos m) as [|p|p] eqn:D; try lia.
    cbn [binary_normalize].
    assert (Lp : 2 - e <= Z.log2 (Z.pos p)) by (apply Z.log2_le_pow2; lia).
    destruct (binary_round_le_pow2 true p e 3)
      as (m' & e' & E & Bm & Bl & Bu); try lia.
    exists m', e'. repeat split; try lia. exact E.
  - apply pos_eq_2_52 in Hm2. subst m e.
    exists 4503599627370496%positive, (-50).
    split; [vm_compute; reflexivity|]. lia.
Qed.

(** The value [rand] returns lies between 0 and 1. *)
Lemma rand_value_unit r :
  0 <= r < 2 ^ 31 ->
  ((RNG.scale (Num.ofZ r) + Num.ofZ 1) / Num.ofZ 2)%num = S754_zero false
  \/ normalUpTo false (-200) 0
       ((RNG.scale (Num.ofZ r) + Num.ofZ 1) / Num.ofZ 2)%num.
Proof.
  intros Hr.
  destruct (Z.eq_dec r 0) as [->|R0]; [left; vm_compute; reflexivity|].
  destruct (Z.eq_dec r 2147483647) as [->|R1].
  { right. exists 4503599627370496%positive, (-52).
    split; [vm_compute; reflexivity|]. lia. }
  unfold RNG.scale.
  replace (RNG.m - Num.ofZ 1)%num with (Num.ofZ 2147483647)
    by (vm_compute; reflexivity).
  rewrite mul_ofZ by lia.
  destruct (scale_quotient r ltac:(lia)) as (m & e & -> & Hm & Hl & Hu).
  destruct (sub_one (-82) m e Hm ltac:(lia) ltac:(lia)) as [S|[sg S]].
  - rewrite S.
    destruct (add_one false (-82) (S754_zero false) ltac:(lia) (or_introl eq_refl))
      as [U|(m1 & e1 & U & Hm1 & Hl1 & Hu1)]; rewrite U.
    + left. vm_compute. reflexivity.
    + right. rewrite half_normal by lia.
      exists m1, (e1 - 1). repeat split; try lia.
  - destruct (add_one sg (-134) _ ltac:(lia) (or_intror S))
      as [U|(m1 & e1 & U & Hm1 & Hl1 & Hu1)]; rewrite U.
    + left. vm_compute. reflexivity.
    + right. rewrite half_normal by lia.
      exists m1, (e1 - 1). repeat split; try lia.
Qed.

Lemma compare_cont_Z a b :
  Pos.compare_cont Eq a b = (Zpos a ?= Zpos b).
Proof. reflexivity. Qed.

Lemma between_4_8 m e :
  2 ^ 52 <= Zpos m < 2 ^ 53 ->
  e = -50 \/ (e = -49 /\ Zpos m = 2 ^ 52) ->
  between (Num.ofZ 4) (Num.ofZ 8) (S754_finite false m e) = true.
Proof.
  intros Hm [->|[-> Hm2]].
  - unfold between, Num.leb, SFleb.
    change (Num.ofZ 4) with (S754_finite false 4503599627370496 (-50)).
    change (Num.ofZ 8) with (S754_finite false 4503599627370496 (-49)).
    cbn [SFcompare].
    change (-50 ?= -50) with Eq. change (-50 ?= -49) with Lt.
    cbv iota. rewrite compare_cont_Z.
    destruct (Z.compare_spec (Z.pos 4503599627370496) (Z.pos m));
      try reflexivity.
    change (Z.pos 4503599627370496) with (2 ^ 52) in *. lia.
  - apply pos_eq_2_52 in Hm2. subst m. vm_compute. reflexivity.
Qed.

Lemma between_m8_m4 m e :
  2 ^ 52 <= Zpos m < 2 ^ 53 ->
  e = -50 \/ (e = -49 /\ Zpos m = 2 ^ 52) ->
  between (Num.ofZ (-8)) (Num.ofZ (-4)) (S754_finite true m e) = true.
Proof.
  intros Hm [->|[-> Hm2]].
  - unfold between, Num.leb, SFleb.
    change (Num.ofZ (-4)) with (S754_finite true 4503599627370496 (-50)).
    change (Num.ofZ (-8)) with (S754_finite true 4503599627370496 (-49)).
    cbn [SFcompare].
    change (-50 ?= -50) with Eq. change (-49 ?= -50) with Gt.
    cbv iota. rewrite compare_cont_Z.
    destruct (Z.compare_spec (Z.pos m) (Z.pos 4503599627370496));
      try reflexivity.
    change (Z.pos 4503599627370496) with (2 ^ 52) in *. lia.
  - apply pos_eq_2_52 in Hm2. subst m. vm_compute. reflexivity.
Qed.

Lemma between_0_1 lo x :
  x = S754_zero false \/ normalUpTo false lo 0 x ->
  between (Num.ofZ 0) (Num.ofZ 1) x = true.
Proof.
  intros [->|(m & e & -> & Hm & Hl & [He|[He Hm2]])].
  - vm_compute. reflexivity.
  - unfold between, Num.leb, SFleb.
    change (Num.ofZ 0) with (S754_zero false).
    change (Num.ofZ 1) with (S754_finite false 4503599627370496 (-52)).
    cbn [SFcompare andb].
    replace (e ?= -52) with Lt by (symmetry; apply Z.compare_lt_iff; lia).
    reflexivity.
  - apply pos_eq_2_52 in Hm2. subst m e. vm_compute. reflexivity.
Qed.

Lemma randBetween_bounds x :
  seedInRange x ->
  between (Num.ofZ 0) (Num.ofZ 1) (Rand.value (rand x)) = true
  /\ between (Num.ofZ 4) (Num.ofZ 8)
       (RandBetween.v (randBetween x (Num.ofZ 4) (Num.ofZ 8))) = true
  /\ between (Num.ofZ (-8)) (Num.ofZ (-4))
       (RandBetween.v (randBetween x (Num.ofZ (-8)) (Num.ofZ (-4)))) = true.
Proof.
  intros S. destruct (hash_seedInRange x S) as (r & Hr & E).
  unfold randBetween, rand. cbn [Rand.value RandBetween.v]. rewrite E.
  pose proof (rand_value_unit r Hr) as V.
  set (w := ((RNG.scale (Num.ofZ r) + Num.ofZ 1) / Num.ofZ 2)%num) in *.
  split; [exact (between_0_1 _ _ V)|].
  replace (Num.ofZ 8 - Num.ofZ 4)%num with (Num.ofZ 4)
    by (vm_compute; reflexivity).
  replace (Num.ofZ (-4) - Num.ofZ (-8))%num with (Num.ofZ 4)
    by (vm_compute; reflexivity).
  assert (P : (Num.ofZ 4 * w)%num = S754_zero false
              \/ normalUpTo false (-200) 2 (Num.ofZ 4 * w)%num).
  { destruct V as [->|(m & e & -> & Hm & Hl & Hu)].
    - left. vm_compute. reflexivity.
    - right. rewrite times_four by lia.
      exists m, (e + 2). repeat split; try lia. }
  split.
  - destruct (add_four (-200) _ ltac:(lia) P) as (m' & e' & -> & Bm & Be).
    now apply between_4_8.
  - destruct (add_minus_eight (-200) _ ltac:(lia) P) as (m' & e' & -> & Bm & Be).
    now apply between_m8_m4.
Qed.

(** ** Bounces *)

Lemma between_bounced_down v :
  between (Num.ofZ 4) (Num.ofZ 8) v = true -> bounced v = true.
Proof. intros H. unfold bounced. now rewrite H. Qed.

Lemma between_bounced_up v :
  between (Num.ofZ (-8)) (Num.ofZ (-4)) v = true -> bounced v = true.
Proof. intros H. unfold bounced. rewrite H. apply orb_true_r. Qed.

Lemma randBetween_seed x min max :
  RandBetween.seed (randBetween x min max) = RNG.hash x.
Proof. reflexivity. Qed.

Lemma bounced_fixed :
  bounced (Num.ofZ 6) = true /\ bounced (Num.ofZ (-6)) = true.
Proof. split; vm_compute; reflexivity. Qed.

Lemma pipeStep_bounce s acc p : bounceInv acc -> bounceInv (pipeStep s acc p).
Proof.
  destruct acc as [sc lv v sd inv ge lost ps]. intros [S B].
  cbn [Acc.rngSeed Acc.lostLifeThisTick Acc.vy] in S, B.
  destruct (randBetween_bounds sd S) as (_ & Dn & Up).
  destruct bounced_fixed as [F6 Fm6].
  unfold pipeStep, bounceInv.
  destruct (Pipe.passed p); [split; assumption|].
  destruct (collided s p), lost, (hitTopHalf s p);
    cbn [andb negb Acc.rngSeed Acc.lostLifeThisTick Acc.vy Acc.score Acc.lives
         Acc.invulnUntilTick Acc.gameEnd Acc.pipes RandBetween.v
         RandBetween.seed];
    rewrite ?randBetween_seed;
    (split; [try exact S; try exact (hash_seedInRange sd S)|]);
    intros L; try discriminate L; try exact (B L);
    try exact F6; try exact Fm6.
  - now apply between_bounced_down.
  - now apply between_bounced_up.
Qed.

Lemma fold_bounce s ps : forall acc,
  bounceInv acc -> bounceInv (fold_left (pipeStep s) ps acc).
Proof.
  induction ps as [|p ps IH]; intros acc I; [exact I|].
  cbn [fold_left]. apply IH. now apply pipeStep_bounce.
Qed.

Lemma afterPipes_bounce s :
  seedInRange (State.rngSeed s) -> bounceInv (afterPipes s).
Proof.
  intros S. unfold afterPipes. apply fold_bounce. split; [exact S|].
  intros L. discriminate L.
Qed.

Lemma world_bounce s acc :
  seedInRange (Acc.rngSeed acc) ->
  negb (Acc.gameEnd acc) && touchesWorld s = true ->
  between (if touchesTop s then Num.ofZ 4 else Num.ofZ (-8))
    (if touchesTop s then Num.ofZ 8 else Num.ofZ (-4))
    (Acc.vy (world s acc)) = true.
Proof.
  intros S H. destruct (randBetween_bounds _ S) as (_ & Dn & Up).
  unfold world, touchesWorld in *.
  destruct (Acc.gameEnd acc); [discriminate H|].
  destruct (touchesTop s); [exact Dn|].
  destruct (touchesBottom s); [exact Up|discriminate H].
Qed.

Lemma world_vy_kept s acc :
  negb (Acc.gameEnd acc) && touchesWorld s = false ->
  Acc.vy (world s acc) = Acc.vy acc.
Proof.
  unfold world, touchesWorld.
  destruct (Acc.gameEnd acc); [reflexivity|].
  destruct (touchesTop s); [discriminate|].
  destruct (touchesBottom s); [discriminate|reflexivity].
Qed.

Lemma checkPipes_bounce_facts s :
  seedInRange (State.rngSeed s) ->
  (worldBounce s = true ->
   between (if touchesTop s then Num.ofZ 4 else Num.ofZ (-8))
     (if touchesTop s then Num.ofZ 8 else Num.ofZ (-4))
     (State.birdVY (checkPipes s)) = true)
  /\ (pipeHit s = true \/ worldBounce s = true ->
      bounced (State.birdVY (checkPipes s)) = true)
  /\ (State.lives (checkPipes s) < State.lives s ->
      bounced (State.birdVY (checkPipes s)) = true).
Proof.
  intros S.
  destruct (afterPipes_bounce s S) as [Sa Ba].
  rewrite afterPipes_lost in Ba. fold (pipeHit s) in Ba.
  assert (W : worldBounce s = true ->
              between (if touchesTop s then Num.ofZ 4 else Num.ofZ (-8))
                (if touchesTop s then Num.ofZ 8 else Num.ofZ (-4))
                (State.birdVY (checkPipes s)) = true).
  { unfold worldBounce, checkPipes.
    destruct (State.pipes s) as [|p ps]; [discriminate|].
    cbn [State.birdVY]. now apply world_bounce. }
  assert (A : pipeHit s = true \/ worldBounce s = true ->
              bounced (State.birdVY (checkPipes s)) = true).
  { intros H.
    destruct (worldBounce s) eqn:Wb.
    - specialize (W eq_refl).
      destruct (touchesTop s);
        [now apply between_bounced_down | now apply between_bounced_up].
    - destruct H as [H|H]; [|discriminate H].
      unfold worldBounce, checkPipes in *.
      destruct (State.pipes s) as [|p ps] eqn:E.
      + unfold pipeHit in H. rewrite E in H. discriminate H.
      + cbn [State.birdVY]. rewrite world_vy_kept by exact Wb. now apply Ba. }
  split; [exact W|]. split; [exact A|].
  intros L. apply A.
  rewrite checkPipes_lives in L. unfold worldBounce, pipeHit.
  destruct (State.pipes s) as [|p ps] eqn:E; [lia|].
  rewrite <- E in *.
  rewrite world_lives, afterPipes_lives in L.
  destruct (existsb (hits s) (State.pipes s)); [now left|].
  right.
  destruct (negb (Acc.gameEnd (afterPipes s)) && touchesWorld s);
    [reflexivity|]. cbn [andb] in L. lia.
Qed.

(** X27.  For every whole-number seed from 0 to [2^31 - 1] the value of
    [rand] lies between 0 and 1, and [randBetween] returns a value
    between 4 and 8 for the range (4, 8) and between -8 and -4 for the
    range (-8, -4), the bounds included; none of the roundings of
    [scale], [rand] and [randBetween] leaves the range. *)
Theorem randBetween_stays_in_range (z : Z) :
  0 <= z < 2 ^ 31 ->
  between (Num.ofZ 0) (Num.ofZ 1) (Rand.value (rand (Num.ofZ z))) = true
  /\ between (Num.ofZ 4) (Num.ofZ 8)
       (RandBetween.v (randBetween (Num.ofZ z) (Num.ofZ 4) (Num.ofZ 8))) = true
  /\ between (Num.ofZ (-8)) (Num.ofZ (-4))
       (RandBetween.v (randBetween (Num.ofZ z) (Num.ofZ (-8)) (Num.ofZ (-4))))
     = true.
Proof.
  intros Hz. apply randBetween_bounds. exists z. now split.
Qed.

Lemma randBetween_stays_in_range_witness :
  between (Num.ofZ 4) (Num.ofZ 8)
    (RandBetween.v (randBetween (Num.ofZ 123456789) (Num.ofZ 4) (Num.ofZ 8)))
  = true.
Proof.
  apply (randBetween_stays_in_range 123456789). lia.
Defined.

(** X28.  With a seed in range: a bounce off the world bounds leaves a
    velocity between 4 and 8 at the top and between -8 and -4 at the
    bottom; when a pipe is hit or the world bounds bounce the bird,
    and so whenever [checkPipes] takes a life, the velocity afterwards
    is between 4 and 8 or between -8 and -4. *)
Theorem checkPipes_bounces (s : State.t) :
  (exists r : Z, 0 <= r < 2 ^ 31 /\ State.rngSeed s = Num.ofZ r) ->
  (worldBounce s = true ->
   between (if touchesTop s then Num.ofZ 4 else Num.ofZ (-8))
     (if touchesTop s then Num.ofZ 8 else Num.ofZ (-4))
     (State.birdVY (checkPipes s)) = true)
  /\ (pipeHit s = true \/ worldBounce s = true ->
      bounced (State.birdVY (checkPipes s)) = true)
  /\ (State.lives (checkPipes s) < State.lives s ->
      bounced (State.birdVY (checkPipes s)) = true).
Proof. exact (checkPipes_bounce_facts s). Qed.

Lemma checkPipes_bounces_witness :
  between (Num.ofZ 4) (Num.ofZ 8) (State.birdVY (checkPipes crowdedState))
  = true.
Proof.
  assert (S : exists r : Z,
             0 <= r < 2 ^ 31 /\ State.rngSeed crowdedState = Num.ofZ r)
    by (exists 1; split; [lia|reflexivity]).
  apply (proj1 (checkPipes_bounces crowdedState S)).
  vm_compute. reflexivity.
Defined.

Lemma tick_life_loss_bounces layout s :
  reachable layout s ->
  State.lives (tick s) < State.lives s ->
  bounced (State.birdVY (tick s)) = true.
Proof.
  intros R L.
  destruct (running s) eqn:Run; [|rewrite tick_frozen in L by exact Run; lia].
  rewrite (tick_running s Run) in *. unfold setTickCount in *.
  cbn [State.lives State.birdVY] in *.
  set (q := movePipes (moveBird s)) in *.
  assert (Sq : State.rngSeed q = State.rngSeed s).
  { unfold q, movePipes, moveBird. cbn [State.rngSeed].
    now destruct (State.gameEnd s). }
  assert (Lq : State.lives q = State.lives s)
    by exact (proj1 (moveBird_frame s)).
  apply (checkPipes_bounce_facts q).
  - rewrite Sq. exact (reachable_seedInRange layout s R).
  - lia.
Qed.

(** X29.  In every state the reducers reach, a tick that costs a life
    leaves the bird with a velocity between 4 and 8 or between -8 and
    -4. *)
Theorem life_loss_bounces (layout : list Pipe.t) (s : State.t) :
  reachable layout s ->
  State.lives (tick s) < State.lives s ->
  bounced (State.birdVY (tick s)) = true.
Proof. exact (tick_life_loss_bounces layout s). Qed.

Lemma life_loss_bounces_witness :
  bounced
    (State.birdVY (tick (restartGame endedState collisionLayout))) = true.
Proof.
  apply (life_loss_bounces collisionLayout).
  - apply reach_base.
  - vm_compute. reflexivity.
Defined.

(** * The counters as numbers *)

(** ** Comparison of whole numbers *)

Lemma leb_ofZ_0 z :
  Z.abs z < 2 ^ 53 -> (Num.ofZ z <=? Num.ofZ 0)%num = (z <=? 0).
Proof.
  intros Hz. destruct (Z.eq_dec z 0) as [->|Nz]; [reflexivity|].
  rewrite ofZ_finite, ofZ_0 by assumption.
  unfold canonZ, Num.leb, SFleb. cbn [SFcompare].
  destruct (Z.ltb_spec z 0), (Z.leb_spec z 0); try reflexivity; lia.
Qed.

Lemma canon_compare a b :
  0 < a < 2 ^ 53 -> 0 < b < 2 ^ 53 ->
  SFcompare (canonZ false a) (canonZ false b) = Some (a ?= b).
Proof.
  intros Ha Hb.
  pose proof (log2_below_53 a Ha) as La.
  pose proof (log2_below_53 b Hb) as Lb.
  pose proof (Z.log2_spec a ltac:(lia)) as [A1 A2].
  pose proof (Z.log2_spec b ltac:(lia)) as [B1 B2].
  unfold canonZ. cbn [SFcompare]. f_equal.
  destruct (Z.compare_spec (Z.log2 a - 52) (Z.log2 b - 52)) as [E|E|E].
  - rewrite compare_cont_Z, !canonZ_mantissa by assumption.
    replace (Z.log2 b) with (Z.log2 a) by lia.
    assert (P : 0 < 2 ^ (52 - Z.log2 a)) by (apply Z.pow_pos_nonneg; lia).
    destruct (Z.compare_spec a b) as [C|C|C];
      [apply Z.compare_eq_iff | apply Z.compare_lt_iff | apply Z.compare_gt_iff];
      nia.
  - symmetry. apply Z.compare_lt_iff.
    assert (2 ^ Z.succ (Z.log2 a) <= 2 ^ Z.log2 b)
      by (apply Z.pow_le_mono_r; lia).
    lia.
  - symmetry. apply Z.compare_gt_iff.
    assert (2 ^ Z.succ (Z.log2 b) <= 2 ^ Z.log2 a)
      by (apply Z.pow_le_mono_r; lia).
    lia.
Qed.

Lemma compare_ofZ a b :
  0 <= a < 2 ^ 53 -> 0 <= b < 2 ^ 53 ->
  SFcompare (Num.ofZ a) (Num.ofZ b) = Some (a ?= b).
Proof.
  intros Ha Hb.
  destruct (Z.eq_dec a 0) as [->|Na]; destruct (Z.eq_dec b 0) as [->|Nb].
  - reflexivity.
  - rewrite ofZ_0, (ofZ_canon b) by lia. unfold canonZ. cbn [SFcompare].
    f_equal. symmetry. apply Z.compare_lt_iff. lia.
  - rewrite ofZ_0, (ofZ_canon a) by lia. unfold canonZ. cbn [SFcompare].
    f_equal. symmetry. apply Z.compare_gt_iff. lia.
  - rewrite (ofZ_canon a), (ofZ_canon b) by lia. apply canon_compare; lia.
Qed.

Lemma geb_ofZ a b :
  0 <= a < 2 ^ 53 -> 0 <= b < 2 ^ 53 ->
  (Num.ofZ a >=? Num.ofZ b)%num = (b <=? a).
Proof.
  intros Ha Hb. unfold Num.geb, SFleb. rewrite compare_ofZ by assumption.
  unfold Z.leb. destruct (b ?= a); reflexivity.
Qed.

(** ** The reducers agree on whole-number counters *)

Lemma pipeStep_embed s acc p :
  -1 <= Acc.lives acc < 2 ^ 53 ->
  0 <= Acc.score acc ->
  (Pipe.passed p = false -> Acc.score acc + 1 < 2 ^ 53) ->
  Js.pipeStep (embed s) (embedAcc acc) p = embedAcc (pipeStep s acc p).
Proof.
  destruct acc as [sc lv v sd inv ge lost ps].
  cbn [Acc.lives Acc.score]. intros Hl Hs Hp.
  unfold Js.pipeStep, pipeStep.
  destruct (Pipe.passed p); [reflexivity|].
  specialize (Hp eq_refl).
  change (Js.collided (embed s) p) with (collided s p).
  change (Js.passedNow (embed s) p) with (passedNow s p).
  change (Js.hitTopHalf (embed s) p) with (hitTopHalf s p).
  unfold embedAcc.
  cbn [Js.Acc.score Js.Acc.lives Js.Acc.vy Js.Acc.rngSeed
       Js.Acc.invulnUntilTick Js.Acc.gameEnd Js.Acc.lostLifeThisTick
       Js.Acc.pipes Acc.score Acc.lives Acc.vy Acc.rngSeed
       Acc.invulnUntilTick Acc.gameEnd Acc.lostLifeThisTick Acc.pipes].
  destruct (collided s p), lost, (passedNow s p);
    cbn [andb negb Js.Acc.score Js.Acc.lives Js.Acc.vy Js.Acc.rngSeed
         Js.Acc.invulnUntilTick Js.Acc.gameEnd Js.Acc.lostLifeThisTick
         Js.Acc.pipes Acc.score Acc.lives Acc.vy Acc.rngSeed
         Acc.invulnUntilTick Acc.gameEnd Acc.lostLifeThisTick Acc.pipes];
    rewrite ?sub_ofZ, ?add_ofZ, ?leb_ofZ_0 by lia;
    rewrite ?Z.add_0_r; reflexivity.
Qed.

Lemma unpassed_cons p ps :
  List.length (unpassed (p :: ps))
  = ((if Pipe.passed p then 0 else 1) + List.length (unpassed ps))%nat.
Proof. unfold unpassed. cbn [filter]. now destruct (Pipe.passed p). Qed.

Lemma fold_embed s ps : forall acc,
  -1 <= Acc.lives acc < 2 ^ 53 ->
  (Acc.lostLifeThisTick acc = false -> 0 <= Acc.lives acc) ->
  0 <= Acc.score acc ->
  Acc.score acc + Z.of_nat (List.length (unpassed ps)) < 2 ^ 53 ->
  fold_left (Js.pipeStep (embed s)) ps (embedAcc acc)
  = embedAcc (fold_left (pipeStep s) ps acc).
Proof.
  induction ps as [|p ps IH]; intros acc Hl Hl0 Hs Hu; [reflexivity|].
  rewrite unpassed_cons in Hu.
  cbn [fold_left]. rewrite pipeStep_embed; try assumption.
  - apply IH.
    + rewrite pipeStep_lives.
      destruct (hits s p && negb (Acc.lostLifeThisTick acc)) eqn:H; [|lia].
      apply andb_true_iff in H as [_ H]. apply negb_true_iff in H.
      specialize (Hl0 H). lia.
    + rewrite pipeStep_lost, pipeStep_lives. intros H.
      apply orb_false_iff in H as [H1 H2]. rewrite H2. cbn [andb].
      specialize (Hl0 H1). lia.
    + rewrite pipeStep_score.
      destruct (negb (Pipe.passed p) && passedNow s p); lia.
    + rewrite pipeStep_score.
      destruct (Pipe.passed p); cbn [negb andb] in *;
        [|destruct (passedNow s p)]; lia.
  - intros P. rewrite P in Hu. lia.
Qed.

Lemma afterPipes_embed s :
  exactCounters s ->
  Js.afterPipes (embed s) = embedAcc (afterPipes s).
Proof.
  intros (Hl & Hs & Hu & _).
  unfold Js.afterPipes, afterPipes.
  change (Js.State.pipes (embed s)) with (State.pipes s).
  change (Js.start (embed s)) with (embedAcc (start s)).
  apply fold_embed; cbn [start Acc.lives Acc.score Acc.lostLifeThisTick]; lia.
Qed.

Lemma world_embed s acc :
  0 <= State.tickCount s -> State.tickCount s + 15 < 2 ^ 53 ->
  0 <= Acc.invulnUntilTick acc < 2 ^ 53 ->
  -1 <= Acc.lives acc < 2 ^ 53 ->
  Js.world (embed s) (embedAcc acc) = embedAcc (world s acc).
Proof.
  destruct acc as [sc lv v sd inv ge lost ps].
  cbn [Acc.lives Acc.invulnUntilTick]. intros Ht Ht' Hi Hl.
  unfold Js.world, world, Js.worldHit, worldHit, Js.canLoseLife, canLoseLife.
  change (Js.touchesTop (embed s)) with (touchesTop s).
  change (Js.touchesBottom (embed s)) with (touchesBottom s).
  unfold embedAcc, embed, Js.INVULN_TICKS, INVULN_TICKS.
  cbn [Js.Acc.score Js.Acc.lives Js.Acc.vy Js.Acc.rngSeed
       Js.Acc.invulnUntilTick Js.Acc.gameEnd Js.Acc.lostLifeThisTick
       Js.Acc.pipes Acc.score Acc.lives Acc.vy Acc.rngSeed
       Acc.invulnUntilTick Acc.gameEnd Acc.lostLifeThisTick Acc.pipes
       Js.State.tickCount].
  rewrite geb_ofZ by lia.
  destruct ge; [reflexivity|].
  destruct (touchesTop s); [|destruct (touchesBottom s); [|reflexivity]];
    destruct (inv <=? State.tickCount s), lost; cbn [andb negb];
    rewrite ?sub_ofZ, ?add_ofZ, ?leb_ofZ_0 by lia; reflexivity.
Qed.

Lemma checkPipes_embed s :
  exactCounters s -> Js.checkPipes (embed s) = embed (checkPipes s).
Proof.
  intros X. pose proof X as (Hl & Hs & Hu & Ht & Ht' & Hi).
  unfold Js.checkPipes, checkPipes.
  change (Js.State.pipes (embed s)) with (State.pipes s).
  destruct (State.pipes s) as [|p ps] eqn:E; [reflexivity|].
  rewrite afterPipes_embed by exact X.
  rewrite world_embed; try assumption.
  - reflexivity.
  - rewrite afterPipes_invuln. exact Hi.
  - rewrite afterPipes_lives. destruct (existsb _ _); lia.
Qed.

Lemma moveBird_embed s : Js.moveBird (embed s) = embed (moveBird s).
Proof.
  unfold Js.moveBird, moveBird.
  change (Js.State.gameEnd (embed s)) with (State.gameEnd s).
  now destruct (State.gameEnd s).
Qed.

Lemma movePipes_embed s : Js.movePipes (embed s) = embed (movePipes s).
Proof. reflexivity. Qed.

Lemma exactCounters_advance s :
  exactCounters s -> exactCounters (movePipes (moveBird s)).
Proof.
  intros (Hl & Hs & Hu & Ht & Ht' & Hi).
  destruct (moveBird_frame s) as (L & S & _ & _ & _ & T & I).
  unfold exactCounters.
  change (State.lives (movePipes (moveBird s))) with (State.lives (moveBird s)).
  change (State.score (movePipes (moveBird s))) with (State.score (moveBird s)).
  change (State.tickCount (movePipes (moveBird s)))
    with (State.tickCount (moveBird s)).
  change (State.invulnUntil (movePipes (moveBird s)))
    with (State.invulnUntil (moveBird s)).
  rewrite L, S, T, I.
  pose proof (unpassed_movePipes (moveBird s)) as U.
  rewrite moveBird_pipes in U. repeat split; lia.
Qed.

Lemma tick_embed s : exactCounters s -> Js.tick (embed s) = embed (tick s).
Proof.
  intros X. pose proof X as (Hl & Hs & Hu & Ht & Ht' & Hi).
  unfold Js.tick, tick.
  change (Js.State.gameEnd (embed s)) with (State.gameEnd s).
  change (Js.State.paused (embed s)) with (State.paused s).
  destruct (State.gameEnd s || State.paused s); [reflexivity|].
  rewrite moveBird_embed, movePipes_embed.
  rewrite checkPipes_embed by now apply exactCounters_advance.
  unfold embed, setTickCount.
  cbn [Js.State.birdY Js.State.birdVY Js.State.pipes Js.State.lives
       Js.State.score Js.State.gameEnd Js.State.paused Js.State.rngSeed
       Js.State.tickCount Js.State.invulnUntil Js.State.ghosts
       State.birdY State.birdVY State.pipes State.lives State.score
       State.gameEnd State.paused State.rngSeed State.tickCount
       State.invulnUntil State.ghosts].
  rewrite add_ofZ by lia. reflexivity.
Qed.

Lemma wholeCounters_embed js L S T I :
  Js.wholeCounters js L S T I ->
  js = embed (wholeView js L S T I) /\ exactCounters (wholeView js L S T I).
Proof.
  destruct js as [y vy ps lv sc ge pa sd tc iu gs].
  unfold Js.wholeCounters, exactCounters, embed, wholeView.
  cbn [Js.State.birdY Js.State.birdVY Js.State.pipes Js.State.lives
       Js.State.score Js.State.gameEnd Js.State.paused Js.State.rngSeed
       Js.State.tickCount Js.State.invulnUntil Js.State.ghosts
       State.birdY State.birdVY State.pipes State.lives State.score
       State.gameEnd State.paused State.rngSeed State.tickCount
       State.invulnUntil State.ghosts].
  intros (-> & -> & -> & -> & H). split; [reflexivity|]. lia.
Qed.

(** The counters of a game are in the exact range until the tick count
    gets near [2^53]: on the states the reducers reach, the reducers
    with the counters in [Z] are the reducers of the source. *)
Lemma reachable_exactCounters layout s :
  reachable layout s ->
  Z.of_nat (List.length layout) < 2 ^ 53 ->
  State.tickCount s + 15 < 2 ^ 53 ->
  exactCounters s.
Proof.
  intros R Hn Ht.
  destruct (reachable_gameInv layout s R) as (L & _ & _ & S & U & T & V & V0).
  unfold INVULN_TICKS in V. unfold exactCounters. repeat split; lia.
Qed.

Lemma reachable_embed layout s :
  reachable layout s ->
  Z.of_nat (List.length layout) < 2 ^ 53 ->
  State.tickCount s + 15 < 2 ^ 53 ->
  Js.checkPipes (embed s) = embed (checkPipes s)
  /\ Js.tick (embed s) = embed (tick s).
Proof.
  intros R Hn Ht.
  pose proof (reachable_exactCounters layout s R Hn Ht) as X.
  split; [now apply checkPipes_embed | now apply tick_embed].
Qed.

(** ** Whole numbers up to [2^53]

    [2^53] itself is a binary64 value, and the last whole number from
    which counting by one is exact. *)

Lemma add_ofZ_upto a b :
  In b [0; 1; 15] -> 0 <= a -> a + b <= 2 ^ 53 ->
  (Num.ofZ a + Num.ofZ b)%num = Num.ofZ (a + b).
Proof.
  intros Hb Ha H. cbn [In] in Hb.
  destruct (Z.eq_dec (a + b) (2 ^ 53)) as [E|N].
  - assert (A : a = 2 ^ 53 - b) by lia. subst a.
    destruct Hb as [Hb|[Hb|[Hb|[]]]]; subst b; vm_compute; reflexivity.
  - apply add_ofZ; lia.
Qed.

Lemma sub_ofZ_one L :
  0 <= L <= 2 ^ 53 -> (Num.ofZ L - Num.ofZ 1)%num = Num.ofZ (L - 1).
Proof.
  intros H. destruct (Z.eq_dec L (2 ^ 53)) as [->|N].
  - vm_compute. reflexivity.
  - apply sub_ofZ; lia.
Qed.

Lemma ltb_ofZ_pred L :
  0 <= L <= 2 ^ 53 -> (Num.ofZ (L - 1) <? Num.ofZ L)%num = true.
Proof.
  intros H.
  destruct (Z.eq_dec L 0) as [->|N0]; [vm_compute; reflexivity|].
  destruct (Z.eq_dec L (2 ^ 53)) as [->|N]; [vm_compute; reflexivity|].
  unfold Num.ltb, SFltb. rewrite compare_ofZ by lia.
  now rewrite (proj2 (Z.compare_lt_iff (L - 1) L)) by lia.
Qed.

Lemma geb_ofZ_upto a b :
  0 <= a < b -> b <= 2 ^ 53 -> (Num.ofZ a >=? Num.ofZ b)%num = false.
Proof.
  intros Ha Hb. destruct (Z.eq_dec b (2 ^ 53)) as [->|N].
  - unfold Num.geb, SFleb.
    change (Num.ofZ (2 ^ 53)) with (S754_finite false 4503599627370496 1).
    destruct (Z.eq_dec a 0) as [->|Na]; [reflexivity|].
    rewrite (ofZ_canon a) by lia. unfold canonZ. cbn [SFcompare].
    pose proof (log2_below_53 a ltac:(lia)) as La.
    now rewrite (proj2 (Z.compare_gt_iff 1 (Z.log2 a - 52))) by lia.
  - rewrite geb_ofZ by lia. apply Z.leb_gt. lia.
Qed.

(** ** The fold over the pipes, with the counters as numbers *)

Section JsPipeFold.

Variable s : Js.State.t.

Ltac js_step_cases acc p :=
  destruct acc as [sc lv v sd inv ge lost ps];
  unfold Js.pipeStep, Js.stepPipe, Js.hits;
  cbn [Js.Acc.score Js.Acc.lives Js.Acc.vy Js.Acc.rngSeed
       Js.Acc.invulnUntilTick Js.Acc.gameEnd Js.Acc.lostLifeThisTick
       Js.Acc.pipes];
  destruct (Pipe.passed p); cbn [negb andb orb];
  [| destruct (Js.collided s p), lost, (Js.passedNow s p);
     cbn [negb andb orb Js.Acc.score Js.Acc.lives Js.Acc.vy Js.Acc.rngSeed
          Js.Acc.invulnUntilTick Js.Acc.gameEnd Js.Acc.lostLifeThisTick
          Js.Acc.pipes] ].

Lemma js_pipeStep_pipes acc p :
  Js.Acc.pipes (Js.pipeStep s acc p) = Js.Acc.pipes acc ++ [Js.stepPipe s p].
Proof. js_step_cases acc p; reflexivity. Qed.

Lemma js_pipeStep_score acc p :
  Js.Acc.score (Js.pipeStep s acc p)
  = if Pipe.passed p then Js.Acc.score acc
    else (Js.Acc.score acc
          + (if Js.passedNow s p then Num.ofZ 1 else Num.ofZ 0))%num.
Proof. js_step_cases acc p; reflexivity. Qed.

Lemma js_pipeStep_lost acc p :
  Js.Acc.lostLifeThisTick (Js.pipeStep s acc p)
  = Js.Acc.lostLifeThisTick acc || Js.hits s p.
Proof. js_step_cases acc p; try reflexivity. now rewrite orb_false_r. Qed.

Lemma js_pipeStep_lives acc p :
  Js.Acc.lives (Js.pipeStep s acc p)
  = if Js.hits s p && negb (Js.Acc.lostLifeThisTick acc)
    then (Js.Acc.lives acc - Num.ofZ 1)%num else Js.Acc.lives acc.
Proof. js_step_cases acc p; reflexivity. Qed.

Lemma js_pipeStep_invuln acc p :
  Js.Acc.invulnUntilTick (Js.pipeStep s acc p) = Js.Acc.invulnUntilTick acc.
Proof. js_step_cases acc p; reflexivity. Qed.

Lemma js_fold_pipes ps : forall acc,
  Js.Acc.pipes (fold_left (Js.pipeStep s) ps acc)
  = Js.Acc.pipes acc ++ map (Js.stepPipe s) ps.
Proof.
  induction ps as [|p ps IH]; intros acc; cbn [fold_left map].
  - now rewrite app_nil_r.
  - rewrite IH, js_pipeStep_pipes, <- app_assoc. reflexivity.
Qed.

Lemma js_fold_lost ps : forall acc,
  Js.Acc.lostLifeThisTick (fold_left (Js.pipeStep s) ps acc)
  = Js.Acc.lostLifeThisTick acc || existsb (Js.hits s) ps.
Proof.
  induction ps as [|p ps IH]; intros acc; cbn [fold_left existsb].
  - now rewrite orb_false_r.
  - rewrite IH, js_pipeStep_lost, orb_assoc. reflexivity.
Qed.

Lemma js_fold_lives ps : forall acc,
  Js.Acc.lives (fold_left (Js.pipeStep s) ps acc)
  = if existsb (Js.hits s) ps && negb (Js.Acc.lostLifeThisTick acc)
    then (Js.Acc.lives acc - Num.ofZ 1)%num else Js.Acc.lives acc.
Proof.
  induction ps as [|p ps IH]; intros acc; cbn [fold_left existsb].
  - reflexivity.
  - rewrite IH, js_pipeStep_lives, js_pipeStep_lost.
    destruct (Js.hits s p), (Js.Acc.lostLifeThisTick acc),
      (existsb (Js.hits s) ps); reflexivity.
Qed.

Lemma js_fold_invuln ps : forall acc,
  Js.Acc.invulnUntilTick (fold_left (Js.pipeStep s) ps acc)
  = Js.Acc.invulnUntilTick acc.
Proof.
  induction ps as [|p ps IH]; intros acc; cbn [fold_left].
  - reflexivity.
  - now rewrite IH, js_pipeStep_invuln.
Qed.

(** The score is exact as long as the sum is at most [2^53]. *)
Lemma js_fold_score ps : forall acc S,
  Js.Acc.score acc = Num.ofZ S -> 0 <= S ->
  S + Z.of_nat
        (List.length
           (filter (fun p => negb (Pipe.passed p) && Js.passedNow s p) ps))
  <= 2 ^ 53 ->
  Js.Acc.score (fold_left (Js.pipeStep s) ps acc)
  = Num.ofZ
      (S + Z.of_nat
             (List.length
                (filter (fun p => negb (Pipe.passed p) && Js.passedNow s p)
                   ps))).
Proof.
  induction ps as [|p ps IH]; intros acc S E H0 H; cbn [fold_left filter].
  - cbn [List.length Z.of_nat]. now rewrite Z.add_0_r.
  - cbn [filter] in H.
    destruct (Pipe.passed p) eqn:P; cbn [negb andb] in *.
    + apply IH; try assumption. now rewrite js_pipeStep_score, P.
    + destruct (Js.passedNow s p) eqn:Q.
      * cbn [List.length] in *. rewrite Nat2Z.inj_succ in *.
        assert (E1 : Js.Acc.score (Js.pipeStep s acc p) = Num.ofZ (S + 1)).
        { rewrite js_pipeStep_score, P, Q, E.
          apply add_ofZ_upto; [cbn [In]; tauto | lia | lia]. }
        rewrite (IH _ (S + 1) E1) by lia. f_equal. lia.
      * assert (E1 : Js.Acc.score (Js.pipeStep s acc p) = Num.ofZ S).
        { rewrite js_pipeStep_score, P, Q, E.
          rewrite add_ofZ_upto by (cbn [In]; tauto || lia).
          now rewrite Z.add_0_r. }
        exact (IH _ S E1 H0 H).
Qed.

Lemma js_world_pipes acc : Js.Acc.pipes (Js.world s acc) = Js.Acc.pipes acc.
Proof.
  unfold Js.world, Js.worldHit.
  destruct (Js.Acc.gameEnd acc), (Js.touchesTop s), (Js.touchesBottom s);
    reflexivity.
Qed.

Lemma js_world_score acc : Js.Acc.score (Js.world s acc) = Js.Acc.score acc.
Proof.
  unfold Js.world, Js.worldHit.
  destruct (Js.Acc.gameEnd acc), (Js.touchesTop s), (Js.touchesBottom s);
    reflexivity.
Qed.

Lemma js_world_lives acc :
  Js.Acc.lives (Js.world s acc)
  = if negb (Js.Acc.gameEnd acc) && Js.touchesWorld s && Js.canLoseLife s acc
    then (Js.Acc.lives acc - Num.ofZ 1)%num else Js.Acc.lives acc.
Proof.
  unfold Js.world, Js.worldHit, Js.touchesWorld.
  destruct (Js.Acc.gameEnd acc), (Js.touchesTop s), (Js.touchesBottom s),
    (Js.canLoseLife s acc); reflexivity.
Qed.

Lemma js_world_invuln acc :
  Js.Acc.invulnUntilTick (Js.world s acc)
  = if negb (Js.Acc.gameEnd acc) && Js.touchesWorld s && Js.canLoseLife s acc
    then (Js.State.tickCount s + Js.INVULN_TICKS)%num
    else Js.Acc.invulnUntilTick acc.
Proof.
  unfold Js.world, Js.worldHit, Js.touchesWorld.
  destruct (Js.Acc.gameEnd acc), (Js.touchesTop s), (Js.touchesBottom s),
    (Js.canLoseLife s acc); reflexivity.
Qed.

End JsPipeFold.

Lemma js_existsb_hits_colliding s :
  existsb (Js.hits s) (Js.State.pipes s)
  = negb (Nat.eqb (List.length (Js.colliding s)) 0).
Proof.
  unfold Js.colliding.
  induction (Js.State.pipes s) as [|p ps IH]; cbn [existsb filter];
    [reflexivity|].
  destruct (Js.hits s p); cbn [orb List.length]; [reflexivity | exact IH].
Qed.

Lemma js_noCollision_existsb s :
  Js.noCollision s = negb (existsb (Js.hits s) (Js.State.pipes s)).
Proof.
  unfold Js.noCollision.
  induction (Js.State.pipes s) as [|p ps IH]; cbn [forallb existsb];
    [reflexivity|].
  rewrite IH. now destruct (Js.hits s p).
Qed.

Lemma js_newlyPassed_stepPipe s ps :
  newlyPassed ps (map (Js.stepPipe s) ps)
  = Z.of_nat
      (List.length
         (filter (fun p => negb (Pipe.passed p) && Js.passedNow s p) ps)).
Proof.
  unfold newlyPassed. f_equal.
  induction ps as [|p ps IH]; [reflexivity|].
  cbn [map combine filter fst snd].
  assert (E : negb (Pipe.passed p) && Pipe.passed (Js.stepPipe s p)
              = negb (Pipe.passed p) && Js.passedNow s p).
  { unfold Js.stepPipe. destruct (Pipe.passed p) eqn:P; [reflexivity|].
    destruct (Js.passedNow s p); cbn [markPassed Pipe.passed negb andb];
      [reflexivity | exact P]. }
  rewrite E.
  destruct (negb (Pipe.passed p) && Js.passedNow s p); cbn [List.length];
    now rewrite IH.
Qed.

(** [Js.checkPipes], field by field. *)

Lemma js_checkPipes_pipes s :
  Js.State.pipes (Js.checkPipes s) = map (Js.stepPipe s) (Js.State.pipes s).
Proof.
  unfold Js.checkPipes.
  destruct (Js.State.pipes s) as [|p ps] eqn:E; [reflexivity|].
  cbn [Js.State.pipes].
  rewrite js_world_pipes. unfold Js.afterPipes.
  now rewrite js_fold_pipes, E.
Qed.

(** The lives after [Js.checkPipes]: the first pipe hit subtracts one,
    otherwise the world bounds may subtract one. *)
Lemma js_checkPipes_lives s :
  Js.State.lives (Js.checkPipes s)
  = if existsb (Js.hits s) (Js.State.pipes s) || Js.worldDeductsLife s
    then (Js.State.lives s - Num.ofZ 1)%num else Js.State.lives s.
Proof.
  unfold Js.checkPipes, Js.worldDeductsLife.
  destruct (Js.State.pipes s) as [|p ps] eqn:E; [reflexivity|].
  cbn [Js.State.lives].
  rewrite js_world_lives. unfold Js.canLoseLife, Js.afterPipes.
  rewrite js_fold_lives, js_fold_lost, E.
  cbn [Js.start Js.Acc.lostLifeThisTick Js.Acc.lives negb orb].
  rewrite andb_true_r.
  destruct (existsb (Js.hits s) (p :: ps)); cbn [negb orb].
  - now rewrite !andb_false_r.
  - reflexivity.
Qed.

Lemma js_worldDeductsLife_noHit s :
  Js.worldDeductsLife s = true ->
  existsb (Js.hits s) (Js.State.pipes s) = false.
Proof.
  unfold Js.worldDeductsLife, Js.canLoseLife, Js.afterPipes.
  destruct (Js.State.pipes s) as [|p ps] eqn:E; [reflexivity|].
  rewrite js_fold_lost.
  cbn [Js.start Js.Acc.lostLifeThisTick orb].
  destruct (existsb (Js.hits s) (p :: ps)); [|reflexivity].
  now rewrite !andb_false_r.
Qed.

Lemma js_checkPipes_invuln s :
  Js.State.invulnUntil (Js.checkPipes s)
  = if Js.worldDeductsLife s
    then (Js.State.tickCount s + Js.INVULN_TICKS)%num
    else Js.State.invulnUntil s.
Proof.
  unfold Js.checkPipes, Js.worldDeductsLife.
  destruct (Js.State.pipes s) as [|p ps] eqn:E; [reflexivity|].
  cbn [Js.State.invulnUntil].
  rewrite js_world_invuln. unfold Js.afterPipes at 3.
  now rewrite js_fold_invuln.
Qed.

Lemma js_checkPipes_score s S :
  Js.State.score s = Num.ofZ S -> 0 <= S ->
  S + newlyPassed (Js.State.pipes s) (Js.State.pipes (Js.checkPipes s))
  <= 2 ^ 53 ->
  Js.State.score (Js.checkPipes s)
  = Num.ofZ
      (S + newlyPassed (Js.State.pipes s) (Js.State.pipes (Js.checkPipes s))).
Proof.
  rewrite js_checkPipes_pipes, js_newlyPassed_stepPipe. intros E H0 H.
  unfold Js.checkPipes.
  destruct (Js.State.pipes s) as [|p ps] eqn:P.
  - cbn [Js.State.score filter List.length Z.of_nat].
    now rewrite Z.add_0_r.
  - cbn [Js.State.score]. rewrite js_world_score. unfold Js.afterPipes.
    rewrite P. now apply js_fold_score.
Qed.

Lemma js_moveBird_frame (js : Js.State.t) :
  Js.State.pipes (Js.moveBird js) = Js.State.pipes js
  /\ Js.State.lives (Js.moveBird js) = Js.State.lives js
  /\ Js.State.score (Js.moveBird js) = Js.State.score js
  /\ Js.State.paused (Js.moveBird js) = Js.State.paused js
  /\ Js.State.rngSeed (Js.moveBird js) = Js.State.rngSeed js
  /\ Js.State.invulnUntil (Js.moveBird js) = Js.State.invulnUntil js
  /\ Js.State.ghosts (Js.moveBird js) = Js.State.ghosts js.
Proof.
  unfold Js.moveBird. destruct (Js.State.gameEnd js); repeat split.
Qed.

Lemma movePipes_shift (ps : list Pipe.t) :
  filter (fun p => (Pipe.x p + Constants.PIPE_WIDTH >? Num.ofZ 0)%num)
    (map (fun p =>
            {| Pipe.x := (Pipe.x p - Physics.PIPE_SPEED)%num;
               Pipe.gapY := Pipe.gapY p;
               Pipe.gapHeight := Pipe.gapHeight p;
               Pipe.passed := Pipe.passed p |}) ps)
  = map shiftPipe (filter staysOnScreen ps).
Proof.
  change (fun p : Pipe.t =>
            {| Pipe.x := (Pipe.x p - Physics.PIPE_SPEED)%num;
               Pipe.gapY := Pipe.gapY p;
               Pipe.gapHeight := Pipe.gapHeight p;
               Pipe.passed := Pipe.passed p |}) with shiftPipe.
  rewrite filter_map_comm. reflexivity.
Qed.

(** ** Lives *)

(** With [2^53 + 2] lives one call takes two: the difference
    [2^53 + 1] is no binary64 value and rounds to [2^53]. *)
Lemma checkPipes_takes_two_lives :
  Js.State.lives hugeLivesState = Num.ofZ 9007199254740994
  /\ (2 <= List.length (Js.colliding hugeLivesState))%nat
  /\ Js.State.lives (Js.checkPipes hugeLivesState) = Num.ofZ 9007199254740992
  /\ (Js.State.lives (Js.checkPipes hugeLivesState) + Num.ofZ 2
      =? Js.State.lives hugeLivesState)%num = true
  /\ 9007199254740992 < 9007199254740994 - 1.
Proof.
  split; [reflexivity|]. split; [vm_compute; apply le_n|].
  split; [vm_compute; reflexivity|]. split; [vm_compute; reflexivity|]. lia.
Qed.

(** C1, as amended.  When the lives are a whole number [L] from 0 to [2^53], one
    call of [checkPipes] leaves [L] or [L - 1] lives, and [L - 1] is
    less than [L] as a number; when two or more pipes that still count
    collide with the bird it leaves exactly [L - 1], whether or not the
    bird also touches the world bounds.  Nothing is assumed of the
    other fields. *)
Theorem checkPipes_single_life_loss (js : Js.State.t) (L : Z) :
  Js.State.lives js = Num.ofZ L ->
  0 <= L <= 2 ^ 53 ->
  (Js.State.lives (Js.checkPipes js) = Num.ofZ L
   \/ Js.State.lives (Js.checkPipes js) = Num.ofZ (L - 1))
  /\ ((2 <= List.length (Js.colliding js))%nat ->
      Js.State.lives (Js.checkPipes js) = Num.ofZ (L - 1))
  /\ (Num.ofZ (L - 1) <? Num.ofZ L)%num = true.
Proof.
  intros E H. rewrite js_checkPipes_lives, js_existsb_hits_colliding, E.
  rewrite sub_ofZ_one by exact H.
  split; [|split].
  - destruct (_ || _); [now right | now left].
  - intros C. destruct (List.length (Js.colliding js)); [lia|]. reflexivity.
  - now apply ltb_ofZ_pred.
Qed.

Lemma checkPipes_single_life_loss_witness :
  (2 <= List.length (Js.colliding (embed crowdedState)))%nat
  /\ Js.touchesWorld (embed crowdedState) = true
  /\ Js.State.lives (embed crowdedState) = Num.ofZ 3
  /\ Js.State.lives (Js.checkPipes (embed crowdedState)) = Num.ofZ (3 - 1).
Proof.
  assert (H : (2 <= List.length (Js.colliding (embed crowdedState)))%nat)
    by (vm_compute; apply le_n).
  split; [exact H|]. split; [vm_compute; reflexivity|].
  split; [reflexivity|].
  exact (proj1 (proj2 (checkPipes_single_life_loss (embed crowdedState) 3
                         eq_refl ltac:(lia))) H).
Defined.

(** At tick [2^53 - 14] the end of the window, [2^53 + 1], rounds to
    [2^53]: the window is one tick short, and the world bounds take the
    next life at tick [2^53], fourteen ticks after the first. *)
Lemma invulnerability_rounds_short :
  Js.State.tickCount lateTickState = Num.ofZ 9007199254740978
  /\ Js.worldDeductsLife lateTickState = true
  /\ Js.State.invulnUntil (Js.checkPipes lateTickState)
     = Num.ofZ 9007199254740992
  /\ 9007199254740992 <> 9007199254740978 + 15
  /\ Js.State.invulnUntil lateNextState
     = Js.State.invulnUntil (Js.checkPipes lateTickState)
  /\ Js.State.tickCount lateNextState = Num.ofZ 9007199254740992
  /\ 9007199254740978 <= 9007199254740992 < 9007199254740978 + 15
  /\ Js.touchesWorld lateNextState = true
  /\ Js.noCollision lateNextState = true
  /\ Js.State.lives lateNextState = Num.ofZ 2
  /\ Js.State.lives (Js.checkPipes lateNextState) = Num.ofZ 1.
Proof.
  split; [reflexivity|]. split; [vm_compute; reflexivity|].
  split; [vm_compute; reflexivity|]. split; [lia|].
  split; [reflexivity|]. split; [reflexivity|]. split; [lia|].
  split; [vm_compute; reflexivity|]. split; [vm_compute; reflexivity|].
  split; [reflexivity|]. vm_compute. reflexivity.
Qed.

(** C4, as amended.  When the world bounds take a life at a tick count
    that is a whole number [T] with [T + 15] at most [2^53], one is
    subtracted from the lives and the window of invulnerability is set
    to end at [T + 15]; while a later state is inside that window,
    touching the world bounds without hitting a pipe leaves the lives
    unchanged. *)
Theorem world_life_loss_opens_invulnerability (js : Js.State.t) (T : Z) :
  Js.worldDeductsLife js = true ->
  Js.State.tickCount js = Num.ofZ T ->
  0 <= T -> T + 15 <= 2 ^ 53 ->
  Js.State.lives (Js.checkPipes js) = (Js.State.lives js - Num.ofZ 1)%num
  /\ Js.State.invulnUntil (Js.checkPipes js) = Num.ofZ (T + 15)
  /\ forall (js' : Js.State.t) (T' : Z),
       Js.State.invulnUntil js' = Js.State.invulnUntil (Js.checkPipes js) ->
       Js.State.tickCount js' = Num.ofZ T' ->
       T <= T' < T + 15 ->
       Js.touchesWorld js' = true ->
       Js.noCollision js' = true ->
       Js.State.lives (Js.checkPipes js') = Js.State.lives js'.
Proof.
  intros W E H0 H.
  assert (I : Js.State.invulnUntil (Js.checkPipes js) = Num.ofZ (T + 15)).
  { rewrite js_checkPipes_invuln, W, E. unfold Js.INVULN_TICKS.
    apply add_ofZ_upto; [cbn [In]; tauto | lia | lia]. }
  split; [|split; [exact I|]].
  - now rewrite js_checkPipes_lives, W, orb_true_r.
  - intros js' T' Hi Ht HT _ Hn.
    rewrite js_checkPipes_lives.
    rewrite js_noCollision_existsb in Hn. apply negb_true_iff in Hn.
    rewrite Hn. cbn [orb].
    assert (D : Js.worldDeductsLife js' = false); [|now rewrite D].
    unfold Js.worldDeductsLife, Js.canLoseLife, Js.afterPipes.
    destruct (Js.State.pipes js') as [|p ps]; [reflexivity|].
    rewrite js_fold_invuln. cbn [Js.start Js.Acc.invulnUntilTick].
    rewrite Hi, I, Ht, geb_ofZ_upto by lia.
    now rewrite andb_false_r.
Qed.

Lemma world_life_loss_opens_invulnerability_witness :
  Js.worldDeductsLife (embed sunkState) = true
  /\ Js.State.lives (Js.checkPipes (embed sunkState)) = Num.ofZ 2
  /\ Js.State.invulnUntil (Js.checkPipes (embed sunkState)) = Num.ofZ (10 + 15)
  /\ Js.State.lives (Js.checkPipes (Js.checkPipes (embed sunkState)))
     = Num.ofZ 2.
Proof.
  assert (W : Js.worldDeductsLife (embed sunkState) = true)
    by (vm_compute; reflexivity).
  destruct (world_life_loss_opens_invulnerability (embed sunkState) 10
              W eq_refl ltac:(lia) ltac:(lia)) as (HL & HI & HN).
  split; [exact W|]. split; [rewrite HL; vm_compute; reflexivity|].
  split; [exact HI|].
  rewrite (HN (Js.checkPipes (embed sunkState)) 10).
  - rewrite HL. vm_compute. reflexivity.
  - reflexivity.
  - reflexivity.
  - lia.
  - vm_compute. reflexivity.
  - vm_compute. reflexivity.
Defined.

(** ** Score *)

(** At a score of [2^53] a pipe is marked as passed and the score stays
    as it is: [2^53 + 1] is no binary64 value. *)
Lemma score_stops_at_2_53 :
  Js.State.score fullScoreState = Num.ofZ 9007199254740992
  /\ newlyPassed (Js.State.pipes fullScoreState)
       (Js.State.pipes (Js.checkPipes fullScoreState)) = 1
  /\ Js.State.score (Js.checkPipes fullScoreState) = Num.ofZ 9007199254740992
  /\ (Js.State.score (Js.checkPipes fullScoreState)
      =? Js.State.score fullScoreState)%num = true
  /\ 9007199254740992 <> 9007199254740992 + 1.
Proof.
  split; [reflexivity|]. split; [vm_compute; reflexivity|].
  split; [vm_compute; reflexivity|]. split; [vm_compute; reflexivity|]. lia.
Qed.

(** C5, as amended.  When the score is a whole number [S] and [S] plus
    the number of pipes whose [passed] flag goes from false to true in
    this call is at most [2^53], the new score is that sum; the number
    is not negative, so the score does not decrease, and no flag goes
    back from true to false.  A pipe is counted only while its flag is
    false, [moveBird] keeps the pipes, and [movePipes] returns the
    pipes that stay on the screen, each moved with its flag as it was;
    hence a pipe is counted at most once. *)
Theorem checkPipes_scores_each_pipe_once (js : Js.State.t) (S : Z) :
  Js.State.score js = Num.ofZ S ->
  0 <= S ->
  S + newlyPassed (Js.State.pipes js) (Js.State.pipes (Js.checkPipes js))
  <= 2 ^ 53 ->
  Js.State.score (Js.checkPipes js)
  = Num.ofZ
      (S + newlyPassed (Js.State.pipes js) (Js.State.pipes (Js.checkPipes js)))
  /\ 0 <= newlyPassed (Js.State.pipes js) (Js.State.pipes (Js.checkPipes js))
  /\ (forall (i : nat) (p q : Pipe.t),
        nth_error (Js.State.pipes js) i = Some p ->
        nth_error (Js.State.pipes (Js.checkPipes js)) i = Some q ->
        Pipe.passed p = true -> q = p)
  /\ Js.State.pipes (Js.moveBird js) = Js.State.pipes js
  /\ Js.State.pipes (Js.movePipes js)
     = map shiftPipe (filter staysOnScreen (Js.State.pipes js))
  /\ (forall p : Pipe.t, Pipe.passed (shiftPipe p) = Pipe.passed p).
Proof.
  intros E H0 H.
  split; [now apply js_checkPipes_score|].
  split; [apply Nat2Z.is_nonneg|].
  split; [|split; [apply js_moveBird_frame|split; [|reflexivity]]].
  - intros i p q Hp Hq P.
    rewrite js_checkPipes_pipes, nth_error_map, Hp in Hq. cbn in Hq.
    injection Hq as <-. unfold Js.stepPipe. now rewrite P.
  - unfold Js.movePipes. cbn [Js.State.pipes]. apply movePipes_shift.
Qed.

Lemma checkPipes_scores_each_pipe_once_witness :
  Js.State.score (embed passingState) = Num.ofZ 0
  /\ Js.State.score (Js.checkPipes (embed passingState)) = Num.ofZ 1
  /\ nth_error (Js.State.pipes (Js.checkPipes (embed passingState))) 0
     = Some (markPassed pipeBehind).
Proof.
  destruct (checkPipes_scores_each_pipe_once (embed passingState) 0
              eq_refl ltac:(lia) ltac:(vm_compute; discriminate))
    as (Hs & _ & Hk & _).
  split; [reflexivity|]. split.
  - rewrite Hs. vm_compute. reflexivity.
  - destruct (nth_error (Js.State.pipes (Js.checkPipes (embed passingState))) 0)
      as [q|] eqn:Q.
    + f_equal.
      exact (Hk 0%nat (markPassed pipeBehind) q eq_refl Q eq_refl).
    + vm_compute in Q. discriminate Q.
Defined.

(** * The band of the bird *)

Lemma ltb_false_leb (x y : number) :
  x <> Num.NaN -> y <> Num.NaN -> (x <? y)%num = false -> (y <=? x)%num = true.
Proof.
  unfold Num.ltb, Num.leb, SFltb, SFleb, Num.NaN.
  destruct x as [sa|sa| |sa ma ea], y as [sb|sb| |sb mb eb];
    cbn [SFcompare]; intros Nx Ny; try congruence; try reflexivity;
    try (destruct sa; (discriminate || reflexivity));
    try (destruct sb; (discriminate || reflexivity));
    try (destruct sa, sb; (discriminate || reflexivity)).
  assert (A : Pos.compare_cont Eq mb ma = CompOpp (Pos.compare_cont Eq ma mb))
    by (symmetry; apply (Pos.compare_cont_antisym ma mb Eq)).
  rewrite (Z.compare_antisym ea eb), A.
  destruct sa, sb; try discriminate; try reflexivity;
    destruct (ea ?= eb); cbn [CompOpp]; try discriminate; try reflexivity;
    destruct (Pos.compare_cont Eq ma mb); cbn [CompOpp];
    discriminate || reflexivity.
Qed.

Lemma rounded_not_nan s x : rounded s x -> x <> Num.NaN.
Proof. intros R. inversion R; discriminate. Qed.

Lemma normalize_not_nan z e :
  binary_normalize Num.prec Num.emax z e false <> Num.NaN.
Proof.
  destruct z as [|p|p]; cbn [binary_normalize]; [discriminate| |];
    eapply rounded_not_nan; apply binary_round_rounded.
Qed.

Lemma add_not_nan (x y : number) :
  Num.isFinite x = true -> y <> Num.NaN -> (x + y)%num <> Num.NaN.
Proof.
  unfold Num.add, Num.NaN.
  destruct x as [sa|sa| |sa ma ea], y as [sb|sb| |sb mb eb];
    cbn [SFadd Num.isFinite]; intros Fx Ny; try discriminate; try congruence.
  - destruct sa, sb; discriminate.
  - apply normalize_not_nan.
Qed.

Lemma add_not_nan_l (x y : number) :
  x <> Num.NaN -> Num.isFinite y = true -> (x + y)%num <> Num.NaN.
Proof.
  unfold Num.add, Num.NaN.
  destruct x as [sa|sa| |sa ma ea], y as [sb|sb| |sb mb eb];
    cbn [SFadd Num.isFinite]; intros Nx Fy; try discriminate; try congruence.
  - destruct sa, sb; discriminate.
  - apply normalize_not_nan.
Qed.



Lemma band_0 : between (Num.ofZ 0) (Num.ofZ 385) (Num.ofZ 0) = true.
Proof. vm_compute. reflexivity. Qed.

Lemma band_385 : between (Num.ofZ 0) (Num.ofZ 385) (Num.ofZ 385) = true.
Proof. vm_compute. reflexivity. Qed.

Lemma zero_le_max : (Num.ofZ 0 <=? Physics.MAX_VELOCITY)%num = true.
Proof. vm_compute. reflexivity. Qed.

Lemma max_le_max :
  (Physics.MAX_VELOCITY <=? Physics.MAX_VELOCITY)%num = true.
Proof. vm_compute. reflexivity. Qed.

Lemma moveBird_in_band (s : State.t) :
  State.gameEnd s = false ->
  Num.isFinite (State.birdY s) = true ->
  State.birdVY s <> Num.NaN ->
  between (Num.ofZ 0) (Num.ofZ 385) (State.birdY (moveBird s)) = true
  /\ (State.birdVY (moveBird s) <=? Physics.MAX_VELOCITY)%num = true
  /\ State.birdVY (moveBird s) <> Num.NaN.
Proof.
  intros Hrun Fy Nv. unfold moveBird. rewrite Hrun.
  cbn [State.birdY State.birdVY].
  change (Viewport.CANVAS_HEIGHT - Birb.HEIGHT / Num.ofZ 2)%num
    with (Num.ofZ 385).
  set (v := (State.birdVY s + Physics.GRAVITY)%num).
  assert (Nv1 : v <> Num.NaN) by (apply add_not_nan_l; [exact Nv|reflexivity]).
  set (vyNext := if (v >? Physics.MAX_VELOCITY)%num
                 then Physics.MAX_VELOCITY else v).
  assert (V : (vyNext <=? Physics.MAX_VELOCITY)%num = true
              /\ vyNext <> Num.NaN).
  { unfold vyNext. destruct (v >? Physics.MAX_VELOCITY)%num eqn:E.
    - split; [exact max_le_max | discriminate].
    - split; [|exact Nv1]. apply ltb_false_leb; [discriminate|exact Nv1|exact E]. }
  destruct V as [V1 V2].
  set (yNext := (State.birdY s + vyNext)%num).
  assert (Ny : yNext <> Num.NaN) by (now apply add_not_nan).
  split; [|split].
  - unfold Num.gtb, Num.ltb.
    destruct (SFltb yNext (Num.ofZ 0)) eqn:A; [exact band_0|].
    destruct (SFltb (Num.ofZ 385) yNext) eqn:B; [exact band_385|].
    unfold between. apply andb_true_iff. split.
    + apply ltb_false_leb; [exact Ny|discriminate|exact A].
    + apply ltb_false_leb; [discriminate|exact Ny|exact B].
  - destruct (_ || _)%bool; [exact zero_le_max | exact V1].
  - destruct (_ || _)%bool; [discriminate | exact V2].
Qed.





Lemma tick_in_band s :
  running s = true ->
  Num.isFinite (State.birdY s) = true ->
  State.birdVY s <> Num.NaN ->
  between (Num.ofZ 0) (Num.ofZ 385) (State.birdY (tick s)) = true.
Proof.
  intros R F N. rewrite (tick_running s R). unfold setTickCount.
  cbn [State.birdY].
  rewrite (proj1 (checkPipes_frame _)).
  change (State.birdY (movePipes (moveBird s))) with (State.birdY (moveBird s)).
  apply moveBird_in_band; try assumption.
  unfold running in R. now destruct (State.gameEnd s).
Qed.


Lemma moveBird_velocity (s : State.t) :
  State.gameEnd s = false ->
  (State.birdVY (moveBird s) >? Physics.MAX_VELOCITY)%num = false
  /\ (((State.birdY (moveBird s) =? Num.ofZ 0)
       || (State.birdY (moveBird s) =? Num.ofZ 385))%num = true ->
      State.birdVY (moveBird s) = Num.ofZ 0).
Proof.
  intros Hrun. unfold moveBird. rewrite Hrun.
  cbn [State.birdY State.birdVY].
  change (Viewport.CANVAS_HEIGHT - Birb.HEIGHT / Num.ofZ 2)%num
    with (Num.ofZ 385).
  set (v := (State.birdVY s + Physics.GRAVITY)%num).
  set (vyNext := if (v >? Physics.MAX_VELOCITY)%num
                 then Physics.MAX_VELOCITY else v).
  set (yNext := (State.birdY s + vyNext)%num).
  assert (V : (vyNext >? Physics.MAX_VELOCITY)%num = false).
  { unfold vyNext. destruct (v >? Physics.MAX_VELOCITY)%num eqn:E;
      [reflexivity | exact E]. }
  split.
  - destruct (_ || _)%bool; [reflexivity | exact V].
  - now intros ->.
Qed.

(** A height that is not a number stays so: every comparison of the
    clamp is false for it. *)
Lemma moveBird_nan (s : State.t) :
  State.gameEnd s = false -> State.birdY s = Num.NaN ->
  State.birdY (moveBird s) = Num.NaN.
Proof.
  intros Hrun E. unfold moveBird. rewrite Hrun, E.
  cbn [State.birdY].
  set (vyNext := if (State.birdVY s + Physics.GRAVITY >? _)%num
                 then _ else _).
  assert (A : (Num.NaN + vyNext)%num = Num.NaN) by now destruct vyNext.
  rewrite A. reflexivity.
Qed.

(** X1.  In a game that has not ended, [moveBird] gives the bird a
    velocity that is not above [MAX_VELOCITY], and velocity 0 when it
    sits on either bound.  When the height is finite and the velocity
    is a number, it leaves the bird between 0 and 385, with a velocity
    that is a number of at most [MAX_VELOCITY]; a height that is not a
    number stays so. *)
Theorem moveBird_keeps_bird_in_band (s : State.t) :
  State.gameEnd s = false ->
  (State.birdVY (moveBird s) >? Physics.MAX_VELOCITY)%num = false
  /\ (((State.birdY (moveBird s) =? Num.ofZ 0)
       || (State.birdY (moveBird s) =? Num.ofZ 385))%num = true ->
      State.birdVY (moveBird s) = Num.ofZ 0)
  /\ (Num.isFinite (State.birdY s) = true ->
      State.birdVY s <> Num.NaN ->
      between (Num.ofZ 0) (Num.ofZ 385) (State.birdY (moveBird s)) = true
      /\ (State.birdVY (moveBird s) <=? Physics.MAX_VELOCITY)%num = true
      /\ State.birdVY (moveBird s) <> Num.NaN)
  /\ (State.birdY s = Num.NaN -> State.birdY (moveBird s) = Num.NaN).
Proof.
  intros G. destruct (moveBird_velocity s G) as [A B].
  split; [exact A|]. split; [exact B|]. split.
  - intros F N. now apply moveBird_in_band.
  - now apply moveBird_nan.
Qed.

Lemma moveBird_keeps_bird_in_band_witness :
  between (Num.ofZ 0) (Num.ofZ 385) (State.birdY (moveBird hoverState)) = true
  /\ (State.birdVY (moveBird hoverState) >? Physics.MAX_VELOCITY)%num = false.
Proof.
  destruct (moveBird_keeps_bird_in_band hoverState eq_refl) as (A & _ & B & _).
  split; [|exact A].
  apply B; [reflexivity | discriminate].
Defined.



(** * Ticks, with the counters as numbers *)

(** X6.  One [tick] on whole-number counters in the exact range: the
    tick count grows by one exactly when the game is neither ended nor
    paused; at most one life is lost and none is gained; the score does
    not decrease; no pipe is added; the pause flag and the ghosts are
    kept; and after a tick that ran on a bird with a finite height and
    a velocity that is a number, the bird is between 0 and 385. *)
Theorem tick_step (js : Js.State.t) (L S T I : Z) :
  Js.wholeCounters js L S T I ->
  Js.State.tickCount (Js.tick js)
  = Num.ofZ (T + (if Js.running js then 1 else 0))
  /\ (exists L' : Z,
        Js.State.lives (Js.tick js) = Num.ofZ L' /\ L - 1 <= L' <= L)
  /\ (exists S' : Z, Js.State.score (Js.tick js) = Num.ofZ S' /\ S <= S')
  /\ (List.length (Js.State.pipes (Js.tick js))
      <= List.length (Js.State.pipes js))%nat
  /\ Js.State.paused (Js.tick js) = Js.State.paused js
  /\ Js.State.ghosts (Js.tick js) = Js.State.ghosts js
  /\ (Js.running js = true ->
      Num.isFinite (Js.State.birdY js) = true ->
      Js.State.birdVY js <> Num.NaN ->
      between (Num.ofZ 0) (Num.ofZ 385) (Js.State.birdY (Js.tick js)) = true).
Proof.
  intros W. destruct (wholeCounters_embed js L S T I W) as [E X].
  set (v := wholeView js L S T I) in *.
  destruct (tick_facts v) as (Ht & Hl & Hs & Hp & Hpa & Hg).
  assert (Q : Js.tick js = embed (tick v))
    by (rewrite E at 1; now apply tick_embed).
  rewrite Q.
  cbn [embed Js.State.tickCount Js.State.lives Js.State.score Js.State.pipes
       Js.State.paused Js.State.ghosts Js.State.birdY].
  change (Js.running js) with (running v).
  split; [rewrite Ht; reflexivity|].
  split; [exists (State.lives (tick v)); split; [reflexivity|exact Hl]|].
  split; [exists (State.score (tick v)); split; [reflexivity|exact Hs]|].
  split; [exact Hp|]. split; [exact Hpa|]. split; [exact Hg|].
  intros R F N. now apply tick_in_band.
Qed.

Lemma tick_step_witness :
  Js.State.tickCount (Js.tick (embed bumpState)) = Num.ofZ (0 + 1)
  /\ between (Num.ofZ 0) (Num.ofZ 385)
       (Js.State.birdY (Js.tick (embed bumpState))) = true.
Proof.
  assert (W : Js.wholeCounters (embed bumpState) 3 0 0 0)
    by (unfold Js.wholeCounters;
        repeat split; try reflexivity; try (vm_compute; discriminate)).
  destruct (tick_step (embed bumpState) 3 0 0 0 W)
    as (A & _ & _ & _ & _ & _ & B).
  split; [exact A|]. apply B.
  - reflexivity.
  - reflexivity.
  - discriminate.
Defined.

(** X8.  A tick that runs and scrolls the last pipes off the screen (or
    finds none) ends the game: the result is the moved bird with no
    pipes, [gameEnd] raised and the tick counted, exactly when the tick
    count is a whole number below [2^53]; lives, score, seed and
    window of invulnerability are not touched, whatever they hold and
    wherever the bird is. *)
Theorem tick_ends_game_without_pipes (js : Js.State.t) (T : Z) :
  Js.running js = true ->
  Js.State.pipes (Js.movePipes js) = [] ->
  Js.State.tickCount js = Num.ofZ T ->
  0 <= T -> T + 1 <= 2 ^ 53 ->
  Js.tick js
  = {| Js.State.birdY := Js.State.birdY (Js.moveBird js);
       Js.State.birdVY := Js.State.birdVY (Js.moveBird js);
       Js.State.pipes := [];
       Js.State.lives := Js.State.lives js;
       Js.State.score := Js.State.score js;
       Js.State.gameEnd := true;
       Js.State.paused := Js.State.paused js;
       Js.State.rngSeed := Js.State.rngSeed js;
       Js.State.tickCount := Num.ofZ (T + 1);
       Js.State.invulnUntil := Js.State.invulnUntil js;
       Js.State.ghosts := Js.State.ghosts js |}.
Proof.
  intros R E Ht H0 HT. unfold Js.tick.
  unfold Js.running in R. apply negb_true_iff in R. rewrite R.
  destruct (js_moveBird_frame js) as (Mp & Ml & Ms & Mpa & Mr & Mi & Mg).
  assert (M : Js.State.pipes (Js.movePipes (Js.moveBird js)) = []).
  { unfold Js.movePipes in *. cbn [Js.State.pipes] in *.
    rewrite Mp. exact E. }
  revert Mp Ml Ms Mpa Mr Mi Mg M.
  generalize (Js.moveBird js). intros m Mp Ml Ms Mpa Mr Mi Mg M.
  unfold Js.checkPipes. rewrite M.
  cbn [Js.State.birdY Js.State.birdVY Js.State.pipes Js.State.lives
       Js.State.score Js.State.gameEnd Js.State.paused Js.State.rngSeed
       Js.State.tickCount Js.State.invulnUntil Js.State.ghosts Js.movePipes].
  rewrite Ht, add_ofZ_upto by (cbn [In]; tauto || lia).
  rewrite Ml, Ms, Mpa, Mr, Mi, Mg. reflexivity.
Qed.

Lemma tick_ends_game_without_pipes_witness :
  Js.State.gameEnd (Js.tick (embed risingState)) = true
  /\ Js.State.lives (Js.tick (embed risingState)) = Num.ofZ 3
  /\ Js.State.tickCount (Js.tick (embed risingState)) = Num.ofZ (0 + 1).
Proof.
  rewrite (tick_ends_game_without_pipes (embed risingState) 0
             eq_refl eq_refl eq_refl ltac:(lia) ltac:(lia)).
  repeat split.
Defined.

Lemma js_ticks_frozen n js :
  Js.running js = false -> Nat.iter n Js.tick js = js.
Proof.
  intros R. induction n as [|n IH]; [reflexivity|].
  rewrite Nat.iter_succ, IH. unfold Js.tick. unfold Js.running in R.
  apply negb_false_iff in R. now rewrite R.
Qed.

Lemma exactCounters_tick s :
  exactCounters s -> State.tickCount s + 16 < 2 ^ 53 ->
  State.gameEnd (tick s) = false ->
  exactCounters (tick s).
Proof.
  intros X HT G.
  destruct (running s) eqn:R; [|now rewrite tick_frozen].
  pose proof (exactCounters_advance s X) as (Hl & Hs & Hu & Ht & Ht' & Hi).
  rewrite (tick_running s R) in *. set (q := movePipes (moveBird s)) in *.
  assert (Tq : State.tickCount q = State.tickCount s)
    by (destruct (moveBird_frame s) as (_ & _ & _ & _ & _ & T & _); exact T).
  unfold setTickCount in G. cbn [State.gameEnd] in G.
  pose proof (checkPipes_lives_bounds q) as B.
  pose proof (checkPipes_score q) as C.
  pose proof (unpassed_stepPipe q (State.pipes q)) as U.
  pose proof (checkPipes_invuln_cases q) as Iq.
  destruct (checkPipes_gameEnd_facts q) as (E0 & E1).
  unfold exactCounters, setTickCount.
  cbn [State.lives State.score State.pipes State.tickCount State.invulnUntil].
  rewrite checkPipes_pipes.
  assert (L0 : 0 <= State.lives (checkPipes q)).
  { destruct (State.pipes q) as [|p ps] eqn:P.
    - rewrite E0 in G by reflexivity. discriminate G.
    - rewrite E1 in G by discriminate.
      apply andb_false_iff in G as [G|G];
        [apply Z.ltb_ge in G | apply Z.leb_gt in G]; lia. }
  unfold INVULN_TICKS in Iq.
  repeat split; try lia.
Qed.

(** Any number of ticks: the two models agree while the tick count
    stays in the exact range. *)
Lemma ticks_embed n : forall s,
  exactCounters s ->
  State.tickCount s + Z.of_nat n + 15 < 2 ^ 53 ->
  Nat.iter n Js.tick (embed s) = embed (Nat.iter n tick s).
Proof.
  induction n as [|n IH]; intros s X HT; [reflexivity|].
  rewrite !Nat.iter_succ_r, tick_embed by exact X.
  destruct (State.gameEnd (tick s)) eqn:G.
  - rewrite js_ticks_frozen, ticks_frozen; try reflexivity.
    + unfold running. now rewrite G.
    + unfold Js.running. cbn [embed Js.State.gameEnd]. now rewrite G.
  - apply IH.
    + apply exactCounters_tick; [exact X|lia|exact G].
    + destruct (tick_facts s) as (T & _). rewrite T.
      destruct (running s); lia.
Qed.

(** X7.  Any number [n] of ticks on whole-number counters, with the
    tick count staying in the exact range: an ended or paused game
    stays exactly as it is; in general at most [n] lives are lost and
    none is gained, the score does not decrease, the tick count grows
    by at most [n], no pipe is added, and the pause flag and the ghosts
    are kept. *)
Theorem ticks_invariants (n : nat) (js : Js.State.t) (L S T I : Z) :
  Js.wholeCounters js L S T I ->
  T + Z.of_nat n + 15 < 2 ^ 53 ->
  (Js.State.gameEnd js = true \/ Js.State.paused js = true ->
   Nat.iter n Js.tick js = js)
  /\ (exists L' S' T' : Z,
        Js.State.lives (Nat.iter n Js.tick js) = Num.ofZ L'
        /\ Js.State.score (Nat.iter n Js.tick js) = Num.ofZ S'
        /\ Js.State.tickCount (Nat.iter n Js.tick js) = Num.ofZ T'
        /\ L - Z.of_nat n <= L' <= L
        /\ S <= S'
        /\ T <= T' <= T + Z.of_nat n)
  /\ (List.length (Js.State.pipes (Nat.iter n Js.tick js))
      <= List.length (Js.State.pipes js))%nat
  /\ Js.State.paused (Nat.iter n Js.tick js) = Js.State.paused js
  /\ Js.State.ghosts (Nat.iter n Js.tick js) = Js.State.ghosts js.
Proof.
  intros W HT. split.
  - intros H. apply js_ticks_frozen. unfold Js.running.
    destruct H as [-> | ->]; [reflexivity | now rewrite orb_true_r].
  - destruct (wholeCounters_embed js L S T I W) as [E X].
    set (v := wholeView js L S T I) in *.
    destruct (ticks_facts n v) as (_ & Hl & Hs & Ht & Hp & Hpa & Hg).
    assert (Q : Nat.iter n Js.tick js = embed (Nat.iter n tick v))
      by (rewrite E at 1; now apply ticks_embed).
    rewrite Q.
    cbn [embed Js.State.tickCount Js.State.lives Js.State.score
         Js.State.pipes Js.State.paused Js.State.ghosts].
    split; [|split; [exact Hp|split; [exact Hpa|exact Hg]]].
    exists (State.lives (Nat.iter n tick v)), (State.score (Nat.iter n tick v)),
      (State.tickCount (Nat.iter n tick v)).
    change (State.lives v) with L in Hl.
    change (State.score v) with S in Hs.
    change (State.tickCount v) with T in Ht.
    repeat split; try reflexivity; lia.
Qed.

Lemma ticks_invariants_witness :
  Nat.iter 40 Js.tick (embed endedState) = embed endedState
  /\ (List.length (Js.State.pipes (Nat.iter 40 Js.tick (embed bumpState)))
      <= List.length (Js.State.pipes (embed bumpState)))%nat.
Proof.
  assert (W : Js.wholeCounters (embed bumpState) 3 0 0 0)
    by (unfold Js.wholeCounters;
        repeat split; try reflexivity; try (vm_compute; discriminate)).
  assert (V : Js.wholeCounters (embed endedState) 0 0 7 0)
    by (unfold Js.wholeCounters;
        repeat split; try reflexivity; try (vm_compute; discriminate)).
  split.
  - apply (proj1 (ticks_invariants 40 (embed endedState) 0 0 7 0 V
                    ltac:(vm_compute; reflexivity))).
    left. reflexivity.
  - exact (proj1 (proj2 (proj2
             (ticks_invariants 40 (embed bumpState) 3 0 0 0 W
                ltac:(vm_compute; reflexivity))))).
Defined.

(** * Games with input *)

Lemma scroll_start zs :
  Forall (fun z => -50 < z <= 2 ^ 52) zs ->
  zs = map (fun z => z - 5 * Z.of_nat 0)
         (filter (fun z => 5 * Z.of_nat 0 - 50 <? z) zs).
Proof.
  intros F. induction F as [|z zs Fz Ft IHF]; [reflexivity|].
  cbn [filter map Z.of_nat].
  replace (5 * 0 - 50 <? z) with true by (symmetry; apply Z.ltb_lt; lia).
  cbn [map]. cbn [Z.of_nat] in IHF. rewrite <- IHF. f_equal. lia.
Qed.

Lemma scroll_kept n zs :
  Forall (fun z => -50 < z <= 2 ^ 52) zs ->
  Forall (fun z => -50 < z <= 2 ^ 52)
    (map (fun z => z - 5 * Z.of_nat n)
       (filter (fun z => 5 * Z.of_nat n - 50 <? z) zs)).
Proof.
  intros F. apply Forall_forall. intros z' Hz'.
  apply in_map_iff in Hz' as (z & <- & Hz).
  apply filter_In in Hz as [Hz Hf]. apply Z.ltb_lt in Hf.
  rewrite Forall_forall in F. specialize (F z Hz). lia.
Qed.

Lemma played_xs layout zs n s :
  map Pipe.x layout = map Num.ofZ zs ->
  Forall (fun z => -50 < z <= 2 ^ 52) zs ->
  played layout n s ->
  map Pipe.x (State.pipes s)
  = map Num.ofZ
      (map (fun z => z - 5 * Z.of_nat n)
         (filter (fun z => 5 * Z.of_nat n - 50 <? z) zs)).
Proof.
  intros E F P.
  induction P as [s0|n s P IH|n s P IH|n s P IH|n s P IH|n s P IH
                 |id n s P IH|id y n s P IH|id n s P IH];
    try exact IH.
  - cbn [restartGame State.pipes]. rewrite E. f_equal. now apply scroll_start.
  - cbn [restartR restartGame State.pipes]. rewrite E. f_equal.
    now apply scroll_start.
  - destruct (running s) eqn:R; [|now rewrite tick_frozen].
    rewrite (tick_xs _ R), (movePipes_xs _ _ IH) by now apply scroll_kept.
    now rewrite scroll_filter.
  - unfold flapR. now destruct (State.gameEnd s).
Qed.

Lemma played_ticks layout k : forall n s,
  played layout n s ->
  running (Nat.iter k tick s) = true ->
  played layout (n + k) (Nat.iter k tick s).
Proof.
  induction k as [|k IH]; intros n s P R.
  - rewrite Nat.add_0_r. exact P.
  - pose proof (running_before k s R) as R'.
    specialize (IH n s P R').
    rewrite Nat.iter_succ.
    replace (n + S k)%nat
      with (if running (Nat.iter k tick s) then S (n + k) else (n + k)%nat)
      by (rewrite R'; lia).
    now apply played_tick.
Qed.

(** X24.  A schedule row with a whole number [t] of seconds gives a pipe
    at exactly [600 + 250 t].  After [n] ticks have advanced a game,
    whatever flaps, pauses and ghost replays came between them, that
    pipe is at [600 + 250 t - 5 n] as long as it is on the screen, so
    it is at the right edge, [CANVAS_WIDTH], after exactly [50 t]
    ticks. *)
Theorem scheduled_pipes_arrive_on_time (rows : list (number * number * Z))
    (n : nat) (s : State.t) :
  played (timedLayout rows) n s ->
  Forall (fun r => 0 <= snd r <= 2 ^ 40) rows ->
  map Pipe.x (timedLayout rows)
  = map (fun r => Num.ofZ (600 + 250 * snd r)) rows
  /\ map Pipe.x (State.pipes s)
     = map (fun r => Num.ofZ (600 + 250 * snd r - 5 * Z.of_nat n))
         (filter (fun r => 5 * Z.of_nat n - 650 <? 250 * snd r) rows)
  /\ (forall r, In r rows -> Z.of_nat n = 50 * snd r ->
                In Viewport.CANVAS_WIDTH (map Pipe.x (State.pipes s))).
Proof.
  intros P F.
  assert (X : map Pipe.x (State.pipes s)
              = map (fun r => Num.ofZ (600 + 250 * snd r - 5 * Z.of_nat n))
                  (filter (fun r => 5 * Z.of_nat n - 650 <? 250 * snd r) rows)).
  { rewrite (played_xs (timedLayout rows)
               (map (fun r => 600 + 250 * snd r) rows) n s).
    - rewrite filter_map_comm, !map_map.
      erewrite filter_ext; [reflexivity|].
      intros r. cbv beta.
      destruct (Z.ltb_spec (5 * Z.of_nat n - 50) (600 + 250 * snd r)),
               (Z.ltb_spec (5 * Z.of_nat n - 650) (250 * snd r));
        reflexivity || lia.
    - now apply timedLayout_xs.
    - apply Forall_forall. intros z Hz.
      apply in_map_iff in Hz as (r & <- & Hr).
      rewrite Forall_forall in F. specialize (F r Hr). lia.
    - exact P. }
  split; [|split; [exact X|]].
  - rewrite timedLayout_xs, map_map by exact F. reflexivity.
  - intros r Hr Hn. rewrite X.
    apply in_map_iff. exists r. split.
    + replace (600 + 250 * snd r - 5 * Z.of_nat n) with 600 by lia.
      reflexivity.
    + apply filter_In. split; [exact Hr|]. apply Z.ltb_lt. lia.
Qed.

Lemma scheduled_pipes_arrive_on_time_witness :
  In Viewport.CANVAS_WIDTH
    (map Pipe.x
       (State.pipes
          (Nat.iter 25 tick
             (flapR
                (Nat.iter 25 tick
                   (flapR
                      (Nat.iter 25 tick
                         (flapR
                            (Nat.iter 25 tick
                               (flapR
                                  (restartGame endedState
                                     (timedLayout [twoSecondRow])))))))))))).
Proof.
  assert (F : Forall (fun r : number * number * Z => 0 <= snd r <= 2 ^ 40)
                [twoSecondRow])
    by (repeat constructor; cbn; lia).
  pose proof (played_base (timedLayout [twoSecondRow]) endedState) as P0.
  pose proof (played_ticks _ 25 _ _ (played_flap _ _ _ P0)
                ltac:(vm_compute; reflexivity)) as P1.
  pose proof (played_ticks _ 25 _ _ (played_flap _ _ _ P1)
                ltac:(vm_compute; reflexivity)) as P2.
  pose proof (played_ticks _ 25 _ _ (played_flap _ _ _ P2)
                ltac:(vm_compute; reflexivity)) as P3.
  pose proof (played_ticks _ 25 _ _ (played_flap _ _ _ P3)
                ltac:(vm_compute; reflexivity)) as P4.
  exact (proj2 (proj2 (scheduled_pipes_arrive_on_time [twoSecondRow] _ _ P4 F))
           twoSecondRow (or_introl eq_refl) eq_refl).
Defined.
